(** * Registration and coordinate-calibration engine

    A shallow embedding of the image-registration core of the automation
    scripts [automation/calibration/beam_shift_main.py] and
    [automation/tiling/main.py], of the tiling loop and of the main loop
    of the calibration script, and the properties of them that the
    specification relies on or that the code itself shows.

    Numeric conventions of the embedding.
    - the scalar geometry code (angles, vectors, pixel size) is embedded
      twice.  [Geometry] computes on real numbers, keeping [PInf], [NInf]
      and [NaN] for the results of a division by zero: it carries the
      statements about what the formulas are (the sign convention, the
      outcome of a zero magnitude, the geometry of a calibration round).
      [Binary64] rounds every operation as binary64 does, overflow and
      underflow included: it carries the statements about ranges,
      tolerances and exact values.  The rounding and the libm functions
      are parameters there, constrained by the classes [Rounding] and
      [Libm]; [range_only] and the exact functions instantiate them to
      evaluate the code on concrete inputs.
    - image samples are embedded as the statement needs them: exact
      rationals ([Q]) and unbounded integers ([Z]) where only shapes,
      indices and 0/1 frames matter (the tiling loop, the calibration
      loop, the valid-mode peak); float64 samples with rounded arithmetic
      ([Binary64Arrays]) for the binned means; int64 samples with
      wrap-around ([Int64]) and float64 samples for the full-correlation
      estimator.
    - NumPy does not fix the order in which [np.sum] adds: the order is
      a parameter of the float64 [bin_image].
    - array shapes and indices are natural numbers; signed index arithmetic
      (peak minus centre) is done in [Z].
    - the microscope client and the two [skimage] filters are parameters:
      a record of state transitions, and two functions. *)

From Stdlib Require Import Reals ZArith QArith Qround List Bool Arith Psatz.
From Stdlib Require Import Permutation.
Import ListNotations.

Close Scope Q_scope.
Close Scope R_scope.
Open Scope nat_scope.

(* ================================================================== *)
(** * Python outcomes *)
(* ================================================================== *)

(** The exceptions the modelled code can raise. *)
Inductive exn : Type :=
| ValueError
| IndexError
| NameError.

(** A call either returns a value or raises. *)
Inductive result (A : Type) : Type :=
| Ok (v : A)
| Raise (e : exn).

Arguments Ok {A} v.
Arguments Raise {A} e.

Definition rbind {A B : Type} (m : result A) (k : A -> result B) : result B :=
  match m with
  | Ok v => k v
  | Raise e => Raise e
  end.

Notation "x <- m ;; k" := (rbind m (fun x => k))
  (at level 61, m at next level, right associativity).

(* ================================================================== *)
(** * NumPy float64 scalars *)
(* ================================================================== *)

Module Float.

Local Open Scope R_scope.

(** A float64 value: a finite number, an infinity, or not-a-number. *)
Inductive float64 : Type :=
| Fin (r : R)
| PInf
| NInf
| NaN.

(** [x / y] on float64 scalars with finite operands: NumPy does not raise on
    a zero divisor, it yields [nan] for [0 / 0] and an infinity otherwise. *)
Definition np_true_divide (x y : R) : float64 :=
  if Req_dec_T y 0 then
    if Req_dec_T x 0 then NaN
    else if Rlt_dec 0 x then PInf else NInf
  else Fin (x / y).

(** [np.clip(x, lo, hi)] is [minimum(maximum(x, lo), hi)]; [nan] propagates. *)
Definition np_clip (x : float64) (lo hi : R) : float64 :=
  match x with
  | Fin r => Fin (Rmin (Rmax r lo) hi)
  | PInf => Fin hi
  | NInf => Fin lo
  | NaN => NaN
  end.

(** [np.arccos]: defined on [-1, 1], [nan] elsewhere. *)
Definition np_arccos (x : float64) : float64 :=
  match x with
  | Fin r =>
      if Rle_dec (-1) r then
        if Rle_dec r 1 then Fin (acos r) else NaN
      else NaN
  | _ => NaN
  end.

(** Unary minus. *)
Definition np_negative (x : float64) : float64 :=
  match x with
  | Fin r => Fin (- r)
  | PInf => NInf
  | NInf => PInf
  | NaN => NaN
  end.

(** [np.degrees(x)] is [x * 180 / pi]. *)
Definition np_degrees (x : float64) : float64 :=
  match x with
  | Fin r => Fin (r * 180 / PI)
  | other => other
  end.

(** [np.radians(x)] is [x * pi / 180] (finite operand). *)
Definition np_radians (deg : R) : R := deg * PI / 180.

End Float.

(* ================================================================== *)
(** * Plane geometry of beam_shift_main.py *)
(* ================================================================== *)

Module Geometry.

Import Float.
Local Open Scope R_scope.

(** A 2-component vector [(x, y)]. *)
Definition vec2 : Type := (R * R)%type.

(** A 2x2 matrix, as its two rows. *)
Definition mat2 : Type := (vec2 * vec2)%type.

(** [autoscript] [Point(x=..., y=...)]. *)
Record Point : Type := mkPoint { x : R; y : R }.

Definition np_dot (a b : vec2) : R := fst a * fst b + snd a * snd b.

(** [np.linalg.norm] of a 1-D array. *)
Definition np_linalg_norm (a : vec2) : R := sqrt (np_dot a a).

(** [np.cross] of two 2-vectors: the z-component. *)
Definition np_cross (a b : vec2) : R := fst a * snd b - snd a * fst b.

(** [M.T]. *)
Definition transpose (m : mat2) : mat2 :=
  ((fst (fst m), fst (snd m)), (snd (fst m), snd (snd m))).

(** [M @ v]. *)
Definition matmul (m : mat2) (v : vec2) : vec2 :=
  (np_dot (fst m) v, np_dot (snd m) v).

(** [v * s]. *)
Definition scale (v : vec2) (s : R) : vec2 := (fst v * s, snd v * s).

(** beam_shift_main.py, lines 80-119. *)
Definition calculate_signed_angle_between_vectors (vec1 vec2 : vec2)
  : result float64 :=
  let dot_product := np_dot vec1 vec2 in
  let magnitude_vec1 := np_linalg_norm vec1 in
  let magnitude_vec2 := np_linalg_norm vec2 in
  let cos_theta :=
    np_true_divide dot_product (magnitude_vec1 * magnitude_vec2) in
  let cos_theta := np_clip cos_theta (-1) 1 in
  let angle_radians := np_arccos cos_theta in
  let cross_product := np_cross vec1 vec2 in
  let angle_radians :=
    if Rlt_dec cross_product 0 then np_negative angle_radians
    else angle_radians in
  let angle_degrees := np_degrees angle_radians in
  Ok angle_degrees.

(** The rotation matrix both transforms build from the angle in radians. *)
Definition rotation_matrix (angle : R) : mat2 :=
  ((cos angle, - sin angle),
   (sin angle, cos angle)).

(** beam_shift_main.py, lines 179-210.  The argument is the 2x1 column
    vector [[x], [y]]. *)
Definition image_to_beam_shift (px_col_vector_xy : vec2)
    (pixel_size : R) (angle_deg : R) : Point :=
  let image_to_beam_shift_angle := np_radians angle_deg in
  let image_to_beam_shift_rotation_matrix :=
    rotation_matrix image_to_beam_shift_angle in
  let vector_meters := scale px_col_vector_xy pixel_size in
  let transformed_vector :=
    matmul image_to_beam_shift_rotation_matrix vector_meters in
  let reflection_factor := -1 in
  mkPoint (fst transformed_vector)
          (snd transformed_vector * reflection_factor).

(** beam_shift_main.py, lines 212-249.  The result is the 1-D array
    [vector_meters / pixel_size]. *)
Definition beam_to_image_shift (beam_shift_col_vector_xy : Point)
    (pixel_size : R) (angle_deg : R) : float64 * float64 :=
  let image_to_beam_shift_angle := np_radians angle_deg in
  let image_to_beam_shift_rotation_matrix :=
    rotation_matrix image_to_beam_shift_angle in
  let rotation_matrix_inverse :=
    transpose image_to_beam_shift_rotation_matrix in
  let beam_shift_vector_np :=
    (x beam_shift_col_vector_xy, y beam_shift_col_vector_xy) in
  let beam_shift_vector_refl :=
    (fst beam_shift_vector_np, snd beam_shift_vector_np * -1) in
  let vector_meters := matmul rotation_matrix_inverse beam_shift_vector_refl in
  (np_true_divide (fst vector_meters) pixel_size,
   np_true_divide (snd vector_meters) pixel_size).

End Geometry.

(* ================================================================== *)
(** * binary64 arithmetic *)
(* ================================================================== *)

(** The scalar code of beam_shift_main.py again, with every operation
    rounded as binary64 rounds it.  A finite value is the real number it
    stands for (the two zeros are one); the rounding to the format is a
    function [rnd] of which only the properties of IEEE 754
    round-to-nearest listed in [Rounding] are used, and the three libm
    functions behind [np.cos], [np.sin] and [np.arccos] are functions of
    which only the properties in [Libm] are used. *)

Module Binary64.

Import Float.
Local Open Scope R_scope.

(** ** The format *)

(** Half the gap between 1 and the next value: the relative error of a
    rounding. *)
Definition UNIT_ROUNDOFF : R := / 2 ^ 53.

(** Half the smallest positive value: the absolute error of a rounding
    that underflows. *)
Definition HALF_SUBNORMAL : R := / 2 ^ 1075.

(** The largest finite value. *)
Definition MAX_FINITE : R := 2 ^ 1024 - 2 ^ 971.

(** From this magnitude on, a result is rounded to an infinity. *)
Definition OVERFLOW : R := 2 ^ 1024.

(** The order of the values that are not [nan]. *)
Definition float_le (a b : float64) : Prop :=
  match a, b with
  | NaN, _ | _, NaN => False
  | NInf, _ => True
  | _, PInf => True
  | Fin u, Fin v => u <= v
  | _, _ => False
  end.

(** A power of two that is the weight of the last bit of some binary64
    number: from 2^-1074 to 2^970. *)
Definition last_bit_weight (q : R) : Prop :=
  exists k : nat,
    (q = 2 ^ k /\ (k <= 970)%nat) \/ (q = / 2 ^ k /\ (k <= 1074)%nat).

(** What is used of round-to-nearest. *)
Class Rounding (rnd : R -> float64) : Prop := {
  rnd_finite :
    forall u, Rabs u <= MAX_FINITE ->
    exists v, rnd u = Fin v /\ Rabs v <= MAX_FINITE
              /\ Rabs (v - u) <= UNIT_ROUNDOFF * Rabs u + HALF_SUBNORMAL;
  rnd_overflow : forall u, OVERFLOW <= u -> rnd u = PInf;
  rnd_odd : forall u, rnd (- u) = np_negative (rnd u);
  rnd_monotone : forall u v, u <= v -> float_le (rnd u) (rnd v);
  rnd_representable : forall u v, rnd u = Fin v -> rnd v = Fin v;
  rnd_integer :
    forall n : Z, (Z.abs n <= 2 ^ 53)%Z -> rnd (IZR n) = Fin (IZR n);
  rnd_scaled_integer :
    forall (n : Z) (q : R), (Z.abs n <= 2 ^ 53)%Z -> last_bit_weight q ->
    rnd (IZR n * q) = Fin (IZR n * q)
}.

(** What is used of libm: [cos] and [sin] are exact at 0, within 2^-45
    (some hundred units in the last place of 1) of the cosine and the
    sine elsewhere and never beyond 1 in magnitude; [acos] stays within
    [0, np.pi]. *)
Definition PI_F : R := 884279719003555 / 2 ^ 48.

Class Libm (cos_f sin_f acos_f : R -> R) : Prop := {
  cos_at_zero : cos_f 0 = 1;
  sin_at_zero : sin_f 0 = 0;
  cos_accurate : forall t, Rabs (cos_f t - cos t) <= / 2 ^ 45;
  sin_accurate : forall t, Rabs (sin_f t - sin t) <= / 2 ^ 45;
  cos_bounded : forall t, Rabs (cos_f t) <= 1;
  sin_bounded : forall t, Rabs (sin_f t) <= 1;
  acos_range : forall u, -1 <= u <= 1 -> 0 <= acos_f u <= PI_F
}.

Section Arithmetic.

Variable rnd : R -> float64.

(** [a + b]. *)
Definition fadd (a b : float64) : float64 :=
  match a, b with
  | Fin u, Fin v => rnd (u + v)
  | NaN, _ | _, NaN => NaN
  | PInf, NInf | NInf, PInf => NaN
  | PInf, _ | _, PInf => PInf
  | NInf, _ | _, NInf => NInf
  end.

(** [a - b]. *)
Definition fsub (a b : float64) : float64 := fadd a (np_negative b).

(** An infinity times, or divided by, a finite value [u] that is not
    zero. *)
Definition signed_like (inf : float64) (u : R) : float64 :=
  if Rlt_dec u 0 then np_negative inf else inf.

(** [a * b]; an infinity times zero is [nan]. *)
Definition fmul (a b : float64) : float64 :=
  match a, b with
  | Fin u, Fin v => rnd (u * v)
  | NaN, _ | _, NaN => NaN
  | Fin u, PInf | PInf, Fin u =>
      if Req_dec_T u 0 then NaN else signed_like PInf u
  | Fin u, NInf | NInf, Fin u =>
      if Req_dec_T u 0 then NaN else signed_like NInf u
  | PInf, PInf | NInf, NInf => PInf
  | PInf, NInf | NInf, PInf => NInf
  end.

(** [a / b], NumPy's: a zero divisor raises nothing. *)
Definition fdiv (a b : float64) : float64 :=
  match a, b with
  | Fin u, Fin v =>
      if Req_dec_T v 0 then
        if Req_dec_T u 0 then NaN
        else if Rlt_dec 0 u then PInf else NInf
      else rnd (u / v)
  | NaN, _ | _, NaN => NaN
  | Fin _, PInf | Fin _, NInf => Fin 0
  | PInf, Fin v => signed_like PInf v
  | NInf, Fin v => signed_like NInf v
  | _, _ => NaN
  end.

(** [np.sqrt]. *)
Definition fsqrt (a : float64) : float64 :=
  match a with
  | Fin u => if Rlt_dec u 0 then NaN else rnd (sqrt u)
  | PInf => PInf
  | _ => NaN
  end.

(** [a < 0]; a comparison with [nan] is false. *)
Definition negative (a : float64) : bool :=
  match a with
  | Fin u => if Rlt_dec u 0 then true else false
  | NInf => true
  | _ => false
  end.

(** The constants [np.pi / 180] and [180 / np.pi] of [np.radians] and
    [np.degrees]. *)
Definition DEG2RAD : R := 5030569068109113 / 2 ^ 58.
Definition RAD2DEG : R := 1007958012753983 / 2 ^ 44.

Definition np_radians (a : float64) : float64 := fmul a (Fin DEG2RAD).
Definition np_degrees (a : float64) : float64 := fmul a (Fin RAD2DEG).

Variables cos_f sin_f acos_f : R -> R.

Definition np_cos (a : float64) : float64 :=
  match a with
  | Fin t => Fin (cos_f t)
  | _ => NaN
  end.

Definition np_sin (a : float64) : float64 :=
  match a with
  | Fin t => Fin (sin_f t)
  | _ => NaN
  end.

Definition np_arccos (a : float64) : float64 :=
  match a with
  | Fin u =>
      if Rle_dec (-1) u then
        if Rle_dec u 1 then Fin (acos_f u) else NaN
      else NaN
  | _ => NaN
  end.

(** ** The functions of beam_shift_main.py *)

(** A 2-component vector [(x, y)]. *)
Definition vec2 : Type := (float64 * float64)%type.

(** [autoscript] [Point(x=..., y=...)]. *)
Record Point : Type := mkPoint { x : float64; y : float64 }.

(** [np.dot] of two 2-vectors, and the row of a matrix times a column. *)
Definition np_dot (a b : vec2) : float64 :=
  fadd (fmul (fst a) (fst b)) (fmul (snd a) (snd b)).

Definition np_linalg_norm (a : vec2) : float64 := fsqrt (np_dot a a).

Definition np_cross (a b : vec2) : float64 :=
  fsub (fmul (fst a) (snd b)) (fmul (snd a) (fst b)).

(** Lines 94-100: the cosine before the clamp. *)
Definition cos_theta_raw (vec1 vec2 : vec2) : float64 :=
  let dot_product := np_dot vec1 vec2 in
  let magnitude_vec1 := np_linalg_norm vec1 in
  let magnitude_vec2 := np_linalg_norm vec2 in
  fdiv dot_product (fmul magnitude_vec1 magnitude_vec2).

(** Lines 80-119. *)
Definition calculate_signed_angle_between_vectors (vec1 vec2 : vec2)
  : result float64 :=
  let cos_theta := cos_theta_raw vec1 vec2 in
  let cos_theta := np_clip cos_theta (-1) 1 in
  let angle_radians := np_arccos cos_theta in
  let cross_product := np_cross vec1 vec2 in
  let angle_radians :=
    if negative cross_product then np_negative angle_radians
    else angle_radians in
  let angle_degrees := np_degrees angle_radians in
  Ok angle_degrees.

(** Lines 179-210. *)
Definition image_to_beam_shift (px_col_vector_xy : vec2)
    (pixel_size angle_deg : float64) : Point :=
  let image_to_beam_shift_angle := np_radians angle_deg in
  let c := np_cos image_to_beam_shift_angle in
  let s := np_sin image_to_beam_shift_angle in
  let row0 := (c, np_negative s) in
  let row1 := (s, c) in
  let vector_meters :=
    (fmul (fst px_col_vector_xy) pixel_size,
     fmul (snd px_col_vector_xy) pixel_size) in
  let transformed_vector :=
    (np_dot row0 vector_meters, np_dot row1 vector_meters) in
  let reflection_factor := Fin (-1) in
  mkPoint (fst transformed_vector)
          (fmul (snd transformed_vector) reflection_factor).

(** Lines 212-249. *)
Definition beam_to_image_shift (beam_shift_col_vector_xy : Point)
    (pixel_size angle_deg : float64) : vec2 :=
  let image_to_beam_shift_angle := np_radians angle_deg in
  let c := np_cos image_to_beam_shift_angle in
  let s := np_sin image_to_beam_shift_angle in
  (* the transpose of the rotation matrix *)
  let row0 := (c, s) in
  let row1 := (np_negative s, c) in
  let beam_shift_vector_np :=
    (x beam_shift_col_vector_xy, y beam_shift_col_vector_xy) in
  let beam_shift_vector_refl :=
    (fst beam_shift_vector_np, fmul (snd beam_shift_vector_np) (Fin (-1))) in
  let vector_meters :=
    (np_dot row0 beam_shift_vector_refl,
     np_dot row1 beam_shift_vector_refl) in
  (fdiv (fst vector_meters) pixel_size,
   fdiv (snd vector_meters) pixel_size).

End Arithmetic.

(** ** A rounding to evaluate with *)

(** The rounding that keeps every value of the finite range as it is,
    sends what is beyond it to the infinities and what is below half the
    smallest positive value to zero: it overflows and underflows where
    binary64 does and is exact in between. *)
Definition range_only (u : R) : float64 :=
  if Rle_dec OVERFLOW u then PInf
  else if Rle_dec u (- OVERFLOW) then NInf
  else if Rlt_dec (Rabs u) HALF_SUBNORMAL then Fin 0
  else if Rle_dec (Rabs u) MAX_FINITE then Fin u
  else if Rlt_dec 0 u then Fin MAX_FINITE else Fin (- MAX_FINITE).

(** A libm to evaluate with: the exact functions, [acos] capped at
    [np.pi]. *)
Definition acos_capped (u : R) : R := Rmin (acos u) PI_F.

End Binary64.

(* ================================================================== *)
(** * NumPy arrays *)
(* ================================================================== *)

Module Np.

(** The arithmetic an array's element type provides. *)
Class Dtype (A : Type) : Type := {
  d_zero : A;
  d_add : A -> A -> A;
  d_mul : A -> A -> A;
  d_ltb : A -> A -> bool
}.

(** Integer arrays (the binarised frames of [preprocess_image]). *)
#[export] Instance int_dtype : Dtype Z := {|
  d_zero := 0%Z;
  d_add := Z.add;
  d_mul := Z.mul;
  d_ltb := Z.ltb
|}.

(** float64 arrays, with exact rational samples. *)
#[export] Instance float_dtype : Dtype Q := {|
  d_zero := 0%Q;
  d_add := Qplus;
  d_mul := Qmult;
  d_ltb := fun a b => negb (Qle_bool b a)
|}.

(** A 2-D array: its shape and its samples in row-major order. *)
Record ndarray (A : Type) : Type := mk_ndarray {
  nrows : nat;
  ncols : nat;
  data : list A
}.

Arguments mk_ndarray {A} nrows ncols data.
Arguments nrows {A} n.
Arguments ncols {A} n.
Arguments data {A} n.

(** A 4-D array, as produced by [reshape(n0, n1, n2, n3)]. *)
Record ndarray4 (A : Type) : Type := mk_ndarray4 {
  dims : nat * nat * nat * nat;
  data4 : list A
}.

Arguments mk_ndarray4 {A} dims data4.
Arguments dims {A} n.
Arguments data4 {A} n.

Section Arrays.

Context {A : Type} `{Dtype A}.

(** The shape is consistent with the number of samples stored. *)
Definition well_formed (a : ndarray A) : Prop :=
  length (data a) = nrows a * ncols a.

(** [a[r, c]] for an index inside the array. *)
Definition item (a : ndarray A) (r c : nat) : A :=
  nth (r * ncols a + c) (data a) d_zero.

(** The array whose sample at [(r, c)] is [f r c]. *)
Definition fromfunction (nr nc : nat) (f : nat -> nat -> A) : ndarray A :=
  mk_ndarray nr nc
    (map (fun k => f (k / nc) (k mod nc)) (seq 0 (nr * nc))).

(** [np.full((nr, nc), v)]. *)
Definition full (nr nc : nat) (v : A) : ndarray A :=
  mk_ndarray nr nc (repeat v (nr * nc)).

(** The sum of [f 0 .. f (n-1)]. *)
Definition sum_range (n : nat) (f : nat -> A) : A :=
  fold_right (fun k acc => d_add (f k) acc) d_zero (seq 0 n).

(** [a.reshape(n0, n1, n2, n3)]: the same samples under a new shape; the
    total size must be unchanged. *)
Definition np_reshape4 (a : ndarray A) (shape : nat * nat * nat * nat)
  : result (ndarray4 A) :=
  let '(n0, n1, n2, n3) := shape in
  if nrows a * ncols a =? n0 * n1 * n2 * n3
  then Ok (mk_ndarray4 shape (data a))
  else Raise ValueError.

(** [a[i, j, k, l]] of a 4-D array. *)
Definition item4 (a : ndarray4 A) (i j k l : nat) : A :=
  let '(_, n1, n2, n3) := dims a in
  nth (((i * n1 + j) * n2 + k) * n3 + l) (data4 a) d_zero.

(** [np.sum(a, axis=(1, 3))]. *)
Definition np_sum_axes_1_3 (a : ndarray4 A) : ndarray A :=
  let '(n0, n1, n2, n3) := dims a in
  fromfunction n0 n2
    (fun i k => sum_range n1 (fun j => sum_range n3 (fun l => item4 a i j k l))).

(** Scan for the first maximum: [best] at index [best_i] is the running
    maximum, [i] the index of the head of [l]. *)
Fixpoint argmax_from (best_i : nat) (best : A) (i : nat) (l : list A) : nat :=
  match l with
  | [] => best_i
  | v :: l' =>
      if d_ltb best v then argmax_from i v (S i) l'
      else argmax_from best_i best (S i) l'
  end.

(** [np.argmax(a)]: the flat index of the first occurrence of the maximum;
    an empty array is an error. *)
Definition np_argmax (a : ndarray A) : result nat :=
  match data a with
  | [] => Raise ValueError
  | v :: l => Ok (argmax_from 0 v 1 l)
  end.

(** [np.unravel_index(k, shape)] for a 2-D shape. *)
Definition np_unravel_index (k : nat) (shape : nat * nat) : result (Z * Z) :=
  let '(nr, nc) := shape in
  if k <? nr * nc
  then Ok (Z.of_nat (k / nc), Z.of_nat (k mod nc))
  else Raise ValueError.

(** [a[::-1, ::-1]]. *)
Definition reverse_both (a : ndarray A) : ndarray A :=
  fromfunction (nrows a) (ncols a)
    (fun r c => item a (nrows a - 1 - r) (ncols a - 1 - c)).

End Arrays.

(** [a.astype(np.float64)] of an integer array. *)
Definition astype_float64 (a : ndarray Z) : ndarray Q :=
  mk_ndarray (nrows a) (ncols a) (map inject_Z (data a)).

(** [a / s] for a float64 array and a scalar. *)
Definition divide_scalar (a : ndarray Q) (s : Q) : ndarray Q :=
  mk_ndarray (nrows a) (ncols a) (map (fun v => Qdiv v s) (data a)).

(** Python's [int(q)]: truncation toward zero. *)
Definition py_int (q : Q) : Z :=
  if Qle_bool 0 q then Qfloor q else Qceiling q.

(** The first index selected by the slice [k:] on an axis of length [len]:
    a negative [k] counts from the end, and the result is clamped to the
    axis. *)
Definition slice_start (k : Z) (len : nat) : nat :=
  if (k <? 0)%Z
  then Z.to_nat (Z.max 0 (k + Z.of_nat len))
  else Nat.min (Z.to_nat k) len.

End Np.

(* ================================================================== *)
(** * scipy.signal.correlate2d *)
(* ================================================================== *)

Module Scipy.

Import Np.

Inductive mode : Type :=
| full_mode
| valid_mode.

Section Correlate.

Context {A : Type} `{Dtype A}.

(** [in1] extended by the fill value 0 outside its bounds
    ([boundary='fill'], [fillvalue=0], the defaults). *)
Definition padded (a : ndarray A) (r c : Z) : A :=
  if ((0 <=? r)%Z && (r <? Z.of_nat (nrows a))%Z
      && (0 <=? c)%Z && (c <? Z.of_nat (ncols a))%Z)%bool
  then item a (Z.to_nat r) (Z.to_nat c)
  else d_zero.

(** Full cross-correlation: output index [(i, j)] places the origin of
    [in2] at [(i - (h - 1), j - (w - 1))] of [in1]. *)
Definition correlate_full (in1 in2 : ndarray A) : ndarray A :=
  let h := nrows in2 in
  let w := ncols in2 in
  fromfunction (nrows in1 + h - 1) (ncols in1 + w - 1)
    (fun i j =>
       sum_range h (fun u =>
         sum_range w (fun v =>
           d_mul
             (padded in1 (Z.of_nat i + Z.of_nat u - (Z.of_nat h - 1))
                         (Z.of_nat j + Z.of_nat v - (Z.of_nat w - 1)))
             (item in2 u v)))).

(** Valid cross-correlation of a larger [in1] with a smaller [in2]: only
    the placements of [in2] entirely inside [in1]. *)
Definition correlate_valid (in1 in2 : ndarray A) : ndarray A :=
  let h := nrows in2 in
  let w := ncols in2 in
  fromfunction (nrows in1 - h + 1) (ncols in1 - w + 1)
    (fun i j =>
       sum_range h (fun u =>
         sum_range w (fun v =>
           d_mul (item in1 (i + u) (j + v)) (item in2 u v)))).

(** [correlate2d(in1, in2, mode=...)].  In valid mode one input must be at
    least as large as the other in every dimension; when it is the second,
    the inputs are swapped and the output reversed along both axes. *)
Definition correlate2d (in1 in2 : ndarray A) (m : mode)
  : result (ndarray A) :=
  match m with
  | full_mode => Ok (correlate_full in1 in2)
  | valid_mode =>
      if ((nrows in2 <=? nrows in1) && (ncols in2 <=? ncols in1))%bool
      then Ok (correlate_valid in1 in2)
      else if ((nrows in1 <=? nrows in2) && (ncols in1 <=? ncols in2))%bool
      then Ok (reverse_both (correlate_valid in2 in1))
      else Raise ValueError
  end.

End Correlate.

End Scipy.

(* ================================================================== *)
(** * Image functions of beam_shift_main.py *)
(* ================================================================== *)

Module Registration.

Import Np Scipy.

(** beam_shift_main.py, lines 26-39 (and, verbatim, tiling/main.py,
    lines 42-55).  The quotient models the float64 result for
    [bin_factor >= 1]. *)
Definition bin_image (image : ndarray Q) (bin_factor : nat)
  : result (ndarray Q) :=
  binned_img <- np_reshape4 image (256, bin_factor, 256, bin_factor) ;;
  let binned_img := np_sum_axes_1_3 binned_img in
  let binned_img :=
    divide_scalar binned_img (inject_Z (Z.of_nat (bin_factor * bin_factor))) in
  Ok binned_img.

(** beam_shift_main.py, lines 42-48 (and tiling/main.py, lines 58-64):
    [image[:, int(image.shape[1] * (1 - overlap_factor)):]]. *)
Definition generate_template {A : Type} `{Dtype A}
    (image : ndarray A) (overlap_factor : Q) : ndarray A :=
  let start :=
    slice_start
      (py_int (inject_Z (Z.of_nat (ncols image)) * (1 - overlap_factor))%Q)
      (ncols image) in
  fromfunction (nrows image) (ncols image - start)
    (fun r c => item image r (start + c)).

(** beam_shift_main.py, lines 50-78. *)
Definition compute_translation_vector {A : Type} `{Dtype A}
    (current_im template : ndarray A) : result (Z * Z) :=
  correlation <- correlate2d current_im template full_mode ;;
  flat_peak <- np_argmax correlation ;;
  peak_index <-
    np_unravel_index flat_peak (nrows correlation, ncols correlation) ;;
  let center :=
    (Z.of_nat (nrows correlation) / 2, Z.of_nat (ncols correlation) / 2)%Z in
  let translation_vector :=
    (fst peak_index - fst center, snd peak_index - snd center)%Z in
  (* flip to (x, y) *)
  let translation_vector :=
    (snd translation_vector, fst translation_vector) in
  Ok translation_vector.

End Registration.

(* ================================================================== *)
(** * int64 arrays *)
(* ================================================================== *)

Module Int64.

Import Np.

(** The int64 that a result wraps to. *)
Definition wrap64 (z : Z) : Z := ((z + 2 ^ 63) mod 2 ^ 64 - 2 ^ 63)%Z.

(** int64 arrays (what [astype(int)] produces): the sums and products of
    [correlate2d] wrap. *)
Definition int64_dtype : Dtype Z := {|
  d_zero := 0%Z;
  d_add := fun a b => wrap64 (a + b);
  d_mul := fun a b => wrap64 (a * b);
  d_ltb := Z.ltb
|}.

End Int64.

(* ================================================================== *)
(** * float64 arrays *)
(* ================================================================== *)

(** The array code on float64 samples, every operation rounded.  NumPy
    does not fix the order in which a reduction adds its operands
    (pairwise blocks, reordered axes): the order in which [np.sum] adds
    the samples of a block is a parameter here, and the statements hold
    for every order that adds each sample once. *)

Module Binary64Arrays.

Import Float Binary64 Np.

(** [a < b]; a comparison with [nan] is false. *)
Definition flt (a b : float64) : bool :=
  match a, b with
  | NaN, _ | _, NaN => false
  | Fin u, Fin v => if Rlt_dec u v then true else false
  | NInf, NInf => false
  | NInf, _ => true
  | PInf, _ => false
  | Fin _, PInf => true
  | Fin _, NInf => false
  end.

(** The comparison [np.argmax] scans with: a [nan] counts as the maximum,
    the first one wins. *)
Definition argmax_lt (best v : float64) : bool :=
  match v, best with
  | NaN, NaN => false
  | NaN, _ => true
  | _, _ => flt best v
  end.

(** An order of summation over the samples [(j, l)] of a block. *)
Inductive summation : Type :=
| Term (j l : nat)
| Plus (s1 s2 : summation).

(** The samples a summation adds, and the number of its additions. *)
Fixpoint terms (s : summation) : list (nat * nat) :=
  match s with
  | Term j l => [(j, l)]
  | Plus s1 s2 => terms s1 ++ terms s2
  end.

Fixpoint additions (s : summation) : nat :=
  match s with
  | Term _ _ => 0
  | Plus s1 s2 => S (additions s1 + additions s2)
  end.

Section Rounded.

Variable rnd : R -> float64.

(** float64 arrays. *)
#[local] Instance float64_dtype : Dtype float64 := {|
  d_zero := Fin 0;
  d_add := fadd rnd;
  d_mul := fmul rnd;
  d_ltb := argmax_lt
|}.

(** The sum the summation [s] computes from the samples [get j l]. *)
Fixpoint summed (get : nat -> nat -> float64) (s : summation) : float64 :=
  match s with
  | Term j l => get j l
  | Plus s1 s2 => fadd rnd (summed get s1) (summed get s2)
  end.

(** [np.sum(a, axis=(1, 3))], the block of the output sample [(i, k)]
    added in the order [order i k]; the sum of no sample is 0. *)
Definition np_sum_axes_1_3 (order : nat -> nat -> summation)
    (a : ndarray4 float64) : ndarray float64 :=
  let '(n0, n1, n2, n3) := dims a in
  fromfunction n0 n2
    (fun i k =>
       if n1 * n3 =? 0 then Fin 0
       else summed (fun j l => item4 a i j k l) (order i k)).

(** [a / s] for an array and a scalar. *)
Definition divide_scalar (a : ndarray float64) (s : float64)
  : ndarray float64 :=
  mk_ndarray (nrows a) (ncols a) (map (fun v => fdiv rnd v s) (data a)).

(** beam_shift_main.py, lines 26-39 (and, verbatim, tiling/main.py,
    lines 42-55); the integer [bin_factor * bin_factor] is converted to
    float64 for the division. *)
Definition bin_image (order : nat -> nat -> summation)
    (image : ndarray float64) (bin_factor : nat)
  : result (ndarray float64) :=
  binned_img <- np_reshape4 image (256, bin_factor, 256, bin_factor) ;;
  let binned_img := np_sum_axes_1_3 order binned_img in
  let binned_img :=
    divide_scalar binned_img (rnd (INR (bin_factor * bin_factor))) in
  Ok binned_img.

End Rounded.

End Binary64Arrays.

(* ================================================================== *)
(** * tiling/main.py *)
(* ================================================================== *)

Module Tiling.

Import Np Scipy.

(** tiling/main.py, lines 42-55: the same function as in
    beam_shift_main.py; the script calls it with the default
    [bin_factor=4]. *)
Definition bin_image (image : ndarray Q) (bin_factor : nat)
  : result (ndarray Q) :=
  Registration.bin_image image bin_factor.

(** tiling/main.py, lines 58-64. *)
Definition generate_template (image : ndarray Q) (overlap_factor : Q)
  : ndarray Q :=
  Registration.generate_template image overlap_factor.

(** tiling/main.py, lines 67-80. *)
Definition cross_correlate {A : Type} `{Dtype A}
    (image template : ndarray A) : result (Z * Z) :=
  corr_map <- correlate2d image template valid_mode ;;
  flat_peak <- np_argmax corr_map ;;
  np_unravel_index flat_peak (nrows corr_map, ncols corr_map).

(** Lines 83-96. *)
Definition NO_COLS_TO_TILE : nat := 2.
Definition NO_ROWS_TO_TILE : nat := 1.
Definition OVERLAP_FACTOR : Q := 3 # 10.
Definition IMAGE_SIZE : nat := 1024.
Definition DESIRED_SHIFT_PIXELS : Q :=
  (inject_Z (Z.of_nat IMAGE_SIZE) * (1 - OVERLAP_FACTOR))%Q.
Definition SHIFT_TOLERANCE_PIXELS : Z := 5.
Definition BIN_FACTOR : nat := 4.

(** The budget of the correction sub-loop (line 237). *)
Definition MAX_CORRECTION_ATTEMPTS : nat := 10.

(** Lines 175-178: the acceptance test on the peak index. *)
Definition within_tolerance (peak_index : Z * Z) : bool :=
  ((Z.abs (fst peak_index) <=? SHIFT_TOLERANCE_PIXELS)%Z
   && (Z.abs (snd peak_index) <=? SHIFT_TOLERANCE_PIXELS)%Z)%bool.

(** Lines 165-170: the seam estimate from the previous and the current
    tile. *)
Definition estimate_seam (full_template_img current_img : ndarray Q)
  : result (Z * Z) :=
  full_template_img <- bin_image full_template_img 4 ;;
  current_img <- bin_image current_img 4 ;;
  let template := generate_template full_template_img OVERLAP_FACTOR in
  cross_correlate current_img template.

(** ** The instrument *)

(** A stage position; an axis left out of [StagePosition(...)] is 0. *)
Record StagePosition : Type := mkStagePosition { x : Q; y : Q }.

Definition stage_add (p q : StagePosition) : StagePosition :=
  mkStagePosition (x p + x q)%Q (y p + y q)%Q.

(** An acquired image: its samples and
    [metadata.stage_settings.stage_position]. *)
Record AdornedImage : Type := mkAdornedImage {
  adorned_data : ndarray Z;
  stage_position : StagePosition
}.

(** The calls the loop makes on the microscope client, as transitions of
    the instrument's state. *)
Record Microscope : Type := mkMicroscope {
  World : Type;
  acquire_stem_image : World -> AdornedImage * World;
  absolute_move : StagePosition -> World -> World;
  piezo_relative_move : StagePosition -> World -> World;
  blank : World -> World
}.

Inductive direction : Type := left | right | up | down.

(** What the loop prints. *)
Inductive message : Type :=
| msg_desired_abs_stage_pos (branch : nat) (p : StagePosition)
| msg_image (i j : nat)
| msg_no_shift_correction_necessary
| msg_correcting_shift
| msg_relative_overshift (overshift_y overshift_x : Q)
| msg_translating (d : direction)
| msg_no_solution_found.

(** What the loop does to the outside world, in order. *)
Inductive event : Type :=
| EvAbsoluteMove (p : StagePosition)
| EvAcquire
| EvBlank
| EvPiezoMove (p : StagePosition)
| EvPrint (m : message).

(** [l[-1]]. *)
Definition py_last {A : Type} (l : list A) : result A :=
  match rev l with
  | v :: _ => Ok v
  | [] => Raise IndexError
  end.

(** [l[-2]]. *)
Definition py_second_last {A : Type} (l : list A) : result A :=
  match rev l with
  | _ :: v :: _ => Ok v
  | _ => Raise IndexError
  end.

(** [l[-1] = v] on a non-empty list. *)
Definition py_set_last {A : Type} (l : list A) (v : A) : list A :=
  removelast l ++ [v].

Section Script.

Variable M : Microscope.

(** Line 101: the stage position when the script starts. *)
Variable original_stage_pos : StagePosition.

(** Line 107: [FOV / IMAGE_SIZE], with the field of view read from the
    instrument. *)
Variable PIXEL_SIZE : Q.

(** Line 108. *)
Definition DESIRED_RELATIVE_SHIFT : Q := (DESIRED_SHIFT_PIXELS * PIXEL_SIZE)%Q.

(** The script's variables and its trace; [None] is an unbound name. *)
Record state : Type := mkState {
  world : World M;
  adornedImage_list : list AdornedImage;
  images_list : list (ndarray Q);
  desired_abs_stage_pos : option StagePosition;
  var_j : option nat;
  correction_attempts : nat;
  log : list event
}.

(** A statement either completes or raises; the state survives both. *)
Inductive outcome : Type :=
| Done (st : state)
| Failed (e : exn) (st : state).

(** One pass of a [while True] body. *)
Inductive step : Type :=
| Continue (st : state)
| Break (st : state)
| Raised (e : exn) (st : state).

Definition emit (evs : list event) (st : state) : state :=
  mkState (world st) (adornedImage_list st) (images_list st)
          (desired_abs_stage_pos st) (var_j st) (correction_attempts st)
          (log st ++ evs).

Definition set_world (w : World M) (st : state) : state :=
  mkState w (adornedImage_list st) (images_list st)
          (desired_abs_stage_pos st) (var_j st) (correction_attempts st)
          (log st).

Definition set_lists (adorned : list AdornedImage)
    (images : list (ndarray Q)) (st : state) : state :=
  mkState (world st) adorned images
          (desired_abs_stage_pos st) (var_j st) (correction_attempts st)
          (log st).

Definition set_desired (p : StagePosition) (st : state) : state :=
  mkState (world st) (adornedImage_list st) (images_list st)
          (Some p) (var_j st) (correction_attempts st) (log st).

Definition set_j (j : nat) (st : state) : state :=
  mkState (world st) (adornedImage_list st) (images_list st)
          (desired_abs_stage_pos st) (Some j) (correction_attempts st)
          (log st).

Definition set_attempts (n : nat) (st : state) : state :=
  mkState (world st) (adornedImage_list st) (images_list st)
          (desired_abs_stage_pos st) (var_j st) n (log st).

(** Lines 143-148 and 223-229: acquire, copy as float64, blank. *)
Definition acquire (st : state) : AdornedImage * ndarray Q * state :=
  let '(haadf_read_only, w) := acquire_stem_image M (world st) in
  let haadf_data := astype_float64 (adorned_data haadf_read_only) in
  let st := emit [EvAcquire] (set_world w st) in
  let st := emit [EvBlank] (set_world (blank M (world st)) st) in
  (haadf_read_only, haadf_data, st).

(** Lines 115-139: the position the tile [(i, j)] is wanted at. *)
Definition desired_position (i j : nat) (st : state)
  : result (nat * StagePosition) :=
  if ((i =? 0) && (j =? 0))%bool then
    Ok (0, original_stage_pos)
  else if j =? 0 then
    previous <- py_last (adornedImage_list st) ;;
    let p := stage_add (stage_position previous)
                       (mkStagePosition 0 DESIRED_RELATIVE_SHIFT) in
    Ok (1, mkStagePosition (x original_stage_pos) (y p))
  else
    previous <- py_last (adornedImage_list st) ;;
    Ok (2, stage_add (stage_position previous)
                     (mkStagePosition DESIRED_RELATIVE_SHIFT 0)).

(** Lines 113-151: the body of [for j in range(NO_COLS_TO_TILE)]. *)
Definition tile_body (i j : nat) (st : state) : outcome :=
  let st := set_j j st in
  match desired_position i j st with
  | Raise e => Failed e st
  | Ok (branch, desired) =>
      let st := set_desired desired st in
      let st := emit [EvPrint (msg_desired_abs_stage_pos branch desired)] st in
      let st := emit [EvAbsoluteMove desired]
                     (set_world (absolute_move M desired (world st)) st) in
      let '(haadf_read_only, haadf_data, st) := acquire st in
      Done (set_lists (adornedImage_list st ++ [haadf_read_only])
                      (images_list st ++ [haadf_data]) st)
  end.

(** The piezo move of lines 198-207 (x) and 210-220 (y). *)
Definition piezo_move (p : StagePosition) (d : direction) (st : state)
  : state :=
  let st := emit [EvPiezoMove p]
                 (set_world (piezo_relative_move M p (world st)) st) in
  emit [EvPrint (msg_translating d)] st.

(** Lines 160-239: one pass of the body of the correction [while True]. *)
Definition correction_step (st : state) : step :=
  match py_second_last (images_list st), py_last (images_list st) with
  | Raise e, _ | _, Raise e => Raised e st
  | Ok full_template_img, Ok current_img =>
      match estimate_seam full_template_img current_img with
      | Raise e => Raised e st
      | Ok peak_index =>
          if within_tolerance peak_index then
            Break (emit [EvPrint msg_no_shift_correction_necessary] st)
          else
            let st := emit [EvPrint msg_correcting_shift] st in
            let relative_overshift_x :=
              (inject_Z (snd peak_index)
               * inject_Z (Z.of_nat BIN_FACTOR) * PIXEL_SIZE)%Q in
            let relative_overshift_y :=
              (inject_Z (fst peak_index)
               * inject_Z (Z.of_nat BIN_FACTOR) * PIXEL_SIZE)%Q in
            let st :=
              emit [EvPrint (msg_relative_overshift relative_overshift_y
                                                    relative_overshift_x)]
                   st in
            match py_last (adornedImage_list st),
                  desired_abs_stage_pos st with
            | Raise e, _ => Raised e st
            | _, None => Raised NameError st
            | Ok current_image, Some desired =>
                let current_image_stage_pos := stage_position current_image in
                let st :=
                  if negb (Qle_bool (x current_image_stage_pos) (x desired))
                  then piezo_move
                         (mkStagePosition (- relative_overshift_x) 0) left st
                  else piezo_move
                         (mkStagePosition relative_overshift_x 0) right st in
                let st :=
                  if negb (Qle_bool (y current_image_stage_pos) (y desired))
                  then piezo_move
                         (mkStagePosition 0 (- relative_overshift_y)) up st
                  else piezo_move
                         (mkStagePosition 0 relative_overshift_y) down st in
                let '(haadf_read_only, haadf_data, st) := acquire st in
                let st :=
                  set_lists (py_set_last (adornedImage_list st) haadf_read_only)
                            (py_set_last (images_list st) haadf_data) st in
                let st := set_attempts (correction_attempts st + 1) st in
                if correction_attempts st =? MAX_CORRECTION_ATTEMPTS then
                  Break (emit [EvPrint msg_no_solution_found] st)
                else Continue st
            end
      end
  end.

(** Lines 158-239: the [while True] loop; [None] when [fuel] passes do not
    reach a [break]. *)
Fixpoint correction_loop (fuel : nat) (st : state) : option outcome :=
  match fuel with
  | 0 => None
  | S fuel' =>
      match correction_step st with
      | Continue st' => correction_loop fuel' st'
      | Break st' => Some (Done st')
      | Raised e st' => Some (Failed e st')
      end
  end.

(** [for k in ks: body(k)], stopping at the first exception. *)
Fixpoint for_each (ks : list nat) (body : nat -> state -> outcome)
    (st : state) : outcome :=
  match ks with
  | [] => Done st
  | k :: ks' =>
      match body k st with
      | Done st' => for_each ks' body st'
      | Failed e st' => Failed e st'
      end
  end.

(** Lines 113-239: the body of [for i in range(NO_ROWS_TO_TILE)]: the
    whole column loop, and after it the block under [if j > 0]. *)
Definition row_body (fuel : nat) (no_cols : nat) (i : nat) (st : state)
  : option outcome :=
  match for_each (seq 0 no_cols) (tile_body i) st with
  | Failed e st' => Some (Failed e st')
  | Done st =>
      match var_j st with
      | None => Some (Failed NameError st)
      | Some j =>
          if 0 <? j then
            let st := set_attempts 0 st in
            let st := emit [EvPrint (msg_image i j)] st in
            correction_loop fuel st
          else Some (Done st)
      end
  end.

(** Lines 111-239: [for i in range(NO_ROWS_TO_TILE)]. *)
Fixpoint for_rows (fuel : nat) (no_cols : nat) (rows : list nat)
    (st : state) : option outcome :=
  match rows with
  | [] => Some (Done st)
  | i :: rows' =>
      match row_body fuel no_cols i st with
      | Some (Done st') => for_rows fuel no_cols rows' st'
      | other => other
      end
  end.

(** The state at line 110. *)
Definition initial_state (w : World M) : state :=
  mkState w [] [] None None 0 [].

(** The tiling loop for a grid of [no_rows] by [no_cols] tiles. *)
Definition tiling_loop (fuel : nat) (no_rows no_cols : nat) (w : World M)
  : option outcome :=
  for_rows fuel no_cols (seq 0 no_rows) (initial_state w).

End Script.

Arguments Done {M} st.
Arguments Failed {M} e st.
Arguments log {M} s.
Arguments world {M} s.
Arguments adornedImage_list {M} s.
Arguments images_list {M} s.
Arguments desired_abs_stage_pos {M} s.
Arguments var_j {M} s.
Arguments correction_attempts {M} s.

(** The seams whose correction sub-loop was entered (line 156), in order. *)
Fixpoint seams_entered (evs : list event) : list (nat * nat) :=
  match evs with
  | [] => []
  | EvPrint (msg_image i j) :: evs' => (i, j) :: seams_entered evs'
  | _ :: evs' => seams_entered evs'
  end.

(** The number of acquisitions in a trace. *)
Fixpoint acquisitions (evs : list event) : nat :=
  match evs with
  | [] => 0
  | EvAcquire :: evs' => S (acquisitions evs')
  | _ :: evs' => acquisitions evs'
  end.

End Tiling.

(* ================================================================== *)
(** * The calibration script of beam_shift_main.py *)
(* ================================================================== *)

Module Calibration.

Import Float Geometry Np Scipy Registration.

(** ** float64 values in Python expressions *)

(** [a + b]. *)
Definition py_float_add (a b : float64) : float64 :=
  match a, b with
  | Fin u, Fin v => Fin (u + v)%R
  | NaN, _ | _, NaN => NaN
  | PInf, NInf | NInf, PInf => NaN
  | PInf, _ | _, PInf => PInf
  | NInf, _ | _, NInf => NInf
  end.

(** [sum(l)]: the items are added from the left, starting from 0. *)
Definition py_sum (l : list float64) : float64 :=
  fold_left py_float_add l (Fin 0%R).

(** [abs(a) < b]; a comparison with [nan] is false. *)
Definition py_abs_lt (a : float64) (b : R) : bool :=
  match a with
  | Fin u => if Rlt_dec (Rabs u) b then true else false
  | _ => false
  end.

(** [Point(x, y)] with float64 components. *)
Definition point_value (p : Point) : float64 * float64 :=
  (Fin (x p), Fin (y p)).

(** ** [preprocess_image], lines 167-177 *)

Section Preprocess.

(** [skimage.filters.gaussian(image, sigma=...)] and
    [skimage.filters.threshold_yen]. *)
Variable gaussian : ndarray Q -> Q -> ndarray Q.
Variable threshold_yen : ndarray Q -> Q.

Definition preprocess_image (image : ndarray Q) : ndarray Z :=
  let blurred_image := gaussian image (1 # 10) in
  let thresh := threshold_yen blurred_image in
  let blurred_image :=
    mk_ndarray (nrows blurred_image) (ncols blurred_image)
      (map (fun v => if Qle_bool thresh v then 1%Z else 0%Z)
           (data blurred_image)) in
  blurred_image.

End Preprocess.

(** ** Constants, lines 252-262 *)

Definition IMAGE_SIZE : Z := 1024.
Definition OVERLAP_FACTOR : Q := 3 # 10.
Definition DESIRED_SHIFT_PX : Z :=
  py_int (inject_Z IMAGE_SIZE * (1 - OVERLAP_FACTOR))%Q.
Definition BIN_FACTOR : Z := 4.

(** Line 287. *)
Definition original_beam_shift : Point := mkPoint 0 0.

(** The bound on the rounds of the main loop (line 305). *)
Definition MAX_ROUNDS : nat := 5.

(** ** The geometry of a round, lines 392-407 *)

Definition vec_add (a b : vec2) : vec2 := (fst a + fst b, snd a + snd b)%R.
Definition vec_sub (a b : vec2) : vec2 := (fst a - fst b, snd a - snd b)%R.

Definition center_im_2_desired_coord : vec2 :=
  (IZR IMAGE_SIZE / IZR BIN_FACTOR / 2,
   IZR IMAGE_SIZE / IZR BIN_FACTOR / 2)%R.

Definition center_im_1_starting_coord : vec2 :=
  vec_sub center_im_2_desired_coord
          (IZR DESIRED_SHIFT_PX / IZR BIN_FACTOR, 0)%R.

Definition template_match_coord
    (vector_from_desired_im2_center_to_template_match_index : Z * Z) : vec2 :=
  vec_add center_im_2_desired_coord
    (IZR (fst vector_from_desired_im2_center_to_template_match_index),
     IZR (snd vector_from_desired_im2_center_to_template_match_index)).

Definition center_im_2_actual_coord
    (vector_from_desired_im2_center_to_template_match_index : Z * Z) : vec2 :=
  vec_add
    (template_match_coord
       vector_from_desired_im2_center_to_template_match_index)
    (IZR (py_int (inject_Z IMAGE_SIZE * (1 - OVERLAP_FACTOR))%Q)
     / IZR BIN_FACTOR / 2, 0)%R.

Definition vector_from_center_im1_starting_coord_to_center_im_2_desired_coord
  : vec2 :=
  vec_sub center_im_2_desired_coord center_im_1_starting_coord.

Definition vector_from_center_im1_starting_coord_to_im_2_actual_coord
    (vector_from_desired_im2_center_to_template_match_index : Z * Z) : vec2 :=
  vec_sub
    (center_im_2_actual_coord
       vector_from_desired_im2_center_to_template_match_index)
    center_im_1_starting_coord.

(** Line 404. *)
Definition actual_desired_vector_magnitude_ratio (v : Z * Z) : float64 :=
  np_true_divide
    (np_linalg_norm
       (vector_from_center_im1_starting_coord_to_im_2_actual_coord v))
    (np_linalg_norm
       vector_from_center_im1_starting_coord_to_center_im_2_desired_coord).

(** Line 407. *)
Definition correction_angle_of (v : Z * Z) : result float64 :=
  calculate_signed_angle_between_vectors
    vector_from_center_im1_starting_coord_to_center_im_2_desired_coord
    (vector_from_center_im1_starting_coord_to_im_2_actual_coord v).

(** ** The instrument *)

(** The calls the script makes on the microscope client, as transitions of
    the instrument's state; reading [stage.is_moving] may find the state
    changed. *)
Record Instrument : Type := mkInstrument {
  World : Type;
  absolute_move : Tiling.StagePosition -> World -> World;
  set_beam_shift : float64 * float64 -> World -> World;
  is_moving : World -> bool * World;
  acquire_stem_image : World -> Tiling.AdornedImage * World;
  blank : World -> World;
  close_column_valves : World -> World
}.

(** What the script prints. *)
Inductive message : Type :=
| msg_stage_has_finished_moving
| msg_acquired_first_haadf
| msg_beam_shifted
| msg_acquired_second_haadf
| msg_performing_cross_correlation
| msg_optimal_angle_correction (total : float64)
| msg_correction_angle (angle : float64)
| msg_magnitude_ratio (ratio : float64)
| msg_encountered_exception
| msg_final_angle (angle : float64).

(** What the script does to the outside world, in order; [EvShow] is a
    figure put on screen. *)
Inductive event : Type :=
| EvAbsoluteMove (p : Tiling.StagePosition)
| EvBeamShift (b : float64 * float64)
| EvAcquire
| EvBlank
| EvCloseValves
| EvShow
| EvPrint (m : message).

Section Script.

Variable M : Instrument.
Variable gaussian : ndarray Q -> Q -> ndarray Q.
Variable threshold_yen : ndarray Q -> Q.

(** Line 286: the stage position when the script starts. *)
Variable original_stage_pos : Tiling.StagePosition.

(** Line 272: [FOV / IMAGE_SIZE]. *)
Variable PIXEL_SIZE : R.

(** The script's variables and its trace. *)
Record state : Type := mkState {
  world : World M;
  adorned_image_list : list Tiling.AdornedImage;
  images_list : list (ndarray Q);
  correction_angle_list : list float64;
  image_to_beam_shift_angle : float64;
  guard_counter : nat;
  log : list event
}.

Inductive outcome : Type :=
| Done (st : state)
| Failed (e : exn) (st : state).

(** One pass of the [while True] body. *)
Inductive step : Type :=
| Continue (st : state)
| Break (st : state)
| Raised (e : exn) (st : state).

(** Lines 315-316: poll until the stage is still; [None] when [fuel] polls
    all find it moving. *)
Fixpoint wait_while_moving (fuel : nat) (w : World M) : option (World M) :=
  match fuel with
  | 0 => None
  | S fuel' =>
      let '(moving, w') := is_moving M w in
      if moving then wait_while_moving fuel' w' else Some w'
  end.

(** Lines 334-336: the beam shift for the shift of [DESIRED_SHIFT_PX]
    pixels along x.  [np.radians], [np.cos] and [np.sin] of [nan] or of an
    infinity are [nan], and [nan] spreads through the matrix product. *)
Definition desired_beam_shift (angle : float64) : float64 * float64 :=
  match angle with
  | Fin a =>
      let translation_vector_xy : vec2 := (IZR DESIRED_SHIFT_PX, 0%R) in
      point_value (image_to_beam_shift translation_vector_xy PIXEL_SIZE a)
  | _ => (NaN, NaN)
  end.

(** Lines 305-423: one pass of the body of the main loop; [None] when the
    wait for the stage does not end. *)
Definition round (wait_fuel : nat) (st : state) : option step :=
  if MAX_ROUNDS <=? guard_counter st then Some (Break st)
  else
    let guard_counter' := guard_counter st + 1 in
    let w := absolute_move M original_stage_pos (world st) in
    let w := set_beam_shift M (point_value original_beam_shift) w in
    match wait_while_moving wait_fuel w with
    | None => None
    | Some w =>
        let '(adorned_image, w) := acquire_stem_image M w in
        let image_data :=
          astype_float64 (Tiling.adorned_data adorned_image) in
        let adorned_image_list' := adorned_image_list st ++ [adorned_image] in
        let images_list' := images_list st ++ [image_data] in
        let beam_shift := desired_beam_shift (image_to_beam_shift_angle st) in
        let w := set_beam_shift M beam_shift w in
        let '(adorned_image, w) := acquire_stem_image M w in
        let image_data :=
          astype_float64 (Tiling.adorned_data adorned_image) in
        let adorned_image_list' := adorned_image_list' ++ [adorned_image] in
        let images_list' := images_list' ++ [image_data] in
        let w := blank M w in
        let acquired :=
          [EvAbsoluteMove original_stage_pos;
           EvBeamShift (point_value original_beam_shift);
           EvPrint msg_stage_has_finished_moving;
           EvAcquire; EvPrint msg_acquired_first_haadf;
           EvBeamShift beam_shift; EvPrint msg_beam_shifted;
           EvAcquire; EvPrint msg_acquired_second_haadf;
           EvBlank] in
        let at_trace (evs : list event) : state :=
          mkState w adorned_image_list' images_list'
                  (correction_angle_list st) (image_to_beam_shift_angle st)
                  guard_counter' (log st ++ acquired ++ evs) in
        match Tiling.py_second_last images_list',
              Tiling.py_last images_list' with
        | Raise e, _ | _, Raise e => Some (Raised e (at_trace []))
        | Ok full_template_img, Ok current_img =>
            match bin_image full_template_img (Z.to_nat BIN_FACTOR) with
            | Raise e => Some (Raised e (at_trace []))
            | Ok full_template_img =>
            match bin_image current_img (Z.to_nat BIN_FACTOR) with
            | Raise e => Some (Raised e (at_trace []))
            | Ok current_img =>
                let full_template_img :=
                  preprocess_image gaussian threshold_yen full_template_img in
                let current_img :=
                  preprocess_image gaussian threshold_yen current_img in
                let template :=
                  generate_template full_template_img OVERLAP_FACTOR in
                match compute_translation_vector current_img template with
                | Raise e =>
                    Some (Raised e
                      (at_trace
                         [EvShow; EvPrint msg_performing_cross_correlation]))
                | Ok vector_from_desired_im2_center_to_template_match_index =>
                    let ratio :=
                      actual_desired_vector_magnitude_ratio
                        vector_from_desired_im2_center_to_template_match_index
                    in
                    match
                      correction_angle_of
                        vector_from_desired_im2_center_to_template_match_index
                    with
                    | Raise e =>
                        Some (Raised e
                          (at_trace
                             [EvShow; EvPrint msg_performing_cross_correlation;
                              EvShow]))
                    | Ok correction_angle =>
                        if py_abs_lt correction_angle (1 / 2) then
                          Some (Break
                            (at_trace
                               [EvShow;
                                EvPrint msg_performing_cross_correlation;
                                EvShow;
                                EvPrint
                                  (msg_optimal_angle_correction
                                     (py_sum (correction_angle_list st)))]))
                        else
                          Some (Continue
                            (mkState w adorned_image_list' images_list'
                               (correction_angle_list st ++ [correction_angle])
                               (py_float_add (image_to_beam_shift_angle st)
                                             correction_angle)
                               guard_counter'
                               (log st ++ acquired
                                ++ [EvShow;
                                    EvPrint msg_performing_cross_correlation;
                                    EvShow;
                                    EvPrint
                                      (msg_correction_angle correction_angle);
                                    EvPrint (msg_magnitude_ratio ratio)])))
                    end
                end
            end
            end
        end
    end.

(** Lines 302-423: the [while True] loop; [None] when [fuel] passes do not
    reach a [break], or a wait for the stage does not end. *)
Fixpoint main_loop (fuel wait_fuel : nat) (st : state) : option outcome :=
  match fuel with
  | 0 => None
  | S fuel' =>
      match round wait_fuel st with
      | None => None
      | Some (Continue st') => main_loop fuel' wait_fuel st'
      | Some (Break st') => Some (Done st')
      | Some (Raised e st') => Some (Failed e st')
      end
  end.

(** Lines 426-429: the handler of [except Exception]. *)
Definition handler (st : state) : state :=
  mkState (close_column_valves M (world st))
          (adorned_image_list st) (images_list st)
          (correction_angle_list st) (image_to_beam_shift_angle st)
          (guard_counter st)
          (log st ++ [EvCloseValves; EvPrint msg_encountered_exception]).

(** Lines 431-436: the [finally] block. *)
Definition finally (st : state) : state :=
  mkState (set_beam_shift M (point_value (mkPoint 0 0)) (world st))
          (adorned_image_list st) (images_list st)
          (correction_angle_list st) (image_to_beam_shift_angle st)
          (guard_counter st)
          (log st
           ++ [EvBeamShift (point_value (mkPoint 0 0));
               EvPrint (msg_final_angle (image_to_beam_shift_angle st))]).

(** Lines 290-298: the variables when the [try] is entered. *)
Definition initial_state (w : World M) : state :=
  let image_to_beam_shift_angle := Fin (-44.7)%R in
  mkState w [] [] [image_to_beam_shift_angle] image_to_beam_shift_angle 0 [].

(** Lines 300-436: the [try] statement, from the state at line 298 to the
    state after [finally]. *)
Definition calibrate (fuel wait_fuel : nat) (w : World M) : option state :=
  match main_loop fuel wait_fuel (initial_state w) with
  | None => None
  | Some (Done st) => Some (finally st)
  | Some (Failed e st) => Some (finally (handler st))
  end.

End Script.

Arguments Done {M} st.
Arguments Failed {M} e st.
Arguments Continue {M} st.
Arguments Break {M} st.
Arguments Raised {M} e st.
Arguments world {M} s.
Arguments adorned_image_list {M} s.
Arguments images_list {M} s.
Arguments correction_angle_list {M} s.
Arguments image_to_beam_shift_angle {M} s.
Arguments guard_counter {M} s.
Arguments log {M} s.

(** The number of acquisitions in a trace. *)
Fixpoint acquisitions (evs : list event) : nat :=
  match evs with
  | [] => 0
  | EvAcquire :: evs' => S (acquisitions evs')
  | _ :: evs' => acquisitions evs'
  end.

End Calibration.

(* ================================================================== *)
(** * Vocabulary of the statements *)
(* ================================================================== *)

Section GeometryVocabulary.

Import Float Geometry.
Local Open Scope R_scope.

(** The clamped cosine the angle is taken from. *)
Definition clamped_cosine (vec1 vec2 : vec2) : R :=
  Rmin (Rmax (np_dot vec1 vec2
              / (np_linalg_norm vec1 * np_linalg_norm vec2)) (-1)) 1.

(** The claim C6 as the specification words it: a zero-magnitude operand
    makes the call raise. *)
Definition raises_on_zero_magnitude (vec1 vec2 : vec2) : Prop :=
  np_linalg_norm vec1 = 0 \/ np_linalg_norm vec2 = 0 ->
  exists e : exn, calculate_signed_angle_between_vectors vec1 vec2 = Raise e.

End GeometryVocabulary.

Section Binary64Vocabulary.

Import Float Binary64.
Local Open Scope R_scope.

(** The claim C10 as it is worded: for nonzero vectors the angle is a
    number between -180 and 180. *)
Definition angle_in_range_when_nonzero (rnd : R -> float64)
    (acos_f : R -> R) (vec1 vec2 : vec2) : Prop :=
  vec1 <> (Fin 0, Fin 0) -> vec2 <> (Fin 0, Fin 0) ->
  exists a : R,
    calculate_signed_angle_between_vectors rnd acos_f vec1 vec2
    = Ok (Fin a)
    /\ -180 <= a <= 180.

(** The claim C8 as it is worded: at angle 0 the result is
    [(s * x, - (s * y))], the products as the pixel-size scaling computes
    them. *)
Definition scales_and_flips (rnd : R -> float64) (cos_f sin_f : R -> R)
    (v : vec2) (s : float64) : Prop :=
  image_to_beam_shift rnd cos_f sin_f v s (Fin 0)
  = mkPoint (fmul rnd (fst v) s) (np_negative (fmul rnd (snd v) s)).

(** The round trip returns a vector of numbers, each within [tol] times
    the size of the original vector of the original component. *)
Definition round_trip_within (rnd : R -> float64) (cos_f sin_f : R -> R)
    (tol vx vy s a : R) : Prop :=
  exists px py : R,
    beam_to_image_shift rnd cos_f sin_f
      (image_to_beam_shift rnd cos_f sin_f (Fin vx, Fin vy) (Fin s) (Fin a))
      (Fin s) (Fin a)
    = (Fin px, Fin py)
    /\ Rabs (px - vx) <= tol * (Rabs vx + Rabs vy)
    /\ Rabs (py - vy) <= tol * (Rabs vx + Rabs vy).

(** A vector of moderate size: no component beyond 1e150 in magnitude,
    and one of at least 1e-150. *)
Definition moderate_vector (x y : R) : Prop :=
  Rabs x <= 10 ^ 150 /\ Rabs y <= 10 ^ 150
  /\ (/ 10 ^ 150 <= Rabs x \/ / 10 ^ 150 <= Rabs y).

End Binary64Vocabulary.

Section BinningVocabulary.

Import Np Registration.

(** The mean of the [f]-by-[f] block of [frame] whose top-left sample is
    [(a * f, c * f)]. *)
Definition block_mean (frame : ndarray Q) (f a c : nat) : Q :=
  (sum_range f (fun b =>
     sum_range f (fun d => item frame (a * f + b) (c * f + d)))
   / inject_Z (Z.of_nat (f * f)))%Q.

End BinningVocabulary.

Section RoundedBinningVocabulary.

Import Float Binary64 Np Binary64Arrays.
Local Open Scope R_scope.

Variable rnd : R -> float64.

Local Abbreviation item := (@item float64 (float64_dtype rnd)).

(** The number a float64 stands for (0 for the special values). *)
Definition value (a : float64) : R :=
  match a with
  | Fin x => x
  | _ => 0
  end.

(** Every sample of the frame is a number of magnitude at most [M]. *)
Definition samples_within (frame : ndarray float64) (M : R) : Prop :=
  forall r c, (r < nrows frame)%nat -> (c < ncols frame)%nat ->
    exists x : R, item frame r c = Fin x /\ Rabs x <= M.

(** The positions of an [f]-by-[f] block. *)
Definition block (f : nat) : list (nat * nat) :=
  list_prod (seq 0 f) (seq 0 f).

(** The sum of a list of real numbers. *)
Definition Rsum (l : list R) : R := fold_right Rplus 0 l.

(** The mean, a real number, of the [f]-by-[f] block of [frame] whose
    top-left sample is [(a * f, c * f)]. *)
Definition mean_of_block (frame : ndarray float64) (f a c : nat) : R :=
  Rsum (map (fun bd =>
               value (item frame (a * f + fst bd) (c * f + snd bd)))
          (block f))
  / INR (f * f).

(** The order adds every sample of every block once. *)
Definition adds_each_sample_once (f : nat)
    (order : nat -> nat -> summation) : Prop :=
  forall i k, Permutation (terms (order i k)) (block f).

(** The rounding error allowed on a mean of [f * f] samples of magnitude
    at most [M]: [f * f] units in the last place of [M], and four half
    subnormals. *)
Definition mean_tolerance (f : nat) (M : R) : R :=
  INR (f * f) * / 2 ^ 52 * M + 4 * HALF_SUBNORMAL.

(** The largest magnitude a sum computed in the order [s] can have, for
    samples of magnitude at most [M]. *)
Definition budget (M : R) (s : summation) : R :=
  (1 + UNIT_ROUNDOFF) ^ additions s
  * (INR (length (terms s)) * M + INR (additions s) * HALF_SUBNORMAL).

(** The claim C3 as it is worded, for a square frame of side [N] and a
    bin factor [f] that divides [N]: a frame of side [N / f] of block
    means is returned. *)
Definition bins_every_divisible_frame (order : nat -> nat -> summation)
    (N f : nat) (frame : ndarray float64) (M : R) : Prop :=
  nrows frame = N -> ncols frame = N -> samples_within frame M ->
  (1 <= f)%nat -> Nat.divide f N ->
  exists out : ndarray float64,
    bin_image rnd order frame f = Ok out
    /\ nrows out = (N / f)%nat /\ ncols out = (N / f)%nat
    /\ forall a c, (a < N / f)%nat -> (c < N / f)%nat ->
         exists r : R,
           item out a c = Fin r
           /\ Rabs (r - mean_of_block frame f a c) <= mean_tolerance f M.

(** The four samples of a 2-by-2 block added in pairs. *)
Definition pairwise_2_by_2 (i k : nat) : summation :=
  Plus (Plus (Term 0 0) (Term 0 1)) (Plus (Term 1 0) (Term 1 1)).

End RoundedBinningVocabulary.

Section TileLoopVocabulary.

Import Np Tiling.

(** The frame the script stores for an acquired image. *)
Definition frame_of (image : AdornedImage) : ndarray Q :=
  astype_float64 (adorned_data image).

(** The seam estimate of [current] against [previous] exists and fails the
    acceptance test. *)
Definition out_of_tolerance (previous current : ndarray Q) : Prop :=
  exists peak_index : Z * Z,
    estimate_seam previous current = Ok peak_index
    /\ within_tolerance peak_index = false.

Variable M : Microscope.

(** Whatever state the instrument is in, the frame it acquires is out of
    tolerance against [previous]. *)
Definition never_converges (previous : ndarray Q) : Prop :=
  forall w : World M,
    out_of_tolerance previous (frame_of (fst (acquire_stem_image M w))).

(** The state in which an outcome leaves the script. *)
Definition final_state (out : outcome M) : state M :=
  match out with
  | Done st => st
  | Failed _ st => st
  end.

(** The state a pass of the loop body ends in. *)
Definition step_state (s : step M) : state M :=
  match s with
  | Continue _ st => st
  | Break _ st => st
  | Raised _ _ st => st
  end.

(** The state after a correction that re-acquired from the instrument
    state [w]. *)
Definition corrected (st : state M) (w : World M)
    (adorned : list AdornedImage) (images : list (ndarray Q))
    (previous : ndarray Q) (evs : list event) : state M :=
  mkState M (blank M (snd (acquire_stem_image M w)))
    (adorned ++ [fst (acquire_stem_image M w)])
    (images ++ [previous; frame_of (fst (acquire_stem_image M w))])
    (desired_abs_stage_pos st) (var_j st)
    (correction_attempts st + 1) (log st ++ evs).

End TileLoopVocabulary.

Arguments final_state {M} out.
Arguments step_state {M} s.
Arguments corrected {M} st w adorned images previous evs.

Section StuckStageVocabulary.

Import Np Scipy Registration Tiling.

(** A 1024 x 1024 frame that is bright on its last four columns. *)
Definition stuck_raw_frame : ndarray Z :=
  fromfunction 1024 1024 (fun _ c => if 1020 <=? c then 1%Z else 0%Z).

Definition stuck_image : AdornedImage :=
  mkAdornedImage stuck_raw_frame (mkStagePosition 0 0).

(** The stage ignores every move: each acquisition is the same image. *)
Definition stuck_microscope : Microscope :=
  mkMicroscope unit (fun w => (stuck_image, w))
    (fun _ w => w) (fun _ w => w) (fun w => w).

(** Two tiles acquired, the sub-loop about to start. *)
Definition stuck_state : state stuck_microscope :=
  mkState stuck_microscope tt
    [stuck_image; stuck_image]
    [frame_of stuck_image; frame_of stuck_image]
    (Some (mkStagePosition 0 0)) (Some 1) 0 [].

(** A binned frame that is 1 on its last column and 0 elsewhere. *)
Definition last_column_bright (B : ndarray Q) : Prop :=
  nrows B = 256 /\ ncols B = 256
  /\ forall a c, a < 256 -> c < 256 ->
       (item B a c == if c =? 255 then 1 else 0)%Q.

(** The template [generate_template] cuts from such a frame: its last 77
    columns. *)
Definition bright_template (B : ndarray Q) : ndarray Q :=
  fromfunction 256 77 (fun r c => item B r (179 + c)).

(** The valid correlation of such a frame with its own template at the
    column offset [m]. *)
Definition bright_score (B : ndarray Q) (m : nat) : Q :=
  sum_range 256 (fun u =>
    sum_range 77 (fun v =>
      d_mul (item B (0 + u) (m + v)) (item (bright_template B) u v))).

End StuckStageVocabulary.

Section CorrelationVocabulary.

Import Np Scipy Registration.
Local Open Scope Z_scope.

(** The sum of [f] over the integers [lo], ..., [lo + n - 1]. *)
Definition zsum (lo : Z) (n : nat) (f : Z -> Z) : Z :=
  sum_range n (fun k => f (lo + Z.of_nat k)).

(** The sum of [F] over a box of integer points. *)
Definition zsum2 (lo1 : Z) (n1 : nat) (lo2 : Z) (n2 : nat)
    (F : Z -> Z -> Z) : Z :=
  zsum lo1 n1 (fun p => zsum lo2 n2 (F p)).

(** The correlation of a pattern [T] of [h] by [w] samples, extended by
    zero over the plane, with itself shifted by [(a, b)]. *)
Definition autocorrelation (T : Z -> Z -> Z) (h w : nat) (a b : Z) : Z :=
  zsum2 0 h 0 w (fun p q => T (p + a) (q + b) * T p q).

(** The sum of the squared samples: the autocorrelation at lag zero. *)
Definition energy (T : Z -> Z -> Z) (h w : nat) : Z :=
  zsum2 0 h 0 w (fun p q => T p q * T p q).

Local Close Scope Z_scope.

(** The canvas of [H] by [W] zeros with [template] pasted so that its
    top-left sample is at [(r0, c0)]. *)
Definition embed (H W : nat) (template : ndarray Z) (r0 c0 : nat)
  : ndarray Z :=
  fromfunction H W (fun r c =>
    if ((r0 <=? r) && (r <? r0 + nrows template)
        && (c0 <=? c) && (c <? c0 + ncols template))%bool
    then item template (r - r0) (c - c0)
    else 0%Z).

(** The first index a template of [template_size] samples occupies along
    an axis of [size] samples when it is centred on it; when
    [size - template_size] is odd, the spare sample is left before the
    template. *)
Definition centered_corner (size template_size : nat) : Z :=
  ((Z.of_nat size - Z.of_nat template_size + 1) / 2)%Z.

(** The template displaced by [d] from the centred placement stays on the
    axis. *)
Definition offset_fits (size template_size : nat) (d : Z) : Prop :=
  (0 <= centered_corner size template_size + d
   <= Z.of_nat size - Z.of_nat template_size)%Z.

(** The search image with the template at the offset [(dy, dx)] from the
    centred placement. *)
Definition embed_at_offset (H W : nat) (template : ndarray Z) (dy dx : Z)
  : ndarray Z :=
  embed H W template
    (Z.to_nat (centered_corner H (nrows template) + dy))
    (Z.to_nat (centered_corner W (ncols template) + dx)).

End CorrelationVocabulary.

Section PlacementVocabulary.

Import Np Scipy Registration.

Context {A : Type} `{Dtype A}.

(** The canvas of [H] by [W] zeros with [template] pasted so that its
    top-left sample is at [(r0, c0)], for any sample type. *)
Definition paste (H W : nat) (template : ndarray A) (r0 c0 : nat)
  : ndarray A :=
  fromfunction H W (fun r c =>
    if ((r0 <=? r) && (r <? r0 + nrows template)
        && (c0 <=? c) && (c <? c0 + ncols template))%bool
    then item template (r - r0) (c - c0)
    else d_zero).

(** The search image with the template at the offset [(dy, dx)] from the
    centred placement. *)
Definition paste_at_offset (H W : nat) (template : ndarray A) (dy dx : Z)
  : ndarray A :=
  paste H W template
    (Z.to_nat (centered_corner H (nrows template) + dy))
    (Z.to_nat (centered_corner W (ncols template) + dx)).

(** The claim C2 as it is worded: every template, at every offset that
    keeps it inside the search image, is found at exactly that offset. *)
Definition recovers_every_offset (H W : nat) (template : ndarray A)
    (dy dx : Z) : Prop :=
  1 <= nrows template <= H -> 1 <= ncols template <= W ->
  offset_fits H (nrows template) dy ->
  offset_fits W (ncols template) dx ->
  compute_translation_vector (paste_at_offset H W template dy dx) template
  = Ok (dx, dy).

End PlacementVocabulary.

Section SampleGridVocabulary.

Import Float Binary64 Np Binary64Arrays.
Local Open Scope R_scope.

(** The array with [g] applied to every sample. *)
Definition map_samples {A B : Type} (g : A -> B) (a : ndarray A)
  : ndarray B :=
  mk_ndarray (nrows a) (ncols a) (map g (data a)).

(** The float64 array whose samples are the integers of [a] times [q]. *)
Definition scaled (q : R) (a : ndarray Z) : ndarray float64 :=
  map_samples (fun z => Fin (IZR z * q)) a.

(** A power of two between 2^-485 and 2^485: the step of a grid whose
    squares are still weights of a last bit. *)
Definition grid_step (q : R) : Prop :=
  exists k : nat, (k <= 485)%nat /\ (q = 2 ^ k \/ q = / 2 ^ k).

End SampleGridVocabulary.

Section ExactnessVocabulary.

Import Np Scipy.
Local Open Scope Z_scope.

(** The sum of the magnitudes of the products that make the sample
    [(i, j)] of the full correlation of [in1] with [in2]: no partial sum
    exceeds it. *)
Definition correlation_mass (in1 in2 : ndarray Z) (i j : nat) : Z :=
  let h := nrows in2 in
  let w := ncols in2 in
  sum_range h (fun u =>
    sum_range w (fun v =>
      Z.abs
        (padded in1 (Z.of_nat i + Z.of_nat u - (Z.of_nat h - 1))
                    (Z.of_nat j + Z.of_nat v - (Z.of_nat w - 1))
         * item in2 u v))).

End ExactnessVocabulary.

Section SumOfSquaresVocabulary.

Import Np Scipy.

(** The sum of the squared samples of an integer template. *)
Definition sum_of_squares (template : ndarray Z) : Z :=
  energy (padded template) (nrows template) (ncols template).

End SumOfSquaresVocabulary.

Section GridVocabulary.

Import Np Tiling.

(** The piezo moves of a trace, in order. *)
Fixpoint piezo_moves (evs : list event) : list StagePosition :=
  match evs with
  | [] => []
  | EvPiezoMove p :: evs' => p :: piezo_moves evs'
  | _ :: evs' => piezo_moves evs'
  end.

(** A move that leaves the vertical axis alone. *)
Definition horizontal (p : StagePosition) : Prop := (y p == 0)%Q.

(** A frame [bin_image] accepts: 1024 * 1024 samples. *)
Definition good_frame (frame : ndarray Q) : Prop :=
  nrows frame * ncols frame = 1024 * 1024.

(** An instrument whose every acquisition is such a frame. *)
Definition reliable (M : Microscope) : Prop :=
  forall w : World M, good_frame (frame_of (fst (acquire_stem_image M w))).

End GridVocabulary.

Section CalibrationVocabulary.

Import Float Geometry Np Calibration.

(** Within [fuel] polls the stage is found still, whatever state the
    instrument is in. *)
Definition stage_settles (M : Instrument) (fuel : nat) : Prop :=
  forall w : World M, wait_while_moving M fuel w <> None.

(** The state a pass of the main loop ends in. *)
Definition round_state {M : Instrument} (s : step M) : state M :=
  match s with
  | Continue st => st
  | Break st => st
  | Raised _ st => st
  end.

(** The state in which the main loop leaves the script. *)
Definition loop_state {M : Instrument} (out : outcome M) : state M :=
  match out with
  | Done st => st
  | Failed _ st => st
  end.

(** The angle is finite and is the sum of the list of corrections; each
    round counted made at most two acquisitions. *)
Definition bookkept {M : Instrument} (st : state M) : Prop :=
  image_to_beam_shift_angle st = py_sum (correction_angle_list st)
  /\ (exists a : R, image_to_beam_shift_angle st = Fin a)
  /\ acquisitions (log st) <= 2 * guard_counter st
  /\ guard_counter st <= MAX_ROUNDS.

(** An instrument whose stage is never found moving and whose frames are
    all the same. *)
Definition still_instrument : Instrument :=
  mkInstrument unit (fun _ w => w) (fun _ w => w) (fun w => (false, w))
    (fun w => (stuck_image, w)) (fun w => w) (fun w => w).

(** An instrument whose stage is found moving at every poll. *)
Definition restless_instrument : Instrument :=
  mkInstrument unit (fun _ w => w) (fun _ w => w) (fun w => (true, w))
    (fun w => (stuck_image, w)) (fun w => w) (fun w => w).

(** Stand-ins for the two filters: no blur, a fixed threshold. *)
Definition no_blur (image : ndarray Q) (sigma : Q) : ndarray Q := image.
Definition fixed_threshold (image : ndarray Q) : Q := 1 # 2.

End CalibrationVocabulary.

(* ================================================================== *)
(** * Properties of the plane geometry *)
(* ================================================================== *)

Section GeometryFacts.

Import Float Geometry.
Local Open Scope R_scope.

Lemma np_true_divide_nonzero (a b : R) :
  b <> 0 -> np_true_divide a b = Fin (a / b).
Proof.
  intros Hb. unfold np_true_divide.
  destruct (Req_dec_T b 0) as [E | _]; [contradiction | reflexivity].
Qed.

Lemma np_true_divide_zero_zero : np_true_divide 0 0 = NaN.
Proof.
  unfold np_true_divide.
  destruct (Req_dec_T 0 0) as [_ | N]; [reflexivity | now elim N].
Qed.

Lemma np_dot_self_nonneg (v : vec2) : 0 <= np_dot v v.
Proof. unfold np_dot. nra. Qed.

Lemma norm_nonneg (v : vec2) : 0 <= np_linalg_norm v.
Proof. apply sqrt_pos. Qed.

Lemma norm_zero_iff (v : vec2) : np_linalg_norm v = 0 <-> v = (0, 0).
Proof.
  unfold np_linalg_norm. split.
  - intros H. apply sqrt_eq_0 in H; [| apply np_dot_self_nonneg].
    destruct v as [a b]. unfold np_dot in H. simpl in H.
    assert (a = 0) by nra. assert (b = 0) by nra. now subst.
  - intros ->. unfold np_dot. simpl.
    replace (0 * 0 + 0 * 0) with 0 by ring. apply sqrt_0.
Qed.

Lemma norm_square (v : vec2) :
  np_linalg_norm v * np_linalg_norm v = np_dot v v.
Proof. apply sqrt_sqrt, np_dot_self_nonneg. Qed.

(** Cauchy-Schwarz in the plane, in the form the clamp relies on. *)
Lemma dot_le_norms (a b : vec2) :
  Rabs (np_dot a b) <= np_linalg_norm a * np_linalg_norm b.
Proof.
  assert (Ha := norm_nonneg a). assert (Hb := norm_nonneg b).
  assert (Hsq : np_dot a b * np_dot a b
                <= (np_linalg_norm a * np_linalg_norm b)
                   * (np_linalg_norm a * np_linalg_norm b)).
  { replace ((np_linalg_norm a * np_linalg_norm b)
             * (np_linalg_norm a * np_linalg_norm b))
      with ((np_linalg_norm a * np_linalg_norm a)
            * (np_linalg_norm b * np_linalg_norm b)) by ring.
    rewrite !norm_square. destruct a as [a1 a2], b as [b1 b2].
    unfold np_dot. simpl.
    replace ((a1 * a1 + a2 * a2) * (b1 * b1 + b2 * b2))
      with ((a1 * b1 + a2 * b2) * (a1 * b1 + a2 * b2)
            + (a1 * b2 - a2 * b1) * (a1 * b2 - a2 * b1)) by ring.
    assert (0 <= (a1 * b2 - a2 * b1) * (a1 * b2 - a2 * b1))
      by apply Rle_0_sqr.
    lra. }
  set (d := np_dot a b) in *. set (m := np_linalg_norm a * np_linalg_norm b) in *.
  assert (Hm : 0 <= m) by (unfold m; nra).
  apply Rabs_le. split; nra.
Qed.

End GeometryFacts.

Section SignedAngle.

Import Float Geometry.
Local Open Scope R_scope.

Lemma clamped_cosine_range (vec1 vec2 : vec2) :
  -1 <= clamped_cosine vec1 vec2 <= 1.
Proof.
  unfold clamped_cosine.
  set (q := np_dot vec1 vec2 / (np_linalg_norm vec1 * np_linalg_norm vec2)).
  unfold Rmin, Rmax.
  destruct (Rle_dec q (-1)); destruct (Rle_dec _ 1); lra.
Qed.

(** For two nonzero vectors every intermediate value is finite. *)
Lemma signed_angle_of_nonzero (vec1 vec2 : vec2) :
  vec1 <> (0, 0) -> vec2 <> (0, 0) ->
  calculate_signed_angle_between_vectors vec1 vec2 =
  Ok (Fin ((if Rlt_dec (np_cross vec1 vec2) 0
            then - acos (clamped_cosine vec1 vec2)
            else acos (clamped_cosine vec1 vec2)) * 180 / PI)).
Proof.
  intros H1 H2.
  assert (N1 : np_linalg_norm vec1 <> 0)
    by (intros E; apply norm_zero_iff in E; contradiction).
  assert (N2 : np_linalg_norm vec2 <> 0)
    by (intros E; apply norm_zero_iff in E; contradiction).
  unfold calculate_signed_angle_between_vectors.
  rewrite np_true_divide_nonzero by (apply Rmult_integral_contrapositive; auto).
  cbn [np_clip]. fold (clamped_cosine vec1 vec2).
  destruct (clamped_cosine_range vec1 vec2) as [Hlo Hhi].
  unfold np_arccos.
  destruct (Rle_dec (-1) (clamped_cosine vec1 vec2)) as [_ | N];
    [| contradiction].
  destruct (Rle_dec (clamped_cosine vec1 vec2) 1) as [_ | N];
    [| contradiction].
  destruct (Rlt_dec (np_cross vec1 vec2) 0); reflexivity.
Qed.

Lemma unit_x_nonzero : ((1, 0) : vec2) <> (0, 0).
Proof. intros E. apply (f_equal fst) in E. simpl in E. lra. Qed.

Lemma unit_y_nonzero : ((0, 1) : vec2) <> (0, 0).
Proof. intros E. apply (f_equal snd) in E. simpl in E. lra. Qed.

Lemma minus_unit_y_nonzero : ((0, -1) : vec2) <> (0, 0).
Proof. intros E. apply (f_equal snd) in E. simpl in E. lra. Qed.

Lemma quarter_turn_in_degrees : PI / 2 * 180 / PI = 90.
Proof. assert (H := PI_neq0). field. exact H. Qed.

Lemma clamped_cosine_of_orthogonal (vec1 vec2 : vec2) :
  np_dot vec1 vec2 = 0 -> clamped_cosine vec1 vec2 = 0.
Proof.
  intros E. unfold clamped_cosine. rewrite E.
  unfold Rdiv. rewrite Rmult_0_l.
  unfold Rmin, Rmax.
  destruct (Rle_dec 0 (-1)); [lra |].
  destruct (Rle_dec 0 1); lra.
Qed.

(** C7.  The signed angle from (1,0) to (0,1) is +90 degrees and the signed
    angle from (1,0) to (0,-1) is -90 degrees: the magnitude is the clamped
    arccosine of the normalised dot product and the sign is that of the 2-D
    cross product, counter-clockwise positive. *)
Theorem signed_angle_sign_convention :
  calculate_signed_angle_between_vectors (1, 0) (0, 1) = Ok (Fin 90)
  /\ calculate_signed_angle_between_vectors (1, 0) (0, -1) = Ok (Fin (-90)).
Proof.
  split.
  - rewrite signed_angle_of_nonzero
      by (apply unit_x_nonzero || apply unit_y_nonzero).
    rewrite clamped_cosine_of_orthogonal by (unfold np_dot; simpl; ring).
    rewrite acos_0.
    destruct (Rlt_dec (np_cross (1, 0) (0, 1)) 0) as [L | _].
    + unfold np_cross in L. simpl in L. lra.
    + now rewrite quarter_turn_in_degrees.
  - rewrite signed_angle_of_nonzero
      by (apply unit_x_nonzero || apply minus_unit_y_nonzero).
    rewrite clamped_cosine_of_orthogonal by (unfold np_dot; simpl; ring).
    rewrite acos_0.
    destruct (Rlt_dec (np_cross (1, 0) (0, -1)) 0) as [_ | N].
    + do 2 f_equal.
      replace (- (PI / 2) * 180 / PI) with (- (PI / 2 * 180 / PI))
        by (unfold Rdiv; ring).
      now rewrite quarter_turn_in_degrees.
    + exfalso. apply N. unfold np_cross. simpl. lra.
Qed.

Lemma norm_of_zero_vector : np_linalg_norm (0, 0) = 0.
Proof. now apply norm_zero_iff. Qed.




End SignedAngle.

(* ================================================================== *)
(** * Properties of the binary64 arithmetic *)
(* ================================================================== *)

Section FormatFacts.

Import Float Binary64.
Local Open Scope R_scope.

Lemma pow2_pos (n : nat) : 0 < 2 ^ n.
Proof. apply pow_lt. lra. Qed.

Lemma pow2_ge_1 (n : nat) : 1 <= 2 ^ n.
Proof. apply pow_R1_Rle. lra. Qed.

Lemma pow2_lt (n m : nat) : (n < m)%nat -> 2 ^ n < 2 ^ m.
Proof. intros L. apply Rlt_pow; [lra | exact L]. Qed.

Lemma pow2_le (n m : nat) : (n <= m)%nat -> 2 ^ n <= 2 ^ m.
Proof. intros L. apply Rle_pow; [lra | exact L]. Qed.

Lemma pow2_add (n m : nat) : 2 ^ (n + m) = 2 ^ n * 2 ^ m.
Proof. apply pow_add. Qed.

Lemma UNIT_ROUNDOFF_pos : 0 < UNIT_ROUNDOFF.
Proof. unfold UNIT_ROUNDOFF. apply Rinv_0_lt_compat, pow2_pos. Qed.

Lemma HALF_SUBNORMAL_pos : 0 < HALF_SUBNORMAL.
Proof. unfold HALF_SUBNORMAL. apply Rinv_0_lt_compat, pow2_pos. Qed.

Lemma inv_pow2_le_1 (n : nat) : / 2 ^ n <= 1.
Proof.
  rewrite <- Rinv_1. apply Rinv_le_contravar; [lra | apply pow2_ge_1].
Qed.

Lemma MAX_FINITE_lt_OVERFLOW : MAX_FINITE < OVERFLOW.
Proof. unfold MAX_FINITE, OVERFLOW. assert (P := pow2_pos 971). lra. Qed.

Lemma MAX_FINITE_large : 2 ^ 1023 <= MAX_FINITE.
Proof.
  unfold MAX_FINITE.
  assert (E : 2 ^ 1024 = 2 * 2 ^ 1023) by (change 1024%nat with (S 1023); reflexivity).
  assert (L := pow2_lt 971 1023 ltac:(lia)). lra.
Qed.

Lemma MAX_FINITE_ge_1 : 1 <= MAX_FINITE.
Proof.
  apply Rle_trans with (2 ^ 1023); [apply pow2_ge_1 | apply MAX_FINITE_large].
Qed.

Lemma range_only_in_range (u : R) :
  HALF_SUBNORMAL <= Rabs u -> Rabs u <= MAX_FINITE -> range_only u = Fin u.
Proof.
  intros Hlo Hhi. unfold range_only.
  assert (M := MAX_FINITE_lt_OVERFLOW).
  destruct (Rle_dec OVERFLOW u) as [C | _];
    [assert (u <= Rabs u) by apply Rle_abs; lra |].
  destruct (Rle_dec u (- OVERFLOW)) as [C | _];
    [assert (- u <= Rabs u) by (rewrite <- Rabs_Ropp; apply Rle_abs); lra |].
  destruct (Rlt_dec (Rabs u) HALF_SUBNORMAL) as [C | _]; [lra |].
  destruct (Rle_dec (Rabs u) MAX_FINITE) as [_ | C]; [reflexivity | lra].
Qed.

Lemma range_only_zero : range_only 0 = Fin 0.
Proof.
  unfold range_only.
  assert (O : 0 < OVERFLOW) by (unfold OVERFLOW; apply pow2_pos).
  assert (H := HALF_SUBNORMAL_pos).
  destruct (Rle_dec OVERFLOW 0); [lra |].
  destruct (Rle_dec 0 (- OVERFLOW)); [lra |].
  rewrite Rabs_R0.
  destruct (Rlt_dec 0 HALF_SUBNORMAL); [reflexivity | lra].
Qed.

Lemma range_only_cases (u : R) :
  (OVERFLOW <= u /\ range_only u = PInf)
  \/ (u <= - OVERFLOW /\ range_only u = NInf)
  \/ (Rabs u < HALF_SUBNORMAL /\ range_only u = Fin 0)
  \/ (HALF_SUBNORMAL <= Rabs u <= MAX_FINITE /\ range_only u = Fin u)
  \/ (MAX_FINITE < u < OVERFLOW /\ range_only u = Fin MAX_FINITE)
  \/ (- OVERFLOW < u < - MAX_FINITE /\ range_only u = Fin (- MAX_FINITE)).
Proof.
  unfold range_only.
  assert (M := MAX_FINITE_lt_OVERFLOW). assert (M1 := MAX_FINITE_ge_1).
  assert (H := HALF_SUBNORMAL_pos).
  destruct (Rle_dec OVERFLOW u); [now left |].
  destruct (Rle_dec u (- OVERFLOW)); [now right; left |].
  destruct (Rlt_dec (Rabs u) HALF_SUBNORMAL); [now right; right; left |].
  destruct (Rle_dec (Rabs u) MAX_FINITE);
    [right; right; right; left; split; [lra | reflexivity] |].
  destruct (Rlt_dec 0 u).
  - right; right; right; right; left.
    rewrite Rabs_pos_eq in * by lra. split; [lra | reflexivity].
  - right; right; right; right; right.
    rewrite Rabs_left1 in * by lra. split; [lra | reflexivity].
Qed.

Lemma HALF_SUBNORMAL_lt_1 : HALF_SUBNORMAL < 1.
Proof.
  unfold HALF_SUBNORMAL. rewrite <- Rinv_1.
  apply Rinv_lt_contravar; [| apply (Rlt_le_trans _ (2 ^ 1))];
    [assert (P := pow2_pos 1075); lra | simpl; lra | apply pow2_le; lia].
Qed.

(** [range_only] has the properties that are used of the rounding. *)
Lemma range_only_rounding : Rounding range_only.
Proof.
  assert (M := MAX_FINITE_lt_OVERFLOW). assert (M1 := MAX_FINITE_ge_1).
  assert (H := HALF_SUBNORMAL_pos). assert (H1 := HALF_SUBNORMAL_lt_1).
  assert (U := UNIT_ROUNDOFF_pos).
  split.
  - intros u Hu.
    destruct (Rlt_dec (Rabs u) HALF_SUBNORMAL) as [Small | Big].
    + exists 0. split; [| split].
      * destruct (range_only_cases u)
          as [[C _] | [[C _] | [[_ E] | [[C _] | [[C _] | [C _]]]]]];
          try exact E;
          assert (A1 := Rle_abs u);
          assert (A2 : - u <= Rabs u) by (rewrite <- Rabs_Ropp; apply Rle_abs);
          lra.
      * rewrite Rabs_R0. lra.
      * replace (0 - u) with (- u) by ring. rewrite Rabs_Ropp.
        assert (0 <= UNIT_ROUNDOFF * Rabs u)
          by (apply Rmult_le_pos; [lra | apply Rabs_pos]).
        lra.
    + exists u. split; [| split].
      * apply range_only_in_range; lra.
      * exact Hu.
      * replace (u - u) with 0 by ring. rewrite Rabs_R0.
        assert (0 <= UNIT_ROUNDOFF * Rabs u)
          by (apply Rmult_le_pos; [lra | apply Rabs_pos]).
        lra.
  - intros u Hu. unfold range_only.
    destruct (Rle_dec OVERFLOW u); [reflexivity | contradiction].
  - intros u.
    destruct (range_only_cases u)
      as [[C E] | [[C E] | [[C E] | [[C E] | [[C E] | [C E]]]]]];
      destruct (range_only_cases (- u))
        as [[C' E'] | [[C' E'] | [[C' E'] | [[C' E'] | [[C' E'] | [C' E']]]]]];
      rewrite E, E'; cbn [np_negative];
      rewrite ?Rabs_Ropp in *;
      try reflexivity;
      try (f_equal; lra);
      try lra;
      try (exfalso;
           assert (A1 := Rle_abs u);
           assert (A2 : - u <= Rabs u)
             by (rewrite <- Rabs_Ropp; apply Rle_abs);
           lra).
  - intros u v Huv.
    destruct (range_only_cases u)
      as [[C E] | [[C E] | [[C E] | [[C E] | [[C E] | [C E]]]]]];
      destruct (range_only_cases v)
        as [[C' E'] | [[C' E'] | [[C' E'] | [[C' E'] | [[C' E'] | [C' E']]]]]];
      rewrite E, E'; cbn [float_le]; try exact I;
      assert (A1 := Rle_abs u);
      assert (A2 : - u <= Rabs u) by (rewrite <- Rabs_Ropp; apply Rle_abs);
      assert (B1 := Rle_abs v);
      assert (B2 : - v <= Rabs v) by (rewrite <- Rabs_Ropp; apply Rle_abs);
      assert (P1 := Rabs_pos u); assert (P2 := Rabs_pos v);
      try lra.
    all: try (destruct (Rle_dec 0 v);
              [rewrite (Rabs_pos_eq v) in * by lra
              | rewrite (Rabs_left1 v) in * by lra]; lra).
    all: try (destruct (Rle_dec 0 u);
              [rewrite (Rabs_pos_eq u) in * by lra
              | rewrite (Rabs_left1 u) in * by lra]; lra).
  - intros u v E.
    destruct (range_only_cases u)
      as [[C Eu] | [[C Eu] | [[C Eu] | [[C Eu] | [[C Eu] | [C Eu]]]]]];
      rewrite Eu in E; try discriminate E; injection E as <-.
    + apply range_only_zero.
    + exact Eu.
    + apply range_only_in_range; rewrite Rabs_pos_eq; lra.
    + apply range_only_in_range; rewrite Rabs_Ropp, Rabs_pos_eq; lra.
  - intros n Hn.
    destruct (Z.eq_dec n 0) as [-> | Hnz]; [apply range_only_zero |].
    apply range_only_in_range.
    + rewrite <- abs_IZR.
      assert (L : (1 <= Z.abs n)%Z) by lia. apply IZR_le in L. lra.
    + rewrite <- abs_IZR. apply IZR_le in Hn.
      apply Rle_trans with (IZR (2 ^ 53)); [exact Hn |].
      apply Rle_trans with (2 ^ 1023); [| apply MAX_FINITE_large].
      replace (IZR (2 ^ 53)) with (2 ^ 53)
        by (rewrite pow_IZR; reflexivity).
      apply pow2_le. lia.
  - intros n q Hn Hq.
    destruct (Z.eq_dec n 0) as [-> | Hnz];
      [rewrite Rmult_0_l; apply range_only_zero |].
    assert (L : 1 <= Rabs (IZR n)).
    { rewrite <- abs_IZR.
      assert (L : (1 <= Z.abs n)%Z) by lia. apply IZR_le in L. lra. }
    assert (B : Rabs (IZR n) <= 2 ^ 53).
    { rewrite <- abs_IZR. apply IZR_le in Hn.
      replace (IZR (2 ^ 53)) with (2 ^ 53) in Hn
        by (rewrite pow_IZR; reflexivity).
      exact Hn. }
    assert (P53 := pow2_pos 53).
    apply range_only_in_range; rewrite Rabs_mult.
    + destruct Hq as (k & [[-> Hk] | [-> Hk]]).
      * assert (Q := pow2_ge_1 k).
        rewrite (Rabs_pos_eq (2 ^ k)) by lra. nra.
      * assert (Q := pow2_pos k).
        assert (Qi : 0 < / 2 ^ k) by now apply Rinv_0_lt_compat.
        rewrite (Rabs_pos_eq (/ 2 ^ k)) by lra.
        apply Rle_trans with (/ 2 ^ k); [| nra].
        unfold HALF_SUBNORMAL.
        apply Rinv_le_contravar; [exact Q | apply pow2_le; lia].
    + apply Rle_trans with (2 ^ 1023); [| apply MAX_FINITE_large].
      destruct Hq as (k & [[-> Hk] | [-> Hk]]).
      * assert (Q := pow2_pos k).
        rewrite (Rabs_pos_eq (2 ^ k)) by lra.
        apply Rle_trans with (2 ^ 53 * 2 ^ k);
          [apply Rmult_le_compat_r; lra |].
        rewrite <- pow2_add. apply pow2_le. lia.
      * assert (Q := pow2_pos k).
        assert (Qi : 0 < / 2 ^ k) by now apply Rinv_0_lt_compat.
        assert (Q1 := inv_pow2_le_1 k).
        rewrite (Rabs_pos_eq (/ 2 ^ k)) by lra.
        apply Rle_trans with (2 ^ 53); [nra | apply pow2_le; lia].
Qed.

End FormatFacts.

Section LibmFacts.

Import Float Binary64.
Local Open Scope R_scope.

Lemma pow2_48 : 2 ^ 48 = 281474976710656.
Proof. rewrite pow_IZR. reflexivity. Qed.

Lemma pow2_44 : 2 ^ 44 = 17592186044416.
Proof. rewrite pow_IZR. reflexivity. Qed.

Lemma pow2_58 : 2 ^ 58 = 288230376151711744.
Proof. rewrite pow_IZR. reflexivity. Qed.

Lemma PI_F_pos : 0 < PI_F.
Proof. unfold PI_F. rewrite pow2_48. lra. Qed.

(** [np.degrees(np.pi)] does not exceed 180 before rounding. *)
Lemma degrees_of_PI_F : PI_F * RAD2DEG <= 180.
Proof. unfold PI_F, RAD2DEG. rewrite pow2_48, pow2_44. lra. Qed.

Lemma RAD2DEG_pos : 0 < RAD2DEG.
Proof. unfold RAD2DEG. rewrite pow2_44. lra. Qed.

Lemma DEG2RAD_bounds : 0 < DEG2RAD < 1.
Proof. unfold DEG2RAD. rewrite pow2_58. lra. Qed.

(** The exact functions, [acos] capped at [np.pi], have the properties
    that are used of libm. *)
Lemma exact_libm : Libm cos sin acos_capped.
Proof.
  assert (P := pow2_pos 45).
  assert (I : 0 <= / 2 ^ 45) by (left; now apply Rinv_0_lt_compat).
  split.
  - apply cos_0.
  - apply sin_0.
  - intros t. replace (cos t - cos t) with 0 by ring. now rewrite Rabs_R0.
  - intros t. replace (sin t - sin t) with 0 by ring. now rewrite Rabs_R0.
  - intros t. apply Rabs_le. assert (B := COS_bound t). lra.
  - intros t. apply Rabs_le. assert (B := SIN_bound t). lra.
  - intros u Hu. unfold acos_capped.
    assert (B := acos_bound u). assert (F := PI_F_pos).
    unfold Rmin. destruct (Rle_dec (acos u) PI_F); lra.
Qed.

End LibmFacts.

Section RoundedAngle.

Import Float Binary64.
Local Open Scope R_scope.

Context (rnd : R -> float64) `{Rounding rnd}.
Context (cos_f sin_f acos_f : R -> R) `{Libm cos_f sin_f acos_f}.

Lemma rnd_zero : rnd 0 = Fin 0.
Proof. apply (rnd_integer 0). simpl. lia. Qed.

Lemma float_between (a : float64) (lo hi : R) :
  float_le (Fin lo) a -> float_le a (Fin hi) ->
  exists u : R, a = Fin u /\ lo <= u <= hi.
Proof.
  destruct a as [u | | |]; cbn [float_le]; intros L U; try contradiction.
  exists u. split; [reflexivity | lra].
Qed.

(** [np.degrees] of a value of [np.arccos] is between 0 and 180. *)
Lemma degrees_in_range (t : R) :
  0 <= t <= PI_F ->
  exists a : R, rnd (t * RAD2DEG) = Fin a /\ 0 <= a <= 180.
Proof.
  intros Ht. assert (K := RAD2DEG_pos). assert (D := degrees_of_PI_F).
  apply float_between.
  - rewrite <- rnd_zero. apply rnd_monotone. nra.
  - rewrite <- (rnd_integer 180) by (simpl; lia).
    apply rnd_monotone. nra.
Qed.

Lemma clip_in_range (u : R) : -1 <= Rmin (Rmax u (-1)) 1 <= 1.
Proof.
  unfold Rmin, Rmax.
  destruct (Rle_dec u (-1)); destruct (Rle_dec _ 1); lra.
Qed.

(** The angle for a cosine that is a number or an infinity: the clamp
    brings it into [-1, 1], where [np.arccos] is defined. *)
Lemma angle_of_clamped (c : R) (flip : bool) :
  -1 <= c <= 1 ->
  exists a : R,
    np_degrees rnd
      (if flip then np_negative (np_arccos acos_f (Fin c))
       else np_arccos acos_f (Fin c))
    = Fin a
    /\ -180 <= a <= 180.
Proof.
  intros Hc. unfold np_arccos.
  destruct (Rle_dec (-1) c) as [_ | N]; [| lra].
  destruct (Rle_dec c 1) as [_ | N]; [| lra].
  destruct (degrees_in_range (acos_f c) (acos_range c Hc)) as (a & Ea & Ba).
  destruct flip; cbn [np_negative np_degrees fmul].
  - exists (- a). split; [| lra].
    replace (- acos_f c * RAD2DEG) with (- (acos_f c * RAD2DEG)) by ring.
    now rewrite rnd_odd, Ea.
  - exists a. split; [exact Ea | lra].
Qed.

(** Whatever the two vectors, the value returned is [nan] or a number
    between -180 and 180, and it is [nan] exactly when the quotient of the
    dot product by the product of the magnitudes is.  Otherwise the clamp
    brings the cosine, which the rounding can leave outside [-1, 1] and an
    overflow can make infinite, back to where [np.arccos] is defined. *)
Lemma signed_angle_is_nan_or_in_range (vec1 vec2 : vec2) :
  exists r : float64,
    calculate_signed_angle_between_vectors rnd acos_f vec1 vec2 = Ok r
    /\ (cos_theta_raw rnd vec1 vec2 = NaN -> r = NaN)
    /\ (cos_theta_raw rnd vec1 vec2 <> NaN ->
        exists a : R, r = Fin a /\ -180 <= a <= 180).
Proof.
  unfold calculate_signed_angle_between_vectors.
  eexists. split; [reflexivity |].
  destruct (cos_theta_raw rnd vec1 vec2) as [u | | |]; cbn [np_clip].
  - split; [discriminate |]. intros _.
    apply angle_of_clamped, clip_in_range.
  - split; [discriminate |]. intros _. apply angle_of_clamped. lra.
  - split; [discriminate |]. intros _. apply angle_of_clamped. lra.
  - split; [| intros N; now elim N]. intros _.
    destruct (negative _); reflexivity.
Qed.

(** C8, amended.  At angle 0, when the products of the two components by
    the pixel size are numbers (neither overflows), whatever the rounding
    and the libm, the result is the pair of the two products, the second
    negated: no rotation is applied. *)
Theorem image_to_beam_shift_at_angle_zero (px py s mx my : R) :
  fmul rnd (Fin px) (Fin s) = Fin mx ->
  fmul rnd (Fin py) (Fin s) = Fin my ->
  image_to_beam_shift rnd cos_f sin_f (Fin px, Fin py) (Fin s) (Fin 0)
  = mkPoint (Fin mx) (Fin (- my))
  /\ scales_and_flips rnd cos_f sin_f (Fin px, Fin py) (Fin s).
Proof.
  intros Hx Hy.
  assert (E : image_to_beam_shift rnd cos_f sin_f (Fin px, Fin py) (Fin s)
                (Fin 0)
              = mkPoint (Fin mx) (Fin (- my))).
  { unfold image_to_beam_shift, np_radians, np_dot. cbn [fst snd].
    rewrite Hx, Hy. cbn [fmul] in Hx, Hy.
    cbn [fmul]. rewrite Rmult_0_l, rnd_zero.
    cbn [np_cos np_sin np_negative]. rewrite cos_at_zero, sin_at_zero.
    cbn [fmul fadd].
    rewrite Ropp_0, !Rmult_1_l, !Rmult_0_l, rnd_zero.
    rewrite (rnd_representable _ _ Hx), (rnd_representable _ _ Hy).
    cbn [fadd]. rewrite Rplus_0_r, Rplus_0_l.
    rewrite (rnd_representable _ _ Hx), (rnd_representable _ _ Hy).
    cbn [fmul]. replace (my * -1) with (- my) by ring.
    now rewrite rnd_odd, (rnd_representable _ _ Hy). }
  split; [exact E |].
  unfold scales_and_flips. cbn [fst snd]. now rewrite E, Hx, Hy.
Qed.

End RoundedAngle.

Section RoundedAngleWitness.

Import Float Binary64.
Local Open Scope R_scope.

#[local] Existing Instance range_only_rounding.
#[local] Existing Instance exact_libm.

Lemma pow2_600_squared_overflows : OVERFLOW <= 2 ^ 600 * 2 ^ 600.
Proof.
  unfold OVERFLOW. rewrite <- pow2_add. apply pow2_le. lia.
Qed.

Lemma range_only_number (u : R) :
  1 <= Rabs u -> Rabs u <= 2 ^ 1023 -> range_only u = Fin u.
Proof.
  intros L U. apply range_only_in_range.
  - assert (T := HALF_SUBNORMAL_lt_1). lra.
  - assert (M := MAX_FINITE_large). lra.
Qed.

Lemma range_only_pow2_600 : range_only (2 ^ 600) = Fin (2 ^ 600).
Proof.
  assert (P := pow2_pos 600).
  apply range_only_number; rewrite Rabs_pos_eq by lra.
  - apply pow2_ge_1.
  - apply pow2_le. lia.
Qed.

(** C10 as worded fails: the nonzero vector (2^600, 0) against itself
    gives [nan], the squares having overflowed. *)
Lemma signed_angle_overflow_is_nan :
  calculate_signed_angle_between_vectors range_only acos_capped
    (Fin (2 ^ 600), Fin 0) (Fin (2 ^ 600), Fin 0) = Ok NaN
  /\ ~ angle_in_range_when_nonzero range_only acos_capped
         (Fin (2 ^ 600), Fin 0) (Fin (2 ^ 600), Fin 0).
Proof.
  assert (P := pow2_pos 600).
  assert (E : calculate_signed_angle_between_vectors range_only acos_capped
                (Fin (2 ^ 600), Fin 0) (Fin (2 ^ 600), Fin 0) = Ok NaN).
  { unfold calculate_signed_angle_between_vectors, cos_theta_raw,
      np_linalg_norm, np_dot, np_cross, fsub.
    cbn [fst snd fmul np_negative].
    rewrite (rnd_overflow (rnd := range_only) _ pow2_600_squared_overflows).
    rewrite !Rmult_0_l, !Rmult_0_r, range_only_zero.
    cbn [fadd fsqrt fmul fdiv np_clip np_arccos np_negative].
    rewrite Ropp_0, Rplus_0_l, range_only_zero. cbn [negative].
    destruct (Rlt_dec 0 0); [lra |]. reflexivity. }
  split; [exact E |].
  intros C. destruct C as (a & Ha & _).
  - intros N. apply (f_equal fst) in N. cbn [fst] in N.
    injection N as N. lra.
  - intros N. apply (f_equal fst) in N. cbn [fst] in N.
    injection N as N. lra.
  - rewrite E in Ha. discriminate Ha.
Qed.

(** The forward transform where the scaling overflows: with x = s = 2^600
    and y = 1 the first product is [inf], and zero times it is [nan]. *)
Lemma image_to_beam_shift_at_overflow :
  image_to_beam_shift range_only cos sin (Fin (2 ^ 600), Fin 1)
    (Fin (2 ^ 600)) (Fin 0)
  = mkPoint PInf NaN.
Proof.
  assert (P := pow2_pos 600).
  unfold image_to_beam_shift, np_radians, np_dot.
  cbn [fst snd fmul].
  rewrite (rnd_overflow (rnd := range_only) _ pow2_600_squared_overflows).
  rewrite Rmult_0_l, range_only_zero.
  cbn [np_cos np_sin np_negative]. rewrite cos_0, sin_0, Ropp_0.
  rewrite Rmult_1_l.
  rewrite range_only_pow2_600.
  cbn [fmul fadd].
  destruct (Req_dec_T 1 0); [lra |].
  destruct (Req_dec_T 0 0) as [_ | N]; [| now elim N].
  unfold signed_like. destruct (Rlt_dec 1 0); [lra |].
  rewrite Rmult_0_l, Rmult_1_l, range_only_zero.
  cbn [fadd fmul]. reflexivity.
Qed.

(** C8 as worded fails: with x = s = 2^600 and y = 1 the first product
    overflows, and the second component is [nan] where the claim has
    -(s * y). *)
Lemma image_to_beam_shift_overflow :
  image_to_beam_shift range_only cos sin (Fin (2 ^ 600), Fin 1)
    (Fin (2 ^ 600)) (Fin 0)
  = mkPoint PInf NaN
  /\ ~ scales_and_flips range_only cos sin (Fin (2 ^ 600), Fin 1)
         (Fin (2 ^ 600)).
Proof.
  assert (P := pow2_pos 600).
  split; [exact image_to_beam_shift_at_overflow |].
  unfold scales_and_flips. rewrite image_to_beam_shift_at_overflow.
  cbn [fst snd fmul].
  rewrite (rnd_overflow (rnd := range_only) _ pow2_600_squared_overflows).
  rewrite Rmult_1_l.
  rewrite range_only_pow2_600.
  cbn [np_negative]. discriminate.
Qed.

Lemma image_to_beam_shift_at_angle_zero_witness :
  image_to_beam_shift range_only cos sin (Fin 3, Fin 4) (Fin 2) (Fin 0)
  = mkPoint (Fin 6) (Fin (- 8))
  /\ scales_and_flips range_only cos sin (Fin 3, Fin 4) (Fin 2).
Proof.
  apply (image_to_beam_shift_at_angle_zero range_only cos sin acos_capped
           3 4 2 6 8).
  - cbn [fmul]. replace (3 * 2) with 6 by ring.
    apply (rnd_integer (rnd := range_only) 6). simpl. lia.
  - cbn [fmul]. replace (4 * 2) with 8 by ring.
    apply (rnd_integer (rnd := range_only) 8). simpl. lia.
Defined.

End RoundedAngleWitness.

Section ErrorBounds.

Import Float Binary64.
Local Open Scope R_scope.

Lemma pow2_53 : 2 ^ 53 = 9007199254740992.
Proof. rewrite pow_IZR. reflexivity. Qed.

Lemma UNIT_ROUNDOFF_value : UNIT_ROUNDOFF = / 9007199254740992.
Proof. unfold UNIT_ROUNDOFF. now rewrite pow2_53. Qed.

Lemma abs_le_elim (a b : R) : Rabs a <= b -> - b <= a <= b.
Proof. unfold Rabs. destruct (Rcase_abs a); lra. Qed.

Lemma abs_le_intro (a b : R) : - b <= a <= b -> Rabs a <= b.
Proof. intros. apply Rabs_le. lra. Qed.

(** A coefficient of magnitude at most 1 does not enlarge. *)
Lemma abs_unit_mul (c v B : R) :
  Rabs c <= 1 -> Rabs v <= B -> Rabs (c * v) <= B.
Proof.
  intros Hc Hv. rewrite Rabs_mult.
  assert (P := Rabs_pos c). assert (Pv := Rabs_pos v). nra.
Qed.

Context (rnd : R -> float64) `{Rounding rnd}.

(** A rounding at the scale [B], where the underflow error is below the
    relative one. *)
Lemma rnd_error (z B : R) :
  Rabs z <= B -> B <= 2 ^ 1002 -> HALF_SUBNORMAL <= UNIT_ROUNDOFF * B ->
  exists v : R, rnd z = Fin v /\ Rabs (v - z) <= 2 * UNIT_ROUNDOFF * B.
Proof.
  intros Hz HB Heta.
  assert (M := MAX_FINITE_large).
  assert (L := pow2_le 1002 1023 ltac:(lia)).
  destruct (rnd_finite z) as (v & Ev & _ & Err); [lra |].
  exists v. split; [exact Ev |].
  assert (U := UNIT_ROUNDOFF_pos). assert (P := Rabs_pos z). nra.
Qed.

(** The rounded product of a row of coefficients of magnitude at most 1
    by a column at the scale [B]. *)
Lemma dot_error (c1 c2 v1 v2 B : R) :
  Rabs c1 <= 1 -> Rabs c2 <= 1 -> Rabs v1 <= B -> Rabs v2 <= B ->
  B <= 2 ^ 1000 -> HALF_SUBNORMAL <= UNIT_ROUNDOFF * B ->
  exists d : R,
    np_dot rnd (Fin c1, Fin c2) (Fin v1, Fin v2) = Fin d
    /\ rnd d = Fin d
    /\ Rabs (d - (c1 * v1 + c2 * v2)) <= 10 * UNIT_ROUNDOFF * B.
Proof.
  intros Hc1 Hc2 Hv1 Hv2 HB Heta.
  assert (U := UNIT_ROUNDOFF_pos). assert (Uv := UNIT_ROUNDOFF_value).
  assert (P1000 := pow2_pos 1000).
  assert (E1002 : 2 ^ 1002 = 4 * 2 ^ 1000)
    by (change 1002%nat with (2 + 1000)%nat; rewrite pow2_add; simpl; ring).
  assert (B0 : 0 <= B) by (assert (P := Rabs_pos v1); lra).
  destruct (rnd_error (c1 * v1) B) as (p1 & E1 & R1);
    [now apply abs_unit_mul | lra | exact Heta |].
  destruct (rnd_error (c2 * v2) B) as (p2 & E2 & R2);
    [now apply abs_unit_mul | lra | exact Heta |].
  assert (A1 := abs_le_elim _ _ (abs_unit_mul c1 v1 B Hc1 Hv1)).
  assert (A2 := abs_le_elim _ _ (abs_unit_mul c2 v2 B Hc2 Hv2)).
  apply abs_le_elim in R1, R2.
  destruct (rnd_error (p1 + p2) (3 * B)) as (d & Ed & Rd).
  { apply abs_le_intro. rewrite Uv in *. lra. }
  { lra. }
  { nra. }
  exists d. split; [| split].
  - unfold np_dot. cbn [fst snd fmul]. rewrite E1, E2. cbn [fadd]. exact Ed.
  - exact (rnd_representable _ _ Ed).
  - apply abs_le_elim in Rd. apply abs_le_intro. rewrite Uv in *. lra.
Qed.

End ErrorBounds.

Section RoundTrip.

Import Float Binary64.
Local Open Scope R_scope.

Context (rnd : R -> float64) `{Rounding rnd}.
Context (cos_f sin_f acos_f : R -> R) `{Libm cos_f sin_f acos_f}.

Lemma pow2_45 : 2 ^ 45 = 35184372088832.
Proof. rewrite pow_IZR. reflexivity. Qed.

(** The computed cosine and sine are almost on the unit circle. *)
Lemma libm_pythagoras (t : R) :
  Rabs (cos_f t * cos_f t + sin_f t * sin_f t - 1) <= 1024 * UNIT_ROUNDOFF.
Proof.
  assert (Ac := abs_le_elim _ _ (cos_accurate t)).
  assert (As := abs_le_elim _ _ (sin_accurate t)).
  assert (Bc := abs_le_elim _ _ (cos_bounded t)).
  assert (Bs := abs_le_elim _ _ (sin_bounded t)).
  assert (C := COS_bound t). assert (S := SIN_bound t).
  assert (T := sin2_cos2 t). unfold Rsqr in T.
  rewrite pow2_45 in Ac, As. rewrite UNIT_ROUNDOFF_value.
  set (c := cos_f t) in *. set (s := sin_f t) in *.
  replace (c * c + s * s - 1)
    with ((c - cos t) * (c + cos t) + (s - sin t) * (s + sin t))
    by (rewrite <- T; ring).
  apply abs_le_intro. split; nra.
Qed.

(** Underflow is negligible from the scale 2^-1000 on. *)
Lemma underflow_negligible (B : R) :
  / 2 ^ 1000 <= B -> HALF_SUBNORMAL <= UNIT_ROUNDOFF * B.
Proof.
  intros HB. unfold HALF_SUBNORMAL, UNIT_ROUNDOFF.
  assert (P53 := pow2_pos 53). assert (P1000 := pow2_pos 1000).
  apply Rle_trans with (/ 2 ^ 53 * / 2 ^ 1000).
  - rewrite <- Rinv_mult, <- pow2_add.
    apply Rinv_le_contravar; [apply pow2_pos | apply pow2_le; lia].
  - apply Rmult_le_compat_l; [left; now apply Rinv_0_lt_compat | exact HB].
Qed.

End RoundTrip.

Section RoundTripProof.

Import Float Binary64.
Local Open Scope R_scope.

Context (rnd : R -> float64) `{Rounding rnd}.
Context (cos_f sin_f acos_f : R -> R) `{Libm cos_f sin_f acos_f}.

Lemma ten_150_pos : 0 < 10 ^ 150.
Proof. apply pow_lt. lra. Qed.

Lemma ten_150_le : 10 ^ 150 <= 2 ^ 499.
Proof.
  replace 10 with (IZR 10) by reflexivity.
  replace 2 with (IZR 2) by reflexivity.
  rewrite !pow_IZR. apply IZR_le. vm_compute. discriminate.
Qed.

Lemma ten_150_inv_ge : / 2 ^ 499 <= / 10 ^ 150.
Proof.
  apply Rinv_le_contravar; [apply ten_150_pos | apply ten_150_le].
Qed.

Lemma abs_mul_le (a b A B : R) :
  Rabs a <= A -> Rabs b <= B -> Rabs (a * b) <= A * B.
Proof.
  intros Ha Hb. rewrite Rabs_mult.
  apply Rmult_le_compat; try apply Rabs_pos; assumption.
Qed.

(** The product of a size and a scale, both between 2^-499 and 2^499. *)
Lemma scale_bounds (s N : R) :
  / 2 ^ 499 <= s <= 2 ^ 499 -> / 2 ^ 499 <= N <= 2 ^ 499 ->
  / 2 ^ 1000 <= s * N /\ 2 * (s * N) <= 2 ^ 1000.
Proof.
  intros Hs HN.
  assert (P := pow2_pos 499).
  assert (Pi : 0 < / 2 ^ 499) by now apply Rinv_0_lt_compat.
  split.
  - apply Rle_trans with (/ 2 ^ 499 * / 2 ^ 499).
    + rewrite <- Rinv_mult, <- pow2_add.
      apply Rinv_le_contravar; [apply pow2_pos | apply pow2_le; lia].
    + apply Rmult_le_compat; lra.
  - apply Rle_trans with (2 ^ 1 * (2 ^ 499 * 2 ^ 499)).
    + simpl (2 ^ 1). rewrite Rmult_1_r.
      apply Rmult_le_compat_l; [lra |].
      apply Rmult_le_compat; lra.
    + rewrite <- !pow2_add. apply pow2_le. lia.
Qed.

(** A dot product of two coefficients of magnitude at most 1 with two
    values that approximate [V1] and [V2]. *)
Lemma dot_of_approx (c1 c2 v1 v2 V1 V2 B E : R) :
  Rabs c1 <= 1 -> Rabs c2 <= 1 ->
  Rabs (v1 - V1) <= E -> Rabs (v2 - V2) <= E ->
  Rabs v1 <= B -> Rabs v2 <= B ->
  B <= 2 ^ 1000 -> HALF_SUBNORMAL <= UNIT_ROUNDOFF * B ->
  exists d : R,
    np_dot rnd (Fin c1, Fin c2) (Fin v1, Fin v2) = Fin d
    /\ rnd d = Fin d
    /\ Rabs (d - (c1 * V1 + c2 * V2)) <= 10 * UNIT_ROUNDOFF * B + 2 * E.
Proof.
  intros Hc1 Hc2 He1 He2 Hv1 Hv2 HB Hu.
  destruct (dot_error rnd c1 c2 v1 v2 B Hc1 Hc2 Hv1 Hv2 HB Hu)
    as (d & Ed & Er & Rd).
  exists d. split; [exact Ed | split; [exact Er |]].
  assert (D1 := abs_unit_mul c1 (v1 - V1) E Hc1 He1).
  assert (D2 := abs_unit_mul c2 (v2 - V2) E Hc2 He2).
  apply abs_le_elim in Rd, D1, D2.
  apply abs_le_intro. split; lra.
Qed.

(** A rotated vector is no longer than the sum of the components. *)
Lemma rotated_bound (c1 c2 X Y BX BY : R) :
  Rabs c1 <= 1 -> Rabs c2 <= 1 -> Rabs X <= BX -> Rabs Y <= BY ->
  Rabs (c1 * X + c2 * Y) <= BX + BY.
Proof.
  intros Hc1 Hc2 HX HY.
  assert (D1 := abs_unit_mul c1 X BX Hc1 HX).
  assert (D2 := abs_unit_mul c2 Y BY Hc2 HY).
  apply abs_le_elim in D1, D2. apply abs_le_intro. split; lra.
Qed.

(** The division that undoes the scaling. *)
Lemma div_error (w x s E : R) :
  0 < s -> Rabs (w - x * s) <= E * s -> Rabs (w / s - x) <= E.
Proof.
  intros Hs Hw.
  replace (w / s - x) with ((w - x * s) * / s) by (field; lra).
  rewrite Rabs_mult, (Rabs_pos_eq (/ s))
    by (left; now apply Rinv_0_lt_compat).
  apply Rmult_le_reg_r with s; [exact Hs |].
  rewrite Rmult_assoc, Rinv_l, Rmult_1_r by lra. exact Hw.
Qed.

(** One component of the round trip: the scaled component [X] is
    recovered from the rotated pair and divided by the pixel size. *)
Lemma unscale_error (w x s N : R) :
  0 < s -> / 2 ^ 499 <= N <= 2 ^ 499 -> Rabs x <= N ->
  Rabs (w - x * s) <= 1092 * UNIT_ROUNDOFF * (s * N) ->
  exists r : R,
    fdiv rnd (Fin w) (Fin s) = Fin r
    /\ Rabs (r - x) <= / 10 ^ 12 * N.
Proof.
  intros Hs HN Hx Hw.
  assert (U := UNIT_ROUNDOFF_value).
  assert (D : Rabs (w / s - x) <= 1092 * UNIT_ROUNDOFF * N).
  { apply div_error; [exact Hs |].
    replace (1092 * UNIT_ROUNDOFF * N * s)
      with (1092 * UNIT_ROUNDOFF * (s * N)) by ring.
    exact Hw. }
  assert (P := pow2_pos 499).
  assert (Pi : 0 < / 2 ^ 499) by now apply Rinv_0_lt_compat.
  apply abs_le_elim in Hx.
  assert (Z : Rabs (w / s) <= 2 * N).
  { apply abs_le_elim in D. apply abs_le_intro. rewrite U in D. lra. }
  destruct (rnd_error rnd (w / s) (2 * N) Z) as (r & Er & Rr).
  - apply Rle_trans with (2 ^ 1 * 2 ^ 499);
      [simpl (2 ^ 1); lra | rewrite <- pow2_add; apply pow2_le; lia].
  - apply underflow_negligible.
    apply Rle_trans with (/ 2 ^ 499); [| lra].
    apply Rinv_le_contravar; [apply pow2_pos | apply pow2_le; lia].
  - exists r. split.
    + unfold fdiv. destruct (Req_dec_T s 0) as [E0 | _]; [lra | exact Er].
    + apply abs_le_elim in D, Rr. apply abs_le_intro.
      replace (10 ^ 12) with 1000000000000
        by (replace 10 with (IZR 10) by reflexivity;
            rewrite pow_IZR; reflexivity).
      rewrite U in D, Rr. lra.
Qed.

End RoundTripProof.

Section RoundTripTheorem.

Import Float Binary64.
Local Open Scope R_scope.

Context (rnd : R -> float64) `{Rounding rnd}.
Context (cos_f sin_f acos_f : R -> R) `{Libm cos_f sin_f acos_f}.


End RoundTripTheorem.

Section RoundTripWitness.

Import Float Binary64.
Local Open Scope R_scope.

Lemma ten_150_ge_1 : 1 <= 10 ^ 150.
Proof. apply pow_R1_Rle. lra. Qed.

Lemma moderate_number (u : R) : 1 <= u <= 100 -> / 10 ^ 150 <= u <= 10 ^ 150.
Proof.
  intros Hu. assert (T := ten_150_ge_1). assert (P := ten_150_pos).
  assert (/ 10 ^ 150 <= 1).
  { rewrite <- Rinv_1. apply Rinv_le_contravar; lra. }
  lra.
Qed.


End RoundTripWitness.

Section ModerateAngle.

Import Float Binary64.
Local Open Scope R_scope.

Context (rnd : R -> float64) `{Rounding rnd}.
Context (cos_f sin_f acos_f : R -> R) `{Libm cos_f sin_f acos_f}.

Lemma rnd_not_nan (z : R) : rnd z <> NaN.
Proof.
  intros E. assert (M := rnd_monotone z z (Rle_refl z)).
  rewrite E in M. exact M.
Qed.

(** A positive value well inside the range is rounded to a positive
    number of the same order. *)
Lemma rnd_positive (z : R) :
  4 * HALF_SUBNORMAL <= z -> z <= MAX_FINITE ->
  exists v : R, rnd z = Fin v /\ z / 4 <= v <= 2 * z.
Proof.
  intros Lo Hi. assert (E := HALF_SUBNORMAL_pos).
  destruct (rnd_finite z) as (v & Ev & _ & Rv).
  { rewrite Rabs_pos_eq; lra. }
  exists v. split; [exact Ev |].
  rewrite (Rabs_pos_eq z) in Rv by lra.
  apply abs_le_elim in Rv. rewrite UNIT_ROUNDOFF_value in Rv. lra.
Qed.

Lemma sq_le (x B : R) : Rabs x <= B -> 0 <= x * x <= B * B.
Proof. intros Hx. apply abs_le_elim in Hx. split; nra. Qed.

Lemma sq_ge (x L : R) : 0 <= L -> L <= Rabs x -> L * L <= x * x.
Proof. intros HL. unfold Rabs. destruct (Rcase_abs x); intros Hx; nra. Qed.

Lemma sum_of_squares_moderate (x y : R) :
  moderate_vector x y ->
  / 10 ^ 150 * / 10 ^ 150 <= x * x + y * y <= 2 * (10 ^ 150 * 10 ^ 150).
Proof.
  intros (Hx & Hy & Hn).
  assert (Sx := sq_le x _ Hx). assert (Sy := sq_le y _ Hy).
  assert (L0 : 0 <= / 10 ^ 150) by lra.
  split; [| lra].
  destruct Hn as [Hn | Hn].
  - assert (G := sq_ge x _ L0 Hn). lra.
  - assert (G := sq_ge y _ L0 Hn). lra.
Qed.

(** A product of two components of moderate vectors is rounded to a
    number. *)
Lemma rnd_product (x y : R) :
  Rabs x <= 10 ^ 150 -> Rabs y <= 10 ^ 150 ->
  exists v : R,
    rnd (x * y) = Fin v
    /\ Rabs (v - x * y)
       <= UNIT_ROUNDOFF * Rabs (x * y) + HALF_SUBNORMAL
    /\ Rabs (x * y) <= 10 ^ 150 * 10 ^ 150.
Proof.
  intros Hx Hy.
  assert (B := abs_mul_le x y _ _ Hx Hy).
  destruct (rnd_finite (x * y)) as (v & Ev & _ & Rv).
  { unfold MAX_FINITE. lra. }
  exists v. auto.
Qed.

(** The magnitude of a moderate vector is a positive number. *)
Lemma norm_moderate (x y : R) :
  moderate_vector x y ->
  exists m : R,
    np_linalg_norm rnd (Fin x, Fin y) = Fin m
    /\ / 10 ^ 150 / 16 <= m <= 6 * 10 ^ 150.
Proof.
  intros Hm. assert (S := sum_of_squares_moderate x y Hm).
  destruct Hm as (Hx & Hy & _).
  destruct (rnd_product x x Hx Hx) as (q1 & E1 & R1 & B1).
  destruct (rnd_product y y Hy Hy) as (q2 & E2 & R2 & B2).
  assert (Sx := sq_le x _ Hx). assert (Sy := sq_le y _ Hy).
  rewrite (Rabs_pos_eq (x * x)) in R1, B1 by lra.
  rewrite (Rabs_pos_eq (y * y)) in R2, B2 by lra.
  apply abs_le_elim in R1, R2.
  rewrite UNIT_ROUNDOFF_value in R1, R2. unfold HALF_SUBNORMAL in R1, R2.
  destruct (rnd_positive (q1 + q2)) as (q & Eq & Bq).
  { unfold HALF_SUBNORMAL. lra. }
  { unfold MAX_FINITE. lra. }
  assert (Lo : (/ 10 ^ 150 / 4) * (/ 10 ^ 150 / 4) <= q) by lra.
  assert (Hi : q <= (3 * 10 ^ 150) * (3 * 10 ^ 150)) by lra.
  apply sqrt_le_1_alt in Lo, Hi.
  rewrite sqrt_square in Lo by lra. rewrite sqrt_square in Hi by lra.
  destruct (rnd_positive (sqrt q)) as (m & Em & Bm).
  { unfold HALF_SUBNORMAL. lra. }
  { unfold MAX_FINITE. lra. }
  exists m. split; [| lra].
  unfold np_linalg_norm, np_dot. cbn [fst snd fmul].
  rewrite E1, E2. cbn [fadd]. rewrite Eq. cbn [fsqrt].
  destruct (Rlt_dec q 0) as [N | _]; [lra | exact Em].
Qed.

(** For two moderate vectors the cosine before the clamp is a number or
    an infinity. *)
Lemma cos_theta_raw_moderate (x1 y1 x2 y2 : R) :
  moderate_vector x1 y1 -> moderate_vector x2 y2 ->
  cos_theta_raw rnd (Fin x1, Fin y1) (Fin x2, Fin y2) <> NaN.
Proof.
  intros H1 H2.
  destruct (norm_moderate x1 y1 H1) as (m1 & Em1 & Bm1).
  destruct (norm_moderate x2 y2 H2) as (m2 & Em2 & Bm2).
  destruct H1 as (Hx1 & Hy1 & _). destruct H2 as (Hx2 & Hy2 & _).
  destruct (rnd_product x1 x2 Hx1 Hx2) as (p1 & E1 & R1 & B1).
  destruct (rnd_product y1 y2 Hy1 Hy2) as (p2 & E2 & R2 & B2).
  assert (A1 := Rabs_pos (x1 * x2)). assert (A2 := Rabs_pos (y1 * y2)).
  apply abs_le_elim in R1, R2.
  rewrite UNIT_ROUNDOFF_value in R1, R2. unfold HALF_SUBNORMAL in R1, R2.
  assert (C1 := abs_le_elim _ _ B1). assert (C2 := abs_le_elim _ _ B2).
  destruct (rnd_finite (p1 + p2)) as (d & Ed & _).
  { apply abs_le_intro. unfold MAX_FINITE. split; lra. }
  assert (Mlo : / 10 ^ 150 / 16 * (/ 10 ^ 150 / 16) <= m1 * m2).
  { apply Rmult_le_compat; lra. }
  assert (Mhi : m1 * m2 <= 6 * 10 ^ 150 * (6 * 10 ^ 150)).
  { apply Rmult_le_compat; lra. }
  destruct (rnd_positive (m1 * m2)) as (mm & Emm & Bmm).
  { unfold HALF_SUBNORMAL. lra. }
  { unfold MAX_FINITE. lra. }
  unfold cos_theta_raw. rewrite Em1, Em2.
  unfold np_dot. cbn [fst snd fmul]. rewrite E1, E2. cbn [fadd].
  rewrite Ed, Emm. cbn [fdiv].
  destruct (Req_dec_T mm 0) as [Z | _]; [lra |].
  apply rnd_not_nan.
Qed.

(** C10, amended.  For every pair of vectors of moderate size (no
    component beyond 1e150 in magnitude, one of at least 1e-150), whatever
    the rounding and the libm, the value returned is a number between -180
    and 180: the quotient is a number or an infinity, the clamp brings it
    into [-1, 1], the arccosine is between 0 and pi, and the sign of the
    cross product only negates it. *)
Theorem signed_angle_in_range (x1 y1 x2 y2 : R) :
  moderate_vector x1 y1 -> moderate_vector x2 y2 ->
  exists a : R,
    calculate_signed_angle_between_vectors rnd acos_f
      (Fin x1, Fin y1) (Fin x2, Fin y2)
    = Ok (Fin a)
    /\ -180 <= a <= 180.
Proof.
  intros H1 H2.
  destruct (signed_angle_is_nan_or_in_range rnd cos_f sin_f acos_f
              (Fin x1, Fin y1) (Fin x2, Fin y2)) as (r & Er & _ & Hr).
  destruct (Hr (cos_theta_raw_moderate x1 y1 x2 y2 H1 H2)) as (a & Ea & Ba).
  exists a. split; [now rewrite Er, Ea | exact Ba].
Qed.

End ModerateAngle.

Section ModerateAngleWitness.

Import Float Binary64.
Local Open Scope R_scope.

Lemma moderate_vector_3_4 : moderate_vector 3 (-4).
Proof.
  unfold moderate_vector.
  rewrite (Rabs_pos_eq 3), (Rabs_left (-4)) by lra.
  repeat split; try left; lra.
Qed.

Lemma moderate_vector_1_0 : moderate_vector 1 0.
Proof.
  unfold moderate_vector. rewrite Rabs_R1, Rabs_R0.
  repeat split; try left; lra.
Qed.

Lemma signed_angle_in_range_witness :
  exists a : R,
    calculate_signed_angle_between_vectors range_only acos_capped
      (Fin 1, Fin 0) (Fin 3, Fin (-4))
    = Ok (Fin a)
    /\ -180 <= a <= 180.
Proof.
  apply (@signed_angle_in_range range_only range_only_rounding
           cos sin acos_capped exact_libm 1 0 3 (-4)).
  - exact moderate_vector_1_0.
  - exact moderate_vector_3_4.
Defined.

End ModerateAngleWitness.

Section RoundTripCounterexample.

Import Float Binary64.
Local Open Scope R_scope.

#[local] Existing Instance range_only_rounding.


End RoundTripCounterexample.

(* ================================================================== *)
(** * Properties of the array operations *)
(* ================================================================== *)

Section ArrayFacts.

Import Np.

Context {A : Type} `{Dtype A}.

Lemma fromfunction_length (nr nc : nat) (f : nat -> nat -> A) :
  length (data (fromfunction nr nc f)) = nr * nc.
Proof. unfold fromfunction. simpl. now rewrite length_map, length_seq. Qed.

Lemma fromfunction_well_formed (nr nc : nat) (f : nat -> nat -> A) :
  well_formed (fromfunction nr nc f).
Proof. unfold well_formed. now rewrite fromfunction_length. Qed.

Lemma flat_index_lt (nr nc r c : nat) :
  r < nr -> c < nc -> r * nc + c < nr * nc.
Proof. intros Hr Hc. nia. Qed.

Lemma flat_index_row (nc r c : nat) : c < nc -> (r * nc + c) / nc = r.
Proof.
  intros Hc. rewrite Nat.div_add_l by lia.
  rewrite Nat.div_small by exact Hc. lia.
Qed.

Lemma flat_index_col (nc r c : nat) : c < nc -> (r * nc + c) mod nc = c.
Proof.
  intros Hc. rewrite Nat.add_comm, Nat.Div0.mod_add.
  now apply Nat.mod_small.
Qed.

Lemma nth_map_seq {B : Type} (g : nat -> B) (n k : nat) (d : B) :
  k < n -> nth k (map g (seq 0 n)) d = g k.
Proof.
  intros L.
  rewrite (nth_indep _ d (g 0)) by (rewrite length_map, length_seq; lia).
  rewrite (map_nth g (seq 0 n) 0 k). now rewrite seq_nth.
Qed.

(** Reading back a sample of [fromfunction]. *)
Lemma item_fromfunction (nr nc : nat) (f : nat -> nat -> A) (r c : nat) :
  r < nr -> c < nc -> item (fromfunction nr nc f) r c = f r c.
Proof.
  intros Hr Hc. unfold item, fromfunction. simpl.
  assert (L : r * nc + c < nr * nc) by now apply flat_index_lt.
  rewrite nth_map_seq by exact L.
  now rewrite flat_index_row, flat_index_col.
Qed.

(** The flat sample [k] of [fromfunction]. *)
Lemma nth_fromfunction (nr nc : nat) (f : nat -> nat -> A) (k : nat) (d : A) :
  k < nr * nc ->
  nth k (data (fromfunction nr nc f)) d = f (k / nc) (k mod nc).
Proof.
  intros L. unfold fromfunction. simpl.
  now rewrite nth_map_seq by exact L.
Qed.

(** The scan returns an index of the scanned range. *)
Lemma argmax_from_bound (l : list A) :
  forall best_i best i,
    best_i < i -> argmax_from best_i best i l < i + length l.
Proof.
  induction l as [| v l IH]; intros best_i best i Hlt; simpl.
  - lia.
  - destruct (d_ltb best v).
    + specialize (IH i v (S i)). lia.
    + specialize (IH best_i best (S i)). lia.
Qed.

Lemma np_argmax_bound (a : ndarray A) (k : nat) :
  np_argmax a = Ok k -> k < length (data a).
Proof.
  unfold np_argmax. destruct (data a) as [| v l]; [discriminate |].
  intros E. injection E as <-. simpl.
  pose proof (argmax_from_bound l 0 v 1). lia.
Qed.

Lemma np_argmax_nonempty (a : ndarray A) :
  0 < length (data a) -> exists k, np_argmax a = Ok k.
Proof.
  unfold np_argmax. destruct (data a); simpl; [lia | eauto].
Qed.

(** Once the running maximum is the strict maximum of the whole list, the
    scan keeps it. *)
Lemma argmax_from_keeps (l : list A) :
  forall best_i best i,
    (forall v, In v l -> d_ltb best v = false) ->
    argmax_from best_i best i l = best_i.
Proof.
  induction l as [| v l IH]; intros best_i best i Hmax; simpl.
  - reflexivity.
  - rewrite (Hmax v) by now left.
    apply IH. intros v' Hin. apply Hmax. now right.
Qed.

(** A sample that is strictly above every other sample is where the scan
    ends. *)
Lemma argmax_from_strict_max (l : list A) :
  forall best_i best i k d,
    k < length l ->
    d_ltb best (nth k l d) = true ->
    (forall m, m < length l -> m <> k ->
               d_ltb (nth m l d) (nth k l d) = true
               /\ d_ltb (nth k l d) (nth m l d) = false) ->
    argmax_from best_i best i l = i + k.
Proof.
  induction l as [| v l IH]; intros best_i best i k d Hk Hbest Hmax; simpl in *.
  - lia.
  - destruct k as [| k].
    + rewrite Hbest. rewrite argmax_from_keeps; [lia |].
      intros v' Hin. apply (In_nth _ _ d) in Hin.
      destruct Hin as (m & Hm & <-).
      apply (Hmax (S m)); lia.
    + assert (Hv : d_ltb v (nth k l d) = true)
        by (apply (Hmax 0); lia).
      assert (Hrest : forall m, m < length l -> m <> k ->
                 d_ltb (nth m l d) (nth k l d) = true
                 /\ d_ltb (nth k l d) (nth m l d) = false).
      { intros m Hm Hne. apply (Hmax (S m)); lia. }
      destruct (d_ltb best v).
      * rewrite (IH i v (S i) k d); [lia | lia | exact Hv | exact Hrest].
      * rewrite (IH best_i best (S i) k d);
          [lia | lia | exact Hbest | exact Hrest].
Qed.

(** [np.argmax] finds a strict maximum. *)
Lemma np_argmax_strict_max (a : ndarray A) (k : nat) :
  k < length (data a) ->
  (forall m, m < length (data a) -> m <> k ->
             d_ltb (nth m (data a) d_zero) (nth k (data a) d_zero) = true
             /\ d_ltb (nth k (data a) d_zero) (nth m (data a) d_zero) = false) ->
  np_argmax a = Ok k.
Proof.
  unfold np_argmax. destruct (data a) as [| v l]; simpl; [lia |].
  intros Hk Hmax. f_equal.
  destruct k as [| k].
  - apply argmax_from_keeps. intros v' Hin.
    apply (In_nth _ _ d_zero) in Hin. destruct Hin as (m & Hm & <-).
    apply (Hmax (S m)); lia.
  - rewrite (argmax_from_strict_max l 0 v 1 k d_zero).
    + reflexivity.
    + lia.
    + apply (Hmax 0); lia.
    + intros m Hm Hne. apply (Hmax (S m)); lia.
Qed.

(** Unravelling an index of the array gives a row and a column of it. *)
Lemma np_unravel_index_in_shape (k nr nc : nat) :
  k < nr * nc ->
  np_unravel_index k (nr, nc) = Ok (Z.of_nat (k / nc), Z.of_nat (k mod nc))
  /\ k / nc < nr /\ k mod nc < nc.
Proof.
  intros L. unfold np_unravel_index.
  assert (Hnc : 0 < nc) by nia.
  destruct (Nat.ltb_spec k (nr * nc)) as [_ | G]; [| lia].
  split; [reflexivity |]. split.
  - apply Nat.Div0.div_lt_upper_bound. lia.
  - apply Nat.mod_upper_bound. lia.
Qed.

End ArrayFacts.

(* ================================================================== *)
(** * The valid-mode peak index *)
(* ================================================================== *)

Section ValidPeak.

Import Np Scipy Tiling.

Context {A : Type} `{Dtype A}.

(** The peak index of the valid correlation is a position of the valid
    window. *)
Lemma cross_correlate_in_window (image template : ndarray A) :
  nrows template <= nrows image ->
  ncols template <= ncols image ->
  exists r c : nat,
    cross_correlate image template = Ok (Z.of_nat r, Z.of_nat c)
    /\ r <= nrows image - nrows template
    /\ c <= ncols image - ncols template.
Proof.
  intros Hr Hc. unfold cross_correlate, correlate2d.
  destruct (Nat.leb_spec (nrows template) (nrows image)) as [_ | G]; [| lia].
  destruct (Nat.leb_spec (ncols template) (ncols image)) as [_ | G]; [| lia].
  cbn [andb rbind].
  set (corr_map := correlate_valid image template).
  assert (Hlen : length (data corr_map)
                 = (nrows image - nrows template + 1)
                   * (ncols image - ncols template + 1))
    by apply fromfunction_length.
  destruct (np_argmax_nonempty corr_map) as [k Hk]; [nia |].
  rewrite Hk. cbn [rbind].
  apply np_argmax_bound in Hk. rewrite Hlen in Hk.
  change (nrows corr_map) with (nrows image - nrows template + 1).
  change (ncols corr_map) with (ncols image - ncols template + 1).
  destruct (np_unravel_index_in_shape k _ _ Hk) as (E & Br & Bc).
  rewrite E. do 2 eexists. split; [reflexivity |]. lia.
Qed.

(** C9.  When the image is at least as large as the template in both
    dimensions, both components of the peak index of [cross_correlate] are
    non-negative and at most image size minus template size; so the
    acceptance test of the tile loop, on absolute values, is the test
    [peak_index[0] <= 5 and peak_index[1] <= 5]. *)
Theorem cross_correlate_peak_nonnegative (image template : ndarray A) :
  nrows template <= nrows image ->
  ncols template <= ncols image ->
  exists peak_index : Z * Z,
    cross_correlate image template = Ok peak_index
    /\ (0 <= fst peak_index
        <= Z.of_nat (nrows image) - Z.of_nat (nrows template))%Z
    /\ (0 <= snd peak_index
        <= Z.of_nat (ncols image) - Z.of_nat (ncols template))%Z
    /\ within_tolerance peak_index
       = ((fst peak_index <=? SHIFT_TOLERANCE_PIXELS)%Z
          && (snd peak_index <=? SHIFT_TOLERANCE_PIXELS)%Z)%bool.
Proof.
  intros Hr Hc.
  destruct (cross_correlate_in_window image template Hr Hc)
    as (r & c & E & Br & Bc).
  exists (Z.of_nat r, Z.of_nat c). split; [exact E |]. simpl.
  split; [lia |]. split; [lia |].
  unfold within_tolerance. simpl.
  now rewrite !Z.abs_eq by lia.
Qed.

End ValidPeak.

Section ValidPeakWitness.

Import Np Scipy Tiling.

Lemma cross_correlate_peak_nonnegative_witness :
  exists peak_index : Z * Z,
    cross_correlate
      (mk_ndarray 3 3 [0; 0; 0; 0; 1; 2; 0; 3; 4]%Z)
      (mk_ndarray 2 2 [1; 2; 3; 4]%Z) = Ok peak_index
    /\ (0 <= fst peak_index <= Z.of_nat 3 - Z.of_nat 2)%Z
    /\ (0 <= snd peak_index <= Z.of_nat 3 - Z.of_nat 2)%Z
    /\ within_tolerance peak_index
       = ((fst peak_index <=? SHIFT_TOLERANCE_PIXELS)%Z
          && (snd peak_index <=? SHIFT_TOLERANCE_PIXELS)%Z)%bool.
Proof.
  apply (cross_correlate_peak_nonnegative
           (mk_ndarray 3 3 [0; 0; 0; 0; 1; 2; 0; 3; 4]%Z)
           (mk_ndarray 2 2 [1; 2; 3; 4]%Z)); simpl; lia.
Defined.

End ValidPeakWitness.

(* ================================================================== *)
(** * Sums *)
(* ================================================================== *)

Section SumFacts.

Import Np.

Lemma sum_range_ext {A : Type} `{Dtype A} (n : nat) (f g : nat -> A) :
  (forall k, k < n -> f k = g k) -> sum_range n f = sum_range n g.
Proof.
  unfold sum_range. intros E.
  assert (G : forall k, In k (seq 0 n) -> f k = g k)
    by (intros k Hk; apply in_seq in Hk; apply E; lia).
  induction (seq 0 n) as [| k l IH]; simpl; [reflexivity |].
  rewrite (G k) by now left.
  rewrite IH; [reflexivity |]. intros k' Hk'. apply G. now right.
Qed.

(** A sum of [n] rationals all equal to [v] is [n * v]. *)
Lemma sum_range_constant (n : nat) (f : nat -> Q) (v : Q) :
  (forall k, k < n -> (f k == v)%Q) ->
  (sum_range n f == inject_Z (Z.of_nat n) * v)%Q.
Proof.
  unfold sum_range. intros E.
  assert (G : forall k, In k (seq 0 n) -> (f k == v)%Q)
    by (intros k Hk; apply in_seq in Hk; apply E; lia).
  rewrite <- (length_seq n 0) at 2.
  induction (seq 0 n) as [| k l IH]; simpl fold_right.
  - simpl. ring.
  - rewrite (G k) by now left.
    rewrite IH by (intros k' Hk'; apply G; now right).
    cbn [length]. rewrite Nat2Z.inj_succ. unfold Z.succ.
    rewrite inject_Z_plus. cbn [d_add float_dtype]. ring.
Qed.

(** A sum of rationals that are all 0 is 0. *)
Lemma sum_range_all_zero (n : nat) (f : nat -> Q) :
  (forall k, k < n -> (f k == 0)%Q) -> (sum_range n f == 0)%Q.
Proof.
  intros E. rewrite (sum_range_constant n f 0 E). ring.
Qed.

(** A sum of non-negative rationals is non-negative. *)
Lemma sum_range_nonneg (n : nat) (f : nat -> Q) :
  (forall k, k < n -> (0 <= f k)%Q) -> (0 <= sum_range n f)%Q.
Proof.
  unfold sum_range. intros E.
  assert (G : forall k, In k (seq 0 n) -> (0 <= f k)%Q)
    by (intros k Hk; apply in_seq in Hk; apply E; lia).
  induction (seq 0 n) as [| k l IH]; simpl.
  - apply Qle_refl.
  - replace 0%Q with (0 + 0)%Q by reflexivity.
    apply Qplus_le_compat; [apply G; now left |].
    apply IH. intros k' Hk'. apply G. now right.
Qed.

(** A sum of non-negative rationals one of which is positive is
    positive. *)
Lemma sum_range_positive (n : nat) (f : nat -> Q) (k0 : nat) :
  (forall k, k < n -> (0 <= f k)%Q) -> k0 < n -> (0 < f k0)%Q ->
  (0 < sum_range n f)%Q.
Proof.
  unfold sum_range. intros E Hk0 Hpos.
  assert (G : forall k, In k (seq 0 n) -> (0 <= f k)%Q)
    by (intros k Hk; apply in_seq in Hk; apply E; lia).
  assert (I : In k0 (seq 0 n)) by (apply in_seq; lia).
  induction (seq 0 n) as [| k l IH]; simpl.
  - destruct I.
  - assert (T : (0 <= fold_right (fun k acc => d_add (f k) acc) d_zero l)%Q).
    { clear IH I. induction l as [| k' l IH]; simpl.
      - apply Qle_refl.
      - replace 0%Q with (0 + 0)%Q by reflexivity.
        apply Qplus_le_compat; [apply G; right; now left |].
        apply IH. intros k'' [-> | Hk'']; apply G;
          [now left | right; now right]. }
    destruct I as [-> | I].
    + cbn [d_add d_zero float_dtype] in *. lra.
    + assert (P : (0 < fold_right (fun k acc => d_add (f k) acc) d_zero l)%Q).
      { apply IH; [| exact I]. intros k' Hk'. apply G. now right. }
      assert (N : (0 <= f k)%Q) by (apply G; now left).
      cbn [d_add d_zero float_dtype] in *. lra.
Qed.

End SumFacts.

(* ================================================================== *)
(** * Binning *)
(* ================================================================== *)

Section Binning.

Import Np Registration.

Lemma item_divide_scalar (a : ndarray Q) (s : Q) (r c : nat) :
  r * ncols a + c < length (data a) ->
  item (divide_scalar a s) r c = (item a r c / s)%Q.
Proof.
  intros L. unfold item, divide_scalar. simpl.
  rewrite (nth_indep _ 0%Q ((fun v => v / s)%Q 0%Q))
    by now rewrite length_map.
  now rewrite (map_nth (fun v => (v / s)%Q)).
Qed.

(** The reshape to (256, f, 256, f) succeeds exactly on 256*f*256*f
    samples. *)
Lemma bin_image_value (frame : ndarray Q) (f : nat) :
  nrows frame * ncols frame = 256 * f * 256 * f ->
  bin_image frame f
  = Ok (divide_scalar
          (np_sum_axes_1_3 (mk_ndarray4 (256, f, 256, f) (data frame)))
          (inject_Z (Z.of_nat (f * f)))).
Proof.
  intros E. unfold bin_image, np_reshape4.
  apply Nat.eqb_eq in E. rewrite E. reflexivity.
Qed.

Lemma bin_image_sample (frame : ndarray Q) (f a c : nat) :
  nrows frame = 256 * f -> ncols frame = 256 * f ->
  a < 256 -> c < 256 ->
  item (divide_scalar
          (np_sum_axes_1_3 (mk_ndarray4 (256, f, 256, f) (data frame)))
          (inject_Z (Z.of_nat (f * f)))) a c
  = block_mean frame f a c.
Proof.
  intros Hr Hc Ha Hcc.
  rewrite item_divide_scalar.
  - unfold np_sum_axes_1_3. cbn [dims].
    rewrite item_fromfunction by assumption.
    unfold block_mean. f_equal.
    apply sum_range_ext. intros b Hb.
    apply sum_range_ext. intros d Hd.
    unfold item4, item. cbn [dims data4]. rewrite Hc. f_equal. lia.
  - unfold np_sum_axes_1_3. cbn [dims].
    rewrite fromfunction_length. cbn [ncols fromfunction]. nia.
Qed.

End Binning.

(* ================================================================== *)
(** * Binning on float64 samples *)
(* ================================================================== *)

Section RealSums.

Local Open Scope R_scope.

Lemma Rsum_app (l1 l2 : list R) : Rsum (l1 ++ l2) = Rsum l1 + Rsum l2.
Proof.
  induction l1 as [| x l1 IH]; simpl; [lra | rewrite IH; lra].
Qed.

Lemma Rsum_permutation (l1 l2 : list R) :
  Permutation l1 l2 -> Rsum l1 = Rsum l2.
Proof.
  induction 1; simpl; lra.
Qed.

Lemma Rsum_bound {A : Type} (g : A -> R) (M : R) (l : list A) :
  (forall a, In a l -> Rabs (g a) <= M) ->
  Rabs (Rsum (map g l)) <= INR (length l) * M.
Proof.
  induction l as [| a l IH]; intros Hg.
  - simpl. rewrite Rabs_R0. lra.
  - cbn [map Rsum fold_right length]. rewrite S_INR.
    assert (Ha := Hg a (or_introl eq_refl)).
    assert (Hl := IH (fun b Hb => Hg b (or_intror Hb))).
    unfold Rsum in Hl.
    apply abs_le_elim in Ha, Hl. apply abs_le_intro. split; lra.
Qed.

Lemma Rsum_constant {A : Type} (g : A -> R) (v : R) (l : list A) :
  (forall a, In a l -> g a = v) ->
  Rsum (map g l) = INR (length l) * v.
Proof.
  induction l as [| a l IH]; intros Hg.
  - simpl. lra.
  - cbn [map Rsum fold_right length]. rewrite S_INR.
    rewrite (Hg a (or_introl eq_refl)).
    assert (Hl := IH (fun b Hb => Hg b (or_intror Hb))).
    unfold Rsum in Hl. rewrite Hl. lra.
Qed.

End RealSums.

Section SummationError.

Import Float Binary64 Np Binary64Arrays.
Local Open Scope R_scope.

Context (rnd : R -> float64) `{Rounding rnd}.

Lemma terms_length (s : summation) :
  length (terms s) = S (additions s).
Proof.
  induction s as [j l | s1 IH1 s2 IH2]; simpl; [reflexivity |].
  rewrite length_app, IH1, IH2. lia.
Qed.

Lemma one_plus_u_pow_ge_1 (k : nat) : 1 <= (1 + UNIT_ROUNDOFF) ^ k.
Proof.
  apply pow_R1_Rle. assert (U := UNIT_ROUNDOFF_pos). lra.
Qed.

Lemma one_plus_u_pow_le (k m : nat) :
  (k <= m)%nat -> (1 + UNIT_ROUNDOFF) ^ k <= (1 + UNIT_ROUNDOFF) ^ m.
Proof.
  intros L. apply Rle_pow; [| exact L].
  assert (U := UNIT_ROUNDOFF_pos). lra.
Qed.

(** While 2 k u <= 1, (1 + u)^k <= 1 + 2 k u. *)
Lemma one_plus_u_pow_bound (k : nat) :
  INR k <= 2 ^ 52 ->
  (1 + UNIT_ROUNDOFF) ^ k <= 1 + 2 * INR k * UNIT_ROUNDOFF.
Proof.
  rewrite UNIT_ROUNDOFF_value.
  induction k as [| k IH]; intros Hk.
  - simpl. lra.
  - rewrite S_INR in *. assert (K := pos_INR k).
    assert (IH' := IH ltac:(lra)).
    cbn [pow].
    set (P := (1 + / 9007199254740992) ^ k) in *.
    assert (P1 : 1 <= P).
    { unfold P. apply pow_R1_Rle. lra. }
    apply Rle_trans
      with ((1 + / 9007199254740992)
            * (1 + 2 * INR k * / 9007199254740992)).
    + apply Rmult_le_compat_l; lra.
    + lra.
Qed.

(** The sum computed in any order: it is a number, off the exact sum by
    no more than the budget of the order allows. *)
Lemma summed_error (get : nat -> nat -> float64) (M : R)
    (s : summation) :
  0 <= M ->
  (forall j l, In (j, l) (terms s) ->
     exists x : R, get j l = Fin x /\ Rabs x <= M) ->
  budget M s <= MAX_FINITE ->
  exists v : R,
    summed rnd get s = Fin v
    /\ Rabs (v - Rsum (map (fun jl => value (get (fst jl) (snd jl)))
                        (terms s)))
       <= budget M s - INR (length (terms s)) * M.
Proof.
  intros M0.
  assert (U := UNIT_ROUNDOFF_pos). assert (E := HALF_SUBNORMAL_pos).
  induction s as [j l | s1 IH1 s2 IH2]; intros Hget Hb.
  - destruct (Hget j l (or_introl eq_refl)) as (x & Ex & Bx).
    exists x. split; [exact Ex |].
    unfold budget. cbn [terms additions map Rsum fold_right length pow fst snd].
    rewrite Ex. cbn [value INR].
    replace (x - (x + 0)) with 0 by ring. rewrite Rabs_R0. lra.
  - unfold budget in *.
    cbn [terms additions] in *.
    rewrite length_app, plus_INR, S_INR, plus_INR in *.
    rewrite map_app, Rsum_app.
    set (kl := additions s1) in *. set (kr := additions s2) in *.
    set (nl := INR (length (terms s1))) in *.
    set (nr := INR (length (terms s2))) in *.
    assert (Nl : 0 <= nl) by apply pos_INR.
    assert (Nr : 0 <= nr) by apply pos_INR.
    assert (Kl : 0 <= INR kl) by apply pos_INR.
    assert (Kr : 0 <= INR kr) by apply pos_INR.
    set (h := HALF_SUBNORMAL) in *.
    set (Cl := nl * M + INR kl * h) in *.
    set (Cr := nr * M + INR kr * h) in *.
    assert (Cl0 : 0 <= Cl).
    { unfold Cl. assert (0 <= nl * M) by now apply Rmult_le_pos.
      assert (0 <= INR kl * h) by (apply Rmult_le_pos; lra). lra. }
    assert (Cr0 : 0 <= Cr).
    { unfold Cr. assert (0 <= nr * M) by now apply Rmult_le_pos.
      assert (0 <= INR kr * h) by (apply Rmult_le_pos; lra). lra. }
    cbn [pow] in *.
    set (P := (1 + UNIT_ROUNDOFF) ^ (kl + kr)) in *.
    assert (P1 : 1 <= P) by apply one_plus_u_pow_ge_1.
    assert (Pl : (1 + UNIT_ROUNDOFF) ^ kl <= P)
      by (apply one_plus_u_pow_le; lia).
    assert (Pr : (1 + UNIT_ROUNDOFF) ^ kr <= P)
      by (apply one_plus_u_pow_le; lia).
    assert (Bl : (1 + UNIT_ROUNDOFF) ^ kl * Cl <= P * Cl)
      by now apply Rmult_le_compat_r.
    assert (Br : (1 + UNIT_ROUNDOFF) ^ kr * Cr <= P * Cr)
      by now apply Rmult_le_compat_r.
    assert (PCl : 0 <= P * Cl) by (apply Rmult_le_pos; lra).
    assert (PCr : 0 <= P * Cr) by (apply Rmult_le_pos; lra).
    assert (Ph : h <= P * h).
    { rewrite <- (Rmult_1_l h) at 1. apply Rmult_le_compat_r; lra. }
    assert (Hb' : (1 + UNIT_ROUNDOFF) * (P * Cl + P * Cr + P * h)
                  <= MAX_FINITE).
    { eapply Rle_trans; [| exact Hb]. right. unfold Cl, Cr. ring. }
    assert (UP : 0 <= UNIT_ROUNDOFF * (P * Cl + P * Cr + P * h)).
    { apply Rmult_le_pos; lra. }
    destruct IH1 as (vl & El & Rl).
    { intros j l Hin. apply Hget, in_or_app. now left. }
    { lra. }
    destruct IH2 as (vr & Er & Rr).
    { intros j l Hin. apply Hget, in_or_app. now right. }
    { lra. }
    set (Sl := Rsum (map (fun jl => value (get (fst jl) (snd jl)))
                       (terms s1))) in *.
    set (Sr := Rsum (map (fun jl => value (get (fst jl) (snd jl)))
                       (terms s2))) in *.
    assert (SlB : Rabs Sl <= nl * M).
    { unfold Sl, nl. apply Rsum_bound. intros [j l] Hin.
      destruct (Hget j l) as (x & Ex & Bx); [apply in_or_app; now left |].
      cbn [fst snd]. now rewrite Ex. }
    assert (SrB : Rabs Sr <= nr * M).
    { unfold Sr, nr. apply Rsum_bound. intros [j l] Hin.
      destruct (Hget j l) as (x & Ex & Bx); [apply in_or_app; now right |].
      cbn [fst snd]. now rewrite Ex. }
    apply abs_le_elim in Rl, Rr, SlB, SrB.
    assert (UPl : 0 <= UNIT_ROUNDOFF * (P * Cl)) by (apply Rmult_le_pos; lra).
    assert (UPr : 0 <= UNIT_ROUNDOFF * (P * Cr)) by (apply Rmult_le_pos; lra).
    assert (UPh : 0 <= UNIT_ROUNDOFF * (P * h)).
    { apply Rmult_le_pos; [lra |]. apply Rmult_le_pos; lra. }
    assert (Z : Rabs (vl + vr) <= P * Cl + P * Cr).
    { apply abs_le_intro. split; lra. }
    destruct (rnd_finite (vl + vr)) as (v & Ev & _ & Rv).
    { lra. }
    exists v. split.
    + cbn [summed]. rewrite El, Er. exact Ev.
    + assert (Rv' : Rabs (v - (vl + vr))
                    <= UNIT_ROUNDOFF * (P * Cl + P * Cr) + h).
      { eapply Rle_trans; [exact Rv |].
        apply Rplus_le_compat_r, Rmult_le_compat_l; lra. }
      apply abs_le_elim in Rv'. apply abs_le_intro.
      replace ((1 + UNIT_ROUNDOFF) * P * ((nl + nr) * M + (INR kl + INR kr + 1) * h))
        with ((1 + UNIT_ROUNDOFF) * (P * Cl + P * Cr + P * h))
        by (unfold Cl, Cr; ring).
      split; lra.
Qed.

End SummationError.

Section RoundedBinning.

Import Float Binary64 Np Binary64Arrays.

Context (rnd : R -> float64) `{Rounding rnd}.

Local Abbreviation item := (@item float64 (float64_dtype rnd)).
Local Abbreviation item4 := (@item4 float64 (float64_dtype rnd)).

Lemma item_divide_scalar_rounded (a : ndarray float64) (s : float64)
    (r c : nat) :
  r * ncols a + c < length (data a) ->
  item (divide_scalar rnd a s) r c = fdiv rnd (item a r c) s.
Proof.
  intros L. unfold Np.item, divide_scalar. cbn [data ncols d_zero float64_dtype].
  set (g := fun v => fdiv rnd v s).
  rewrite (nth_indep _ (Fin 0) (g (Fin 0))) by now rewrite length_map.
  now rewrite (map_nth g).
Qed.

Lemma bin_image_rounded_value (order : nat -> nat -> summation)
    (frame : ndarray float64) (f : nat) :
  nrows frame * ncols frame = 256 * f * 256 * f ->
  bin_image rnd order frame f
  = Ok (divide_scalar rnd
          (np_sum_axes_1_3 rnd order
             (mk_ndarray4 (256, f, 256, f) (data frame)))
          (rnd (INR (f * f)))).
Proof.
  intros E. unfold bin_image, np_reshape4.
  apply Nat.eqb_eq in E. rewrite E. reflexivity.
Qed.

(** The sample [(a, c)] of the binned frame: the block at
    [(a * f, c * f)] summed in the order [order a c] and divided. *)
Lemma bin_image_rounded_sample (order : nat -> nat -> summation)
    (frame : ndarray float64) (f a c : nat) :
  1 <= f -> ncols frame = 256 * f -> a < 256 -> c < 256 ->
  item (divide_scalar rnd
          (np_sum_axes_1_3 rnd order
             (mk_ndarray4 (256, f, 256, f) (data frame)))
          (rnd (INR (f * f)))) a c
  = fdiv rnd
      (summed rnd (fun j l => item frame (a * f + j) (c * f + l))
         (order a c))
      (rnd (INR (f * f))).
Proof.
  intros Hf Hc Ha Hcc.
  rewrite item_divide_scalar_rounded.
  - unfold np_sum_axes_1_3. cbn [dims].
    rewrite (item_fromfunction (H := float64_dtype rnd)) by assumption.
    destruct (Nat.eqb_spec (f * f) 0) as [Z | _]; [nia |].
    f_equal.
    assert (G : forall j l,
               item4 (mk_ndarray4 (256, f, 256, f) (data frame)) a j c l
               = item frame (a * f + j) (c * f + l)).
    { intros j l. unfold Np.item4, Np.item. cbn [dims data4].
      rewrite Hc. f_equal. ring. }
    generalize (order a c). intros s.
    induction s as [j l | s1 IH1 s2 IH2]; cbn [summed].
    + apply G.
    + now rewrite IH1, IH2.
  - unfold np_sum_axes_1_3. cbn [dims].
    rewrite fromfunction_length. cbn [ncols fromfunction]. nia.
Qed.

End RoundedBinning.

Section RoundedMeans.

Import Float Binary64 Np Binary64Arrays.

Context (rnd : R -> float64) `{Rounding rnd}.

Local Abbreviation item := (@item float64 (float64_dtype rnd)).

Lemma block_length (f : nat) : length (block f) = f * f.
Proof. unfold block. now rewrite length_prod, length_seq. Qed.

Lemma block_in (f j l : nat) : In (j, l) (block f) -> j < f /\ l < f.
Proof.
  unfold block. rewrite in_prod_iff, !in_seq. lia.
Qed.

Local Open Scope R_scope.

Lemma pow2_26 : 2 ^ 26 = 67108864.
Proof. rewrite pow_IZR. reflexivity. Qed.

Lemma bin_factor_size (f : nat) :
  (1 <= f)%nat -> INR f <= 2 ^ 26 ->
  1 <= INR (f * f) <= 4503599627370496.
Proof.
  intros Hf U. rewrite pow2_26 in U. rewrite mult_INR.
  assert (L : 1 <= INR f) by (apply (le_INR 1); lia).
  split; nra.
Qed.

Lemma rnd_bin_factor_squared (f : nat) :
  INR f <= 2 ^ 26 -> rnd (INR (f * f)) = Fin (INR (f * f)).
Proof.
  intros U. rewrite pow2_26, INR_IZR_INZ in U. apply le_IZR in U.
  rewrite INR_IZR_INZ. apply rnd_integer.
  rewrite Z.abs_eq by lia.
  apply Z.le_trans with (67108864 * 67108864)%Z; [nia |].
  vm_compute. discriminate.
Qed.

Lemma mean_bound (S M n : R) :
  0 < n -> Rabs S <= n * M -> Rabs (S / n) <= M.
Proof.
  intros Hn HS.
  replace (S / n) with (S / n - 0) by ring.
  apply div_error; [exact Hn |].
  replace (S - 0 * n) with S by ring. now rewrite Rmult_comm.
Qed.

(** One sample of the binned frame: the mean of its block, within the
    tolerance. *)
Lemma block_mean_error (order : nat -> nat -> summation)
    (frame : ndarray float64) (f : nat) (M : R) (a c : nat) :
  (1 <= f)%nat -> INR f <= 2 ^ 26 ->
  nrows frame = (256 * f)%nat -> ncols frame = (256 * f)%nat ->
  adds_each_sample_once f order ->
  samples_within rnd frame M -> INR (f * f) * M <= 10 ^ 307 ->
  (a < 256)%nat -> (c < 256)%nat ->
  exists r : R,
    fdiv rnd
      (summed rnd (fun j l => item frame (a * f + j) (c * f + l))
         (order a c))
      (rnd (INR (f * f)))
    = Fin r
    /\ Rabs (r - mean_of_block rnd frame f a c) <= mean_tolerance f M.
Proof.
  intros Hf Hf' Hr Hc Hord Hs HM Ha Hcc.
  assert (U := UNIT_ROUNDOFF_value).
  assert (Hn := bin_factor_size f Hf Hf').
  rewrite (rnd_bin_factor_squared f Hf').
  specialize (Hord a c).
  set (s := order a c) in *.
  set (get := fun j l => item frame (a * f + j) (c * f + l)).
  assert (Hget : forall j l, In (j, l) (terms s) ->
                 exists x : R, get j l = Fin x /\ Rabs x <= M).
  { intros j l Hin.
    apply (Permutation_in _ Hord), block_in in Hin.
    apply Hs; nia. }
  assert (M0 : 0 <= M).
  { destruct (Hs 0%nat 0%nat) as (x & _ & Bx); [lia | lia |].
    assert (A := Rabs_pos x). lra. }
  assert (Len : length (terms s) = (f * f)%nat).
  { rewrite (Permutation_length Hord). apply block_length. }
  assert (Add : INR (additions s) = INR (f * f) - 1).
  { assert (T := terms_length s). rewrite Len in T.
    rewrite T, S_INR. ring. }
  set (n := INR (f * f)) in *.
  set (h := HALF_SUBNORMAL).
  set (Y := n * M) in *.
  assert (Y0 : 0 <= Y) by (apply Rmult_le_pos; lra).
  assert (YM : M <= Y).
  { unfold Y. rewrite <- (Rmult_1_l M) at 1.
    apply Rmult_le_compat_r; lra. }
  assert (Yhi : Y <= 4503599627370496 * M).
  { unfold Y. apply Rmult_le_compat_r; lra. }
  assert (h0 : 0 < h) by apply HALF_SUBNORMAL_pos.
  assert (hv : h = / 2 ^ 1075) by reflexivity.
  (* the budget of the order *)
  assert (Pk : (1 + UNIT_ROUNDOFF) ^ additions s
               <= 1 + 2 * (n - 1) * UNIT_ROUNDOFF).
  { rewrite <- Add. apply one_plus_u_pow_bound. rewrite Add. lra. }
  assert (P1 := one_plus_u_pow_ge_1 (additions s)).
  set (P := (1 + UNIT_ROUNDOFF) ^ additions s) in *.
  set (W := Y + (n - 1) * h).
  assert (Wv : W = Y + (n - 1) * h) by reflexivity.
  assert (W0 : 0 <= W).
  { unfold W. assert (0 <= (n - 1) * h) by (apply Rmult_le_pos; lra). lra. }
  assert (Bv : budget M s = P * W).
  { unfold budget, P, W, Y, h. rewrite Len, Add. reflexivity. }
  set (g := 2 * (n - 1) * UNIT_ROUNDOFF) in *.
  assert (g0 : 0 <= g <= 1).
  { unfold g. rewrite U. split; lra. }
  assert (A1 : P * W <= (1 + g) * W)
    by (apply Rmult_le_compat_r; assumption).
  assert (A2 : g * ((n - 1) * h) <= (n - 1) * h).
  { rewrite <- (Rmult_1_l ((n - 1) * h)) at 2.
    apply Rmult_le_compat_r; [apply Rmult_le_pos |]; lra. }
  assert (A3 : n * h <= 4503599627370496 * h)
    by (apply Rmult_le_compat_r; lra).
  assert (gY : g * Y = 2 * UNIT_ROUNDOFF * (n * Y) - 2 * UNIT_ROUNDOFF * Y)
    by (unfold g; ring).
  assert (nY : n * Y <= 4503599627370496 * Y)
    by (apply Rmult_le_compat_r; lra).
  assert (gW : g * W = g * Y + g * ((n - 1) * h)) by (unfold W; ring).
  assert (nh : (n - 1) * h = n * h - h) by ring.
  destruct (summed_error rnd get M s M0 Hget) as (v & Ev & Rv).
  { rewrite Bv. unfold MAX_FINITE. rewrite U in gY. rewrite hv in *. lra. }
  rewrite Len in Rv. fold n in Rv. fold Y in Rv. rewrite Bv in Rv.
  set (S := Rsum (map (fun jl => value (get (fst jl) (snd jl))) (terms s)))
    in *.
  assert (Smean : mean_of_block rnd frame f a c = S / n).
  { unfold mean_of_block, S. fold n. f_equal.
    apply Rsum_permutation, Permutation_map, Permutation_sym, Hord. }
  assert (SB : Rabs S <= n * M).
  { unfold S, n. rewrite <- Len. apply Rsum_bound. intros [j l] Hin.
    destruct (Hget j l Hin) as (x & Ex & Bx).
    cbn [fst snd]. now rewrite Ex. }
  rewrite Smean.
  (* the quotient before its rounding *)
  set (E' := 2 * UNIT_ROUNDOFF * (Y - M) + 2 * h).
  assert (D : Rabs (v / n - S / n) <= E').
  { apply div_error; [lra |].
    replace (S / n * n) with S by (field; lra).
    eapply Rle_trans; [exact Rv |].
    replace (E' * n)
      with (2 * UNIT_ROUNDOFF * (n * Y) - 2 * UNIT_ROUNDOFF * Y + 2 * (n * h))
      by (unfold E', Y; ring).
    lra. }
  assert (Mn := mean_bound S M n ltac:(lra) SB).
  assert (Z : Rabs (v / n) <= M + E').
  { apply abs_le_elim in D, Mn. apply abs_le_intro. split; lra. }
  assert (E'0 : 0 <= E') by (unfold E'; rewrite U; lra).
  destruct (rnd_finite (v / n)) as (r & Er & _ & Rr).
  { eapply Rle_trans; [exact Z |].
    unfold E', MAX_FINITE. rewrite U, hv. lra. }
  exists r. split.
  - fold get. rewrite Ev. unfold fdiv.
    destruct (Req_dec_T n 0) as [N | _]; [lra | exact Er].
  - assert (Rr' : Rabs (r - v / n) <= UNIT_ROUNDOFF * (M + E') + h).
    { eapply Rle_trans; [exact Rr |].
      apply Rplus_le_compat_r, Rmult_le_compat_l; [rewrite U; lra | exact Z]. }
    unfold mean_tolerance. fold n h.
    replace (n * / 2 ^ 52 * M) with (/ 2 ^ 52 * Y) by (unfold Y; ring).
    apply abs_le_elim in D, Rr'. apply abs_le_intro.
    unfold E' in *. rewrite U in *. split; lra.
Qed.

End RoundedMeans.

Section RoundedBinningTheorem.

Import Float Binary64 Np Binary64Arrays.

Context (rnd : R -> float64) `{Rounding rnd}.

Local Abbreviation item := (@item float64 (float64_dtype rnd)).

Local Open Scope R_scope.

(** C3, amended.  For every square float64 frame of side N = 256 * f with
    1 <= f <= 2^26, whose samples are numbers of magnitude at most
    M with f*f * M <= 1e307, whatever the rounding and the order in which
    NumPy adds the samples of a block, [bin_image] returns a frame of
    side 256 = N / f whose sample (a, c) is a number within
    f*f * 2^-52 * M + 2^-1073 of the mean of the f-by-f block at
    (a*f, c*f); binning a uniform frame of value v gives samples within
    f*f * 2^-52 * |v| + 2^-1073 of v. *)
Theorem bin_image_block_means_within_rounding
    (order : nat -> nat -> summation) (frame : ndarray float64)
    (f : nat) (M : R) :
  (1 <= f)%nat -> INR f <= 2 ^ 26 ->
  nrows frame = (256 * f)%nat -> ncols frame = (256 * f)%nat ->
  adds_each_sample_once f order ->
  samples_within rnd frame M -> INR (f * f) * M <= 10 ^ 307 ->
  exists out : ndarray float64,
    bin_image rnd order frame f = Ok out
    /\ nrows out = (nrows frame / f)%nat
    /\ ncols out = (ncols frame / f)%nat
    /\ (forall a c, (a < 256)%nat -> (c < 256)%nat ->
          exists r : R,
            item out a c = Fin r
            /\ Rabs (r - mean_of_block rnd frame f a c) <= mean_tolerance f M)
    /\ (forall v : R,
          (forall r c, (r < 256 * f)%nat -> (c < 256 * f)%nat ->
                       item frame r c = Fin v) ->
          forall a c, (a < 256)%nat -> (c < 256)%nat ->
            exists r : R,
              item out a c = Fin r
              /\ Rabs (r - v) <= mean_tolerance f (Rabs v)).
Proof.
  intros Hf Hf' Hr Hc Hord Hs HM. eexists. split.
  - apply bin_image_rounded_value. rewrite Hr, Hc. lia.
  - assert (Hdiv : (256 * f / f = 256)%nat) by (apply Nat.div_mul; lia).
    split; [now rewrite Hr, Hdiv |]. split; [now rewrite Hc, Hdiv |].
    split.
    + intros a c Ha Hcc.
      rewrite bin_image_rounded_sample by (assumption || lia).
      now apply block_mean_error.
    + intros v Hv a c Ha Hcc.
      rewrite bin_image_rounded_sample by (assumption || lia).
      assert (Hsv : samples_within rnd frame (Rabs v)).
      { intros r c' Hr' Hc'. exists v. split; [| apply Rle_refl].
        apply Hv; lia. }
      assert (Bv : INR (f * f) * Rabs v <= 10 ^ 307).
      { destruct (Hs 0%nat 0%nat) as (x & Ex & Bx); [lia | lia |].
        rewrite Hv in Ex by lia. injection Ex as <-.
        eapply Rle_trans; [| exact HM].
        apply Rmult_le_compat_l; [apply pos_INR | exact Bx]. }
      destruct (block_mean_error rnd order frame f (Rabs v) a c
                  Hf Hf' Hr Hc Hord Hsv Bv Ha Hcc) as (r & Er & Rr).
      exists r. split; [exact Er |].
      replace v with (mean_of_block rnd frame f a c) at 1; [exact Rr |].
      unfold mean_of_block.
      rewrite (Rsum_constant _ v).
      * rewrite block_length.
        assert (N := bin_factor_size f Hf Hf'). field. lra.
      * intros [j l] Hin. apply block_in in Hin. cbn [fst snd].
        rewrite Hv by nia. reflexivity.
Qed.

End RoundedBinningTheorem.

Section RoundedBinningWitness.

Import Float Binary64 Np Binary64Arrays.

Local Abbreviation item := (@Np.item float64 (float64_dtype range_only)).

#[local] Existing Instance range_only_rounding.

Local Open Scope R_scope.

Lemma item_full_rounded (rnd : R -> float64) (nr nc : nat) (v : float64)
    (r c : nat) :
  (r < nr)%nat -> (c < nc)%nat ->
  @Np.item float64 (float64_dtype rnd) (full nr nc v) r c = v.
Proof.
  intros Hr Hc. unfold Np.item, full. cbn [data ncols].
  apply nth_repeat_lt. nia.
Qed.

Lemma uniform_frame_samples (rnd : R -> float64) (n : nat) (v : R) :
  samples_within rnd (full n n (Fin v)) (Rabs v).
Proof.
  intros r c Hr Hc. exists v. split; [| apply Rle_refl].
  now apply item_full_rounded.
Qed.

Lemma bin_image_block_means_within_rounding_witness :
  exists out : ndarray float64,
    bin_image range_only pairwise_2_by_2 (full 512 512 (Fin (7 / 2))) 2
    = Ok out
    /\ nrows out = (nrows (full 512 512 (Fin (7 / 2))) / 2)%nat
    /\ ncols out = (ncols (full 512 512 (Fin (7 / 2))) / 2)%nat
    /\ (forall a c, (a < 256)%nat -> (c < 256)%nat ->
          exists r : R,
            item out a c = Fin r
            /\ Rabs (r - mean_of_block range_only
                           (full 512 512 (Fin (7 / 2))) 2 a c)
               <= mean_tolerance 2 (Rabs (7 / 2)))
    /\ (forall v : R,
          (forall r c, (r < 256 * 2)%nat -> (c < 256 * 2)%nat ->
                       item (full 512 512 (Fin (7 / 2))) r c = Fin v) ->
          forall a c, (a < 256)%nat -> (c < 256)%nat ->
            exists r : R,
              item out a c = Fin r
              /\ Rabs (r - v) <= mean_tolerance 2 (Rabs v)).
Proof.
  apply (@bin_image_block_means_within_rounding range_only
           range_only_rounding pairwise_2_by_2
           (full 512 512 (Fin (7 / 2))) 2 (Rabs (7 / 2))).
  - lia.
  - simpl. lra.
  - reflexivity.
  - reflexivity.
  - intros i k. apply Permutation_refl.
  - apply uniform_frame_samples.
  - rewrite Rabs_pos_eq by lra.
    apply Rle_trans with (10 ^ 2); [simpl; lra |].
    apply Rle_pow; [lra | lia].
Defined.

(** A uniform frame of side 512 whose samples are 2^1023: the sum of a
    block overflows, and the binned sample is [inf]. *)
Lemma bin_image_overflow_sample :
  exists out : ndarray float64,
    bin_image range_only pairwise_2_by_2 (full 512 512 (Fin (2 ^ 1023))) 2
    = Ok out
    /\ item out 0 0 = PInf.
Proof.
  eexists. split.
  - apply bin_image_rounded_value. unfold full. cbn [nrows ncols]. lia.
  - rewrite (bin_image_rounded_sample range_only) by (reflexivity || lia).
    unfold pairwise_2_by_2. cbn [summed].
    rewrite !item_full_rounded by lia.
    cbn [fadd].
    assert (O : OVERFLOW <= 2 ^ 1023 + 2 ^ 1023).
    { unfold OVERFLOW. lra. }
    rewrite (rnd_overflow (rnd := range_only) _ O). cbn [fadd].
    rewrite (rnd_bin_factor_squared range_only 2) by (simpl; lra).
    cbn [fdiv]. unfold signed_like.
    destruct (Rlt_dec (INR (2 * 2)) 0) as [N | _]; [| reflexivity].
    assert (P := pos_INR (2 * 2)). lra.
Qed.

(** C3 as worded fails: a frame of side 8 and the bin factor 2, which
    divides 8, make the reshape to (256, 2, 256, 2) raise; and in a frame
    of side 512 whose samples are 2^1023 the sum of a block overflows, so
    that the binned samples are [inf] and not the mean 2^1023. *)
Lemma bin_image_side_8_and_overflow :
  bin_image range_only pairwise_2_by_2 (full 8 8 (Fin 1)) 2
  = Raise ValueError
  /\ ~ bins_every_divisible_frame range_only pairwise_2_by_2 8 2
         (full 8 8 (Fin 1)) 1
  /\ ~ bins_every_divisible_frame range_only pairwise_2_by_2 512 2
         (full 512 512 (Fin (2 ^ 1023))) (2 ^ 1023).
Proof.
  assert (E : bin_image range_only pairwise_2_by_2 (full 8 8 (Fin 1)) 2
              = Raise ValueError) by reflexivity.
  split; [exact E |]. split.
  - intros C. destruct C as (out & Hout & _).
    + reflexivity.
    + reflexivity.
    + intros r c Hr Hc. exists 1. split; [now apply item_full_rounded |].
      rewrite Rabs_R1. lra.
    + lia.
    + exists 4%nat. reflexivity.
    + rewrite E in Hout. discriminate Hout.
  - intros C. destruct C as (out & Hout & _ & _ & Hmean).
    + reflexivity.
    + reflexivity.
    + assert (P := pow2_pos 1023).
      rewrite <- (Rabs_pos_eq (2 ^ 1023)) at 2 by lra.
      apply uniform_frame_samples.
    + lia.
    + exists 256%nat. reflexivity.
    + destruct bin_image_overflow_sample as (out' & Hout' & Hinf).
      rewrite Hout in Hout'. injection Hout' as <-.
      destruct (Hmean 0%nat 0%nat) as (r & Er & _).
      * apply Nat.div_str_pos. lia.
      * apply Nat.div_str_pos. lia.
      * rewrite Hinf in Er. discriminate Er.
Qed.

End RoundedBinningWitness.

(* ================================================================== *)
(** * The tile loop *)
(* ================================================================== *)

Section PythonLists.

Import Tiling.

Context {A : Type}.

Lemma py_last_snoc (l : list A) (v : A) : py_last (l ++ [v]) = Ok v.
Proof. unfold py_last. now rewrite rev_unit. Qed.

Lemma py_last_snoc2 (l : list A) (u v : A) : py_last (l ++ [u; v]) = Ok v.
Proof.
  change (l ++ [u; v]) with (l ++ [u] ++ [v]).
  now rewrite app_assoc, py_last_snoc.
Qed.

Lemma py_second_last_snoc (l : list A) (u v : A) :
  py_second_last (l ++ [u; v]) = Ok u.
Proof.
  unfold py_second_last.
  change (l ++ [u; v]) with (l ++ [u] ++ [v]).
  now rewrite app_assoc, !rev_unit.
Qed.

Lemma py_set_last_snoc (l : list A) (u v : A) :
  py_set_last (l ++ [u]) v = l ++ [v].
Proof. unfold py_set_last. now rewrite removelast_last. Qed.

Lemma py_set_last_snoc2 (l : list A) (t u v : A) :
  py_set_last (l ++ [t; u]) v = l ++ [t; v].
Proof.
  change (l ++ [t; u]) with (l ++ [t] ++ [u]).
  rewrite app_assoc, py_set_last_snoc. now rewrite <- app_assoc.
Qed.

End PythonLists.

Section Traces.

Import Tiling.

Lemma seams_entered_app (evs1 evs2 : list event) :
  seams_entered (evs1 ++ evs2) = seams_entered evs1 ++ seams_entered evs2.
Proof.
  induction evs1 as [| e evs1 IH]; simpl; [reflexivity |].
  destruct e as [p | | | p | m]; try exact IH.
  destruct m; try exact IH. simpl. now rewrite IH.
Qed.

Lemma acquisitions_app (evs1 evs2 : list event) :
  acquisitions (evs1 ++ evs2) = acquisitions evs1 + acquisitions evs2.
Proof.
  induction evs1 as [| e evs1 IH]; simpl; [reflexivity |].
  destruct e; simpl; now rewrite IH.
Qed.

End Traces.

Section CorrectionLoop.

Import Np Tiling.

Variable M : Microscope.
Variable PIXEL_SIZE : Q.

(** One pass of the loop body on a seam that is out of tolerance: two piezo
    moves, one re-acquisition that replaces the last tile, one more
    attempt counted. *)
Lemma correction_step_out_of_tolerance (st : state M)
    (imgs : list (ndarray Q)) (prev cur : ndarray Q)
    (ads : list AdornedImage) (a : AdornedImage) (d : StagePosition) :
  images_list st = imgs ++ [prev; cur] ->
  adornedImage_list st = ads ++ [a] ->
  desired_abs_stage_pos st = Some d ->
  out_of_tolerance prev cur ->
  exists (w : World M) (evs : list event),
    acquisitions evs = 1
    /\ correction_step M PIXEL_SIZE st
       = if correction_attempts st + 1 =? MAX_CORRECTION_ATTEMPTS
         then Break M (emit M [EvPrint msg_no_solution_found]
                         (corrected st w ads imgs prev evs))
         else Continue M (corrected st w ads imgs prev evs).
Proof.
  intros Himgs Hads Hd (peak & Hpeak & Htol).
  destruct st as [w0 ads0 imgs0 des0 j0 n0 lg0]. simpl in *. subst.
  unfold correction_step. cbn [images_list adornedImage_list].
  rewrite py_second_last_snoc, py_last_snoc2, Hpeak, Htol.
  cbn [emit adornedImage_list desired_abs_stage_pos log world images_list
       var_j correction_attempts].
  rewrite py_last_snoc.
  destruct (negb (Qle_bool (x (stage_position a)) (x d)));
    destruct (negb (Qle_bool (y (stage_position a)) (y d))).
  all: unfold piezo_move, acquire; simpl.
  all: match goal with
       | |- context [acquire_stem_image M ?w] =>
           exists w; destruct (acquire_stem_image M w) as [a' w'] eqn:E
       end.
  all: simpl; rewrite py_set_last_snoc, py_set_last_snoc2.
  all: cbv [corrected emit set_world set_lists set_attempts world
            adornedImage_list images_list desired_abs_stage_pos var_j
            correction_attempts log frame_of].
  all: rewrite E; cbn [fst snd].
  all: rewrite <- !(app_assoc lg0); cbn [app].
  all: match goal with
       | |- context [Continue M (mkState _ _ _ _ _ _ _ (_ ++ ?evs))] =>
           exists evs
       end.
  all: split; [reflexivity |].
  all: rewrite <- (app_assoc lg0); cbn [app]; reflexivity.
Qed.

(** With [k + 1] attempts left in the budget and an instrument that never
    converges, the loop makes exactly [k + 1] corrections and stops. *)
Lemma correction_loop_uses_remaining_budget (prev : ndarray Q) :
  never_converges M prev ->
  forall (k : nat) (st : state M) (imgs : list (ndarray Q)) (cur : ndarray Q)
         (ads : list AdornedImage) (a : AdornedImage) (d : StagePosition)
         (extra : nat),
    images_list st = imgs ++ [prev; cur] ->
    adornedImage_list st = ads ++ [a] ->
    desired_abs_stage_pos st = Some d ->
    out_of_tolerance prev cur ->
    correction_attempts st + S k = MAX_CORRECTION_ATTEMPTS ->
    exists (st' : state M) (evs : list event) (w : World M),
      correction_loop M PIXEL_SIZE (S k + extra) st = Some (Done st')
      /\ correction_attempts st' = MAX_CORRECTION_ATTEMPTS
      /\ log st' = log st ++ evs ++ [EvPrint msg_no_solution_found]
      /\ acquisitions evs = S k
      /\ images_list st'
         = imgs ++ [prev; frame_of (fst (acquire_stem_image M w))]
      /\ adornedImage_list st' = ads ++ [fst (acquire_stem_image M w)]
      /\ world st' = blank M (snd (acquire_stem_image M w)).
Proof.
  intros Hnever k.
  induction k as [| k IH];
    intros st imgs cur ads a d extra Himgs Hads Hd Hout Hbudget;
    destruct (correction_step_out_of_tolerance st imgs prev cur ads a d
                Himgs Hads Hd Hout) as (w & evs & Hacq & Hstep);
    cbn [correction_loop Nat.add]; rewrite Hstep.
  - destruct (Nat.eqb_spec (correction_attempts st + 1)
                MAX_CORRECTION_ATTEMPTS) as [E | N]; [| lia].
    exists (emit M [EvPrint msg_no_solution_found]
              (corrected st w ads imgs prev evs)), evs, w.
    cbn [emit corrected correction_attempts log images_list
         adornedImage_list world].
    repeat split; try assumption.
    now rewrite <- app_assoc.
  - destruct (Nat.eqb_spec (correction_attempts st + 1)
                MAX_CORRECTION_ATTEMPTS) as [E | N]; [lia |].
    set (st1 := corrected st w ads imgs prev evs).
    destruct (IH st1 imgs (frame_of (fst (acquire_stem_image M w))) ads
                (fst (acquire_stem_image M w)) d extra)
      as (st' & evs' & w' & Hloop & Hn & Hlog & Hacq' & Hi & Ha & Hw).
    + reflexivity.
    + reflexivity.
    + unfold st1. cbn [corrected desired_abs_stage_pos]. exact Hd.
    + apply Hnever.
    + unfold st1. cbn [corrected correction_attempts]. lia.
    + exists st', (evs ++ evs'), w'.
      cbn [correction_loop Nat.add] in Hloop. rewrite Hloop.
      repeat split; try assumption.
      * rewrite Hlog. unfold st1. cbn [corrected log].
        now rewrite <- !app_assoc.
      * rewrite acquisitions_app. lia.
Qed.

(** C5.  If the seam estimate of every acquisition is outside the
    tolerance, the correction sub-loop, entered with the attempt counter at
    0, makes exactly 10 corrections (10 re-acquisitions), reports that no
    solution was found and ends, for any fuel of 10 or more; the last tile
    of the list is then the frame of the last acquisition. *)
Theorem correction_loop_exhausts_retry_budget
    (st : state M) (imgs : list (ndarray Q)) (prev cur : ndarray Q)
    (ads : list AdornedImage) (a : AdornedImage) (d : StagePosition) :
  images_list st = imgs ++ [prev; cur] ->
  adornedImage_list st = ads ++ [a] ->
  desired_abs_stage_pos st = Some d ->
  correction_attempts st = 0 ->
  out_of_tolerance prev cur ->
  never_converges M prev ->
  forall fuel : nat, 10 <= fuel ->
  exists (st' : state M) (evs : list event) (w : World M),
    correction_loop M PIXEL_SIZE fuel st = Some (Done st')
    /\ correction_attempts st' = 10
    /\ log st' = log st ++ evs ++ [EvPrint msg_no_solution_found]
    /\ acquisitions evs = 10
    /\ images_list st'
       = imgs ++ [prev; frame_of (fst (acquire_stem_image M w))]
    /\ adornedImage_list st' = ads ++ [fst (acquire_stem_image M w)]
    /\ world st' = blank M (snd (acquire_stem_image M w)).
Proof.
  intros Himgs Hads Hd Hzero Hout Hnever fuel Hfuel.
  replace fuel with (10 + (fuel - 10)) by lia.
  apply (correction_loop_uses_remaining_budget prev Hnever 9 st imgs cur
           ads a d (fuel - 10)); try assumption.
  rewrite Hzero. reflexivity.
Qed.

End CorrectionLoop.

(* ================================================================== *)
(** * An instrument whose stage is stuck *)
(* ================================================================== *)

Section StuckStage.

Import Np Scipy Registration Tiling.

Lemma item_astype_float64 (a : ndarray Z) (r c : nat) :
  item (astype_float64 a) r c = inject_Z (item a r c).
Proof.
  unfold item, astype_float64. cbn [ncols data d_zero float_dtype int_dtype].
  change 0%Q with (inject_Z 0). now rewrite map_nth.
Qed.

Lemma stuck_frame_sample (r c : nat) :
  r < 1024 -> c < 1024 ->
  item (frame_of stuck_image) r c
  = inject_Z (if 1020 <=? c then 1 else 0).
Proof.
  intros Hr Hc. unfold frame_of, stuck_image. cbn [adorned_data].
  rewrite item_astype_float64. unfold stuck_raw_frame.
  now rewrite item_fromfunction.
Qed.

Lemma stuck_frame_binned :
  exists B : ndarray Q,
    bin_image (frame_of stuck_image) 4 = Ok B /\ last_column_bright B.
Proof.
  eexists. split.
  - apply bin_image_value.
    change (1024 * 1024 = 256 * 4 * 256 * 4). lia.
  - split; [reflexivity |]. split; [reflexivity |].
    intros a c Ha Hc.
    rewrite bin_image_sample by (reflexivity || assumption).
    unfold block_mean.
    destruct (Nat.eqb_spec c 255) as [-> | Hne].
    + rewrite (sum_range_constant 4 _ (inject_Z 4 * 1)%Q).
      * reflexivity.
      * intros b Hb. apply sum_range_constant. intros d Hd.
        rewrite stuck_frame_sample by lia.
        destruct (Nat.leb_spec 1020 (255 * 4 + d)); [reflexivity | lia].
    + rewrite (sum_range_constant 4 _ (inject_Z 4 * 0)%Q).
      * reflexivity.
      * intros b Hb. apply sum_range_constant. intros d Hd.
        rewrite stuck_frame_sample by lia.
        destruct (Nat.leb_spec 1020 (c * 4 + d)); [lia | reflexivity].
Qed.

Section BrightColumn.

Variable B : ndarray Q.
Hypothesis bright : last_column_bright B.

Lemma bright_column_template :
  generate_template B OVERLAP_FACTOR = (bright_template B).
Proof.
  destruct bright as (Hr & Hc & _).
  unfold generate_template, Registration.generate_template, bright_template.
  rewrite Hr, Hc.
  replace (slice_start
             (py_int (inject_Z (Z.of_nat 256) * (1 - OVERLAP_FACTOR))%Q) 256)
    with 179 by (vm_compute; reflexivity).
  reflexivity.
Qed.

Lemma bright_term_zero (m u v : nat) :
  m < 180 -> m <> 179 -> u < 256 -> v < 77 ->
  (d_mul (item B (0 + u) (m + v)) (item (bright_template B) u v) == 0)%Q.
Proof.
  intros Hm Hne Hu Hv. destruct bright as (_ & _ & HB).
  unfold bright_template. rewrite item_fromfunction by assumption.
  cbn [d_mul float_dtype Nat.add].
  destruct (Nat.eq_dec v 76) as [-> | Hv76].
  - rewrite (HB u (m + 76)) by lia.
    destruct (Nat.eqb_spec (m + 76) 255); [lia | ring].
  - rewrite (HB u (179 + v)) by lia.
    destruct (Nat.eqb_spec (179 + v) 255); [lia | ring].
Qed.

Lemma bright_term_nonneg (u v : nat) :
  u < 256 -> v < 77 ->
  (0 <= d_mul (item B (0 + u) (179 + v)) (item (bright_template B) u v))%Q.
Proof.
  intros Hu Hv. destruct bright as (_ & _ & HB).
  unfold bright_template. rewrite item_fromfunction by assumption.
  cbn [d_mul float_dtype Nat.add].
  rewrite (HB u (179 + v)) by lia.
  destruct (179 + v =? 255); lra.
Qed.

Lemma bright_score_zero (m : nat) :
  m < 180 -> m <> 179 -> (bright_score B m == 0)%Q.
Proof.
  intros Hm Hne. unfold bright_score.
  apply sum_range_all_zero. intros u Hu.
  apply sum_range_all_zero. intros v Hv.
  now apply bright_term_zero.
Qed.

Lemma bright_score_peak : (0 < bright_score B 179)%Q.
Proof.
  unfold bright_score.
  apply (sum_range_positive 256 _ 0); [| lia |].
  - intros u Hu. apply sum_range_nonneg. intros v Hv.
    now apply bright_term_nonneg.
  - apply (sum_range_positive 77 _ 76); [| lia |].
    + intros v Hv. apply bright_term_nonneg; lia.
    + destruct bright as (_ & _ & HB).
      unfold bright_template. rewrite item_fromfunction by lia.
      cbn [d_mul float_dtype Nat.add].
      rewrite (HB 0 255) by lia. reflexivity.
Qed.

(** The valid correlation peaks 179 columns to the right of the window's
    corner. *)
Lemma bright_column_peak :
  cross_correlate B (generate_template B OVERLAP_FACTOR)
  = Ok (0%Z, 179%Z).
Proof.
  rewrite bright_column_template.
  destruct bright as (Hr & Hc & _).
  unfold cross_correlate, correlate2d.
  cbn [nrows ncols bright_template fromfunction]. rewrite Hr, Hc.
  change ((256 <=? 256) && (77 <=? 256))%bool with true. cbn [rbind].
  set (corr_map := correlate_valid B (bright_template B)).
  assert (Hshape : nrows corr_map = 1 /\ ncols corr_map = 180).
  { unfold corr_map, correlate_valid. cbn [nrows ncols bright_template fromfunction].
    rewrite Hr, Hc. split; reflexivity. }
  destruct Hshape as [Hnr Hnc].
  assert (Hlen : length (data corr_map) = 180).
  { unfold corr_map, correlate_valid. rewrite fromfunction_length.
    cbn [nrows ncols bright_template fromfunction]. rewrite Hr, Hc. reflexivity. }
  assert (Hnth : forall m, m < 180 ->
            nth m (data corr_map) d_zero = bright_score B m).
  { intros m Hm. unfold corr_map, correlate_valid.
    cbn [nrows ncols bright_template fromfunction]. rewrite Hr, Hc.
    change (256 - 256 + 1) with 1. change (256 - 77 + 1) with 180.
    rewrite nth_fromfunction by lia.
    rewrite Nat.div_small, Nat.mod_small by lia. reflexivity. }
  rewrite (np_argmax_strict_max corr_map 179).
  - cbn [rbind]. rewrite Hnr, Hnc. reflexivity.
  - lia.
  - rewrite Hlen. intros m Hm Hne. rewrite !Hnth by lia.
    pose proof (bright_score_zero m Hm Hne) as Z0.
    pose proof bright_score_peak as P.
    cbn [d_ltb float_dtype]. split.
    + destruct (Qle_bool (bright_score B 179) (bright_score B m)) eqn:E; [| reflexivity].
      apply Qle_bool_iff in E. lra.
    + destruct (Qle_bool (bright_score B m) (bright_score B 179)) eqn:E; [reflexivity |].
      exfalso. assert (L : (bright_score B m <= bright_score B 179)%Q) by lra.
      apply Qle_bool_iff in L. congruence.
Qed.

End BrightColumn.

(** The same frame twice fails the acceptance test: the estimate is 179
    binned columns from the window's corner. *)
Lemma stuck_stage_out_of_tolerance :
  out_of_tolerance (frame_of stuck_image) (frame_of stuck_image).
Proof.
  destruct stuck_frame_binned as (B & HB & Hbright).
  exists (0%Z, 179%Z). split; [| reflexivity].
  unfold estimate_seam. rewrite HB. cbn [rbind].
  now apply bright_column_peak.
Qed.

Lemma stuck_stage_never_converges :
  never_converges stuck_microscope (frame_of stuck_image).
Proof. intros w. exact stuck_stage_out_of_tolerance. Qed.

Lemma correction_loop_exhausts_retry_budget_witness :
  exists (st' : state stuck_microscope) (evs : list event)
         (w : World stuck_microscope),
    correction_loop stuck_microscope 1 10 stuck_state = Some (Done st')
    /\ correction_attempts st' = 10
    /\ log st' = log stuck_state ++ evs ++ [EvPrint msg_no_solution_found]
    /\ acquisitions evs = 10
    /\ images_list st'
       = [] ++ [frame_of stuck_image;
                frame_of (fst (acquire_stem_image stuck_microscope w))]
    /\ adornedImage_list st'
       = [stuck_image] ++ [fst (acquire_stem_image stuck_microscope w)]
    /\ world st'
       = blank stuck_microscope (snd (acquire_stem_image stuck_microscope w)).
Proof.
  apply (correction_loop_exhausts_retry_budget stuck_microscope 1
           stuck_state [] (frame_of stuck_image) (frame_of stuck_image)
           [stuck_image] stuck_image (mkStagePosition 0 0)).
  - reflexivity.
  - reflexivity.
  - reflexivity.
  - reflexivity.
  - exact stuck_stage_out_of_tolerance.
  - exact stuck_stage_never_converges.
  - lia.
Defined.

End StuckStage.

(* ================================================================== *)
(** * Where the correction sub-loop is entered *)
(* ================================================================== *)

Section GridLoop.

Import Np Tiling.

Variable M : Microscope.
Variable original_stage_pos : StagePosition.
Variable PIXEL_SIZE : Q.

(** A pass of the correction body only appends to the trace, never an
    entry into a sub-loop, and counts an attempt when it goes round. *)
Lemma correction_step_trace (st : state M) :
  (exists evs : list event,
      log (step_state (correction_step M PIXEL_SIZE st)) = log st ++ evs
      /\ seams_entered evs = [])
  /\ (forall st', correction_step M PIXEL_SIZE st = Continue M st' ->
        correction_attempts st' = correction_attempts st + 1
        /\ correction_attempts st' <> MAX_CORRECTION_ATTEMPTS).
Proof.
  destruct st as [w0 ads0 imgs0 des0 j0 n0 lg0].
  unfold correction_step. cbn [images_list].
  destruct (py_second_last imgs0) as [prev | e];
    [| split; [exists []; split; [symmetry; apply app_nil_r | reflexivity]
              | discriminate ]].
  destruct (py_last imgs0) as [cur | e];
    [| split; [exists []; split; [symmetry; apply app_nil_r | reflexivity]
              | discriminate ]].
  destruct (estimate_seam prev cur) as [peak | e];
    [| split; [exists []; split; [symmetry; apply app_nil_r | reflexivity]
              | discriminate ]].
  destruct (within_tolerance peak).
  { split; [eexists; split; [reflexivity | reflexivity] | discriminate]. }
  cbn [emit adornedImage_list desired_abs_stage_pos].
  destruct (py_last ads0) as [a | e];
    [| split; [eexists; split;
                 [cbn [step_state emit log]; rewrite <- app_assoc;
                  reflexivity | reflexivity]
              | discriminate ]].
  destruct des0 as [d |];
    [| split; [eexists; split;
                 [cbn [step_state emit log]; rewrite <- app_assoc;
                  reflexivity | reflexivity]
              | discriminate ]].
  destruct (negb (Qle_bool (x (stage_position a)) (x d)));
    destruct (negb (Qle_bool (y (stage_position a)) (y d))).
  all: unfold piezo_move, acquire; simpl.
  all: match goal with
       | |- context [acquire_stem_image M ?w] =>
           destruct (acquire_stem_image M w) as [a' w'] eqn:E
       end.
  all: simpl.
  all: destruct (Nat.eqb_spec (n0 + 1) MAX_CORRECTION_ATTEMPTS) as [Hn | Hn].
  all: cbv [step_state emit set_world set_lists set_attempts world
            adornedImage_list images_list desired_abs_stage_pos var_j
            correction_attempts log].
  all: rewrite <- !(app_assoc lg0); cbn [app].
  all: split; [eexists; split; reflexivity |].
  all: try discriminate.
  all: intros st' Hst'; injection Hst' as <-; cbn [correction_attempts];
       split; [reflexivity | exact Hn].
Qed.

(** The sub-loop only appends to the trace, never an entry into a
    sub-loop. *)
Lemma correction_loop_trace (fuel : nat) :
  forall (st : state M) (out : outcome M),
    correction_loop M PIXEL_SIZE fuel st = Some out ->
    exists evs : list event,
      log (final_state out) = log st ++ evs /\ seams_entered evs = [].
Proof.
  induction fuel as [| fuel IH]; intros st out Hloop; [discriminate |].
  cbn [correction_loop] in Hloop.
  destruct (correction_step_trace st) as [(evs & Hlog & Hseams) _].
  destruct (correction_step M PIXEL_SIZE st) as [st1 | st1 | e st1];
    cbn [step_state] in Hlog.
  - destruct (IH st1 out Hloop) as (evs' & Hlog' & Hseams').
    exists (evs ++ evs'). split.
    + now rewrite Hlog', Hlog, <- app_assoc.
    + now rewrite seams_entered_app, Hseams, Hseams'.
  - injection Hloop as <-. now exists evs.
  - injection Hloop as <-. now exists evs.
Qed.

(** The sub-loop ends within the attempts left in its budget, whatever the
    instrument returns. *)
Lemma correction_loop_terminates (n : nat) :
  forall (st : state M) (extra : nat),
    correction_attempts st + S n = MAX_CORRECTION_ATTEMPTS ->
    exists out : outcome M,
      correction_loop M PIXEL_SIZE (S n + extra) st = Some out.
Proof.
  induction n as [| n IH]; intros st extra Hbudget;
    cbn [correction_loop Nat.add];
    destruct (correction_step_trace st) as [_ Hcont];
    destruct (correction_step M PIXEL_SIZE st) as [st1 | st1 | e st1];
    try (eexists; reflexivity).
  - destruct (Hcont st1 eq_refl) as [Hn Hne]. lia.
  - destruct (Hcont st1 eq_refl) as [Hn Hne].
    apply (IH st1 extra). lia.
Qed.

(** C4, at a grid of one row and three columns.  The three tiles are moved
    to and acquired one after the other, and only then is a correction
    sub-loop entered, once, for the seam of the last tile: the tile of
    column 1 gets no correction before the stage moves on to column 2. *)
Theorem three_columns_correct_only_the_last_seam
    (w : World M) (extra : nat) :
  exists (out : outcome M) (p0 p1 p2 : StagePosition) (evs : list event),
    tiling_loop M original_stage_pos PIXEL_SIZE (10 + extra) 1 3 w = Some out
    /\ log (final_state out)
       = [EvPrint (msg_desired_abs_stage_pos 0 p0); EvAbsoluteMove p0;
          EvAcquire; EvBlank;
          EvPrint (msg_desired_abs_stage_pos 2 p1); EvAbsoluteMove p1;
          EvAcquire; EvBlank;
          EvPrint (msg_desired_abs_stage_pos 2 p2); EvAbsoluteMove p2;
          EvAcquire; EvBlank;
          EvPrint (msg_image 0 2)] ++ evs
    /\ seams_entered (log (final_state out)) = [(0, 2)].
Proof.
  remember (10 + extra) as fuel eqn:Hfuel.
  unfold tiling_loop, initial_state. cbn [seq for_rows].
  unfold row_body. cbn [seq for_each].
  unfold tile_body at 1. unfold acquire. simpl.
  destruct (acquire_stem_image M _) as [a0 w1]. simpl.
  unfold tile_body at 1. unfold acquire. simpl.
  destruct (acquire_stem_image M _) as [a1 w2]. simpl.
  unfold tile_body at 1. unfold acquire. simpl.
  destruct (acquire_stem_image M _) as [a2 w3]. simpl.
  subst fuel.
  match goal with
  | |- context [correction_loop M PIXEL_SIZE _ ?st] =>
      destruct (correction_loop_terminates 9 st extra eq_refl)
        as [out Hout];
      rewrite Hout;
      destruct (correction_loop_trace _ st out Hout)
        as (evs & Hlog & Hseams)
  end.
  cbn [log emit set_attempts app] in Hlog.
  assert (Hfinal : exists out' : outcome M,
             match out with
             | Done st' => Some (Done st')
             | Failed e st' => Some (Failed e st')
             end = Some out'
             /\ final_state out' = final_state out)
    by (destruct out; eexists; split; reflexivity).
  destruct Hfinal as (out' & Hout' & Hsame).
  exists out'. do 3 eexists. exists evs.
  split; [| split].
  - destruct out; exact Hout'.
  - rewrite Hsame, Hlog. reflexivity.
  - rewrite Hsame, Hlog, seams_entered_app, Hseams. reflexivity.
Qed.

(** With the constants of the script, one row of two columns, the only
    seam is corrected right after its tile is acquired. *)
Lemma two_columns_correct_their_seam (w : World M) (extra : nat) :
  exists (out : outcome M) (p0 p1 : StagePosition) (evs : list event),
    tiling_loop M original_stage_pos PIXEL_SIZE (10 + extra)
      NO_ROWS_TO_TILE NO_COLS_TO_TILE w = Some out
    /\ log (final_state out)
       = [EvPrint (msg_desired_abs_stage_pos 0 p0); EvAbsoluteMove p0;
          EvAcquire; EvBlank;
          EvPrint (msg_desired_abs_stage_pos 2 p1); EvAbsoluteMove p1;
          EvAcquire; EvBlank;
          EvPrint (msg_image 0 1)] ++ evs
    /\ seams_entered (log (final_state out)) = [(0, 1)].
Proof.
  remember (10 + extra) as fuel eqn:Hfuel.
  unfold tiling_loop, initial_state, NO_ROWS_TO_TILE, NO_COLS_TO_TILE.
  cbn [seq for_rows].
  unfold row_body. cbn [seq for_each].
  unfold tile_body at 1. unfold acquire. simpl.
  destruct (acquire_stem_image M _) as [a0 w1]. simpl.
  unfold tile_body at 1. unfold acquire. simpl.
  destruct (acquire_stem_image M _) as [a1 w2]. simpl.
  subst fuel.
  match goal with
  | |- context [correction_loop M PIXEL_SIZE _ ?st] =>
      destruct (correction_loop_terminates 9 st extra eq_refl)
        as [out Hout];
      rewrite Hout;
      destruct (correction_loop_trace _ st out Hout)
        as (evs & Hlog & Hseams)
  end.
  cbn [log emit set_attempts app] in Hlog.
  assert (Hfinal : exists out' : outcome M,
             match out with
             | Done st' => Some (Done st')
             | Failed e st' => Some (Failed e st')
             end = Some out'
             /\ final_state out' = final_state out)
    by (destruct out; eexists; split; reflexivity).
  destruct Hfinal as (out' & Hout' & Hsame).
  exists out'. do 2 eexists. exists evs.
  split; [| split].
  - destruct out; exact Hout'.
  - rewrite Hsame, Hlog. reflexivity.
  - rewrite Hsame, Hlog, seams_entered_app, Hseams. reflexivity.
Qed.

End GridLoop.

(* ================================================================== *)
(** * Integer sums over intervals *)
(* ================================================================== *)

Section IntervalSums.

Import Np.
Local Open Scope Z_scope.

Lemma sum_range_snoc (n : nat) (f : nat -> Z) :
  sum_range (S n) f = sum_range n f + f n.
Proof.
  unfold sum_range. rewrite seq_S, fold_right_app. simpl.
  generalize (seq 0 n). intros l.
  induction l as [| k l IH]; simpl.
  - lia.
  - rewrite IH. lia.
Qed.

Lemma sum_range_zero (f : nat -> Z) : sum_range 0 f = 0.
Proof. reflexivity. Qed.

Lemma sum_range_plus (n : nat) (f g : nat -> Z) :
  sum_range n (fun k => f k + g k) = sum_range n f + sum_range n g.
Proof.
  induction n as [| n IH]; [reflexivity |].
  rewrite !sum_range_snoc, IH. lia.
Qed.

Lemma sum_range_scale (n : nat) (c : Z) (f : nat -> Z) :
  sum_range n (fun k => c * f k) = c * sum_range n f.
Proof.
  induction n as [| n IH]; [rewrite !sum_range_zero; lia |].
  rewrite !sum_range_snoc, IH. lia.
Qed.

Lemma sum_range_nonneg_Z (n : nat) (f : nat -> Z) :
  (forall k, (k < n)%nat -> 0 <= f k) -> 0 <= sum_range n f.
Proof.
  induction n as [| n IH]; intros Hf; [reflexivity |].
  rewrite sum_range_snoc.
  assert (0 <= sum_range n f) by (apply IH; intros; apply Hf; lia).
  assert (0 <= f n) by (apply Hf; lia). lia.
Qed.

Lemma sum_range_vanishes (n : nat) (f : nat -> Z) :
  (forall k, (k < n)%nat -> 0 <= f k) -> sum_range n f = 0 ->
  forall k, (k < n)%nat -> f k = 0.
Proof.
  induction n as [| n IH]; intros Hf Hsum k Hk; [lia |].
  rewrite sum_range_snoc in Hsum.
  assert (0 <= sum_range n f)
    by (apply sum_range_nonneg_Z; intros; apply Hf; lia).
  assert (0 <= f n) by (apply Hf; lia).
  destruct (Nat.eq_dec k n) as [-> | Hne]; [lia |].
  apply IH; [intros; apply Hf; lia | lia | lia].
Qed.

Lemma sum_range_all_zero_Z (n : nat) (f : nat -> Z) :
  (forall k, (k < n)%nat -> f k = 0) -> sum_range n f = 0.
Proof.
  induction n as [| n IH]; intros Hf; [reflexivity |].
  rewrite sum_range_snoc, IH, Hf by (intros; try apply Hf; lia). lia.
Qed.

Lemma zsum_ext (lo : Z) (n : nat) (f g : Z -> Z) :
  (forall p, lo <= p < lo + Z.of_nat n -> f p = g p) ->
  zsum lo n f = zsum lo n g.
Proof.
  intros E. unfold zsum. apply sum_range_ext. intros k Hk. apply E. lia.
Qed.

Lemma zsum_shift (lo : Z) (n : nat) (a : Z) (f : Z -> Z) :
  zsum lo n (fun p => f (p + a)) = zsum (lo + a) n f.
Proof.
  unfold zsum. apply sum_range_ext. intros k Hk. f_equal. lia.
Qed.

Lemma zsum_split (lo : Z) (n m : nat) (f : Z -> Z) :
  zsum lo (n + m) f = zsum lo n f + zsum (lo + Z.of_nat n) m f.
Proof.
  unfold zsum. induction m as [| m IH].
  - rewrite Nat.add_0_r, sum_range_zero. lia.
  - rewrite Nat.add_succ_r, !sum_range_snoc, IH.
    replace (lo + Z.of_nat (n + m)) with (lo + Z.of_nat n + Z.of_nat m)
      by lia.
    lia.
Qed.

Lemma zsum_all_zero (lo : Z) (n : nat) (f : Z -> Z) :
  (forall p, lo <= p < lo + Z.of_nat n -> f p = 0) -> zsum lo n f = 0.
Proof.
  intros E. unfold zsum. apply sum_range_all_zero_Z.
  intros k Hk. apply E. lia.
Qed.

Lemma zsum_plus (lo : Z) (n : nat) (f g : Z -> Z) :
  zsum lo n (fun p => f p + g p) = zsum lo n f + zsum lo n g.
Proof. unfold zsum. apply sum_range_plus. Qed.

Lemma zsum_scale (lo : Z) (n : nat) (c : Z) (f : Z -> Z) :
  zsum lo n (fun p => c * f p) = c * zsum lo n f.
Proof. unfold zsum. apply sum_range_scale. Qed.

Lemma zsum_nonneg (lo : Z) (n : nat) (f : Z -> Z) :
  (forall p, lo <= p < lo + Z.of_nat n -> 0 <= f p) -> 0 <= zsum lo n f.
Proof.
  intros E. unfold zsum. apply sum_range_nonneg_Z.
  intros k Hk. apply E. lia.
Qed.

Lemma zsum_vanishes (lo : Z) (n : nat) (f : Z -> Z) :
  (forall p, lo <= p < lo + Z.of_nat n -> 0 <= f p) ->
  zsum lo n f = 0 ->
  forall p, lo <= p < lo + Z.of_nat n -> f p = 0.
Proof.
  intros Hf Hsum p Hp. unfold zsum in Hsum.
  replace p with (lo + Z.of_nat (Z.to_nat (p - lo))) by lia.
  apply (sum_range_vanishes n (fun k => f (lo + Z.of_nat k))).
  - intros k Hk. apply Hf. lia.
  - exact Hsum.
  - lia.
Qed.

(** A function that is zero outside [0, h) has the same sum over every
    interval that contains [0, h). *)
Lemma zsum_support (lo : Z) (n h : nat) (f : Z -> Z) :
  (forall p, ~ 0 <= p < Z.of_nat h -> f p = 0) ->
  lo <= 0 -> Z.of_nat h <= lo + Z.of_nat n ->
  zsum lo n f = zsum 0 h f.
Proof.
  intros Hf Hlo Hhi.
  replace n
    with (Z.to_nat (- lo) + (h + Z.to_nat (lo + Z.of_nat n - Z.of_nat h)))%nat
    by lia.
  rewrite !zsum_split.
  replace (lo + Z.of_nat (Z.to_nat (- lo))) with 0 by lia.
  rewrite (zsum_all_zero lo) by (intros p Hp; apply Hf; lia).
  rewrite (zsum_all_zero (0 + Z.of_nat h)) by (intros p Hp; apply Hf; lia).
  lia.
Qed.

Lemma zsum2_ext (lo1 : Z) (n1 : nat) (lo2 : Z) (n2 : nat)
    (F G : Z -> Z -> Z) :
  (forall p q, lo1 <= p < lo1 + Z.of_nat n1 ->
               lo2 <= q < lo2 + Z.of_nat n2 -> F p q = G p q) ->
  zsum2 lo1 n1 lo2 n2 F = zsum2 lo1 n1 lo2 n2 G.
Proof.
  intros E. unfold zsum2. apply zsum_ext. intros p Hp.
  apply zsum_ext. intros q Hq. now apply E.
Qed.

Lemma zsum2_shift (lo1 : Z) (n1 : nat) (lo2 : Z) (n2 : nat) (a b : Z)
    (F : Z -> Z -> Z) :
  zsum2 lo1 n1 lo2 n2 (fun p q => F (p + a) (q + b))
  = zsum2 (lo1 + a) n1 (lo2 + b) n2 F.
Proof.
  unfold zsum2.
  rewrite <- (zsum_shift lo1 n1 a (fun p => zsum (lo2 + b) n2 (F p))).
  apply zsum_ext. intros p Hp.
  apply (zsum_shift lo2 n2 b (F (p + a))).
Qed.

Lemma zsum2_plus (lo1 : Z) (n1 : nat) (lo2 : Z) (n2 : nat)
    (F G : Z -> Z -> Z) :
  zsum2 lo1 n1 lo2 n2 (fun p q => F p q + G p q)
  = zsum2 lo1 n1 lo2 n2 F + zsum2 lo1 n1 lo2 n2 G.
Proof.
  unfold zsum2. rewrite <- zsum_plus. apply zsum_ext. intros p Hp.
  apply zsum_plus.
Qed.

Lemma zsum2_scale (lo1 : Z) (n1 : nat) (lo2 : Z) (n2 : nat) (c : Z)
    (F : Z -> Z -> Z) :
  zsum2 lo1 n1 lo2 n2 (fun p q => c * F p q)
  = c * zsum2 lo1 n1 lo2 n2 F.
Proof.
  unfold zsum2. rewrite <- zsum_scale. apply zsum_ext. intros p Hp.
  apply zsum_scale.
Qed.

Lemma zsum2_nonneg (lo1 : Z) (n1 : nat) (lo2 : Z) (n2 : nat)
    (F : Z -> Z -> Z) :
  (forall p q, 0 <= F p q) -> 0 <= zsum2 lo1 n1 lo2 n2 F.
Proof.
  intros HF. unfold zsum2. apply zsum_nonneg. intros p Hp.
  apply zsum_nonneg. intros q Hq. apply HF.
Qed.

Lemma zsum2_vanishes (lo1 : Z) (n1 : nat) (lo2 : Z) (n2 : nat)
    (F : Z -> Z -> Z) :
  (forall p q, 0 <= F p q) ->
  zsum2 lo1 n1 lo2 n2 F = 0 ->
  forall p q, lo1 <= p < lo1 + Z.of_nat n1 ->
              lo2 <= q < lo2 + Z.of_nat n2 -> F p q = 0.
Proof.
  intros HF Hsum p q Hp Hq. unfold zsum2 in Hsum.
  apply (zsum_vanishes lo2 n2 (F p)); [intros; apply HF | | exact Hq].
  apply (zsum_vanishes lo1 n1 (fun p => zsum lo2 n2 (F p)));
    [| exact Hsum | exact Hp].
  intros p' Hp'. apply zsum_nonneg. intros. apply HF.
Qed.

(** A function that is zero outside the box [0, h) x [0, w) has the same
    sum over every box that contains it. *)
Lemma zsum2_support (lo1 : Z) (n1 : nat) (lo2 : Z) (n2 : nat)
    (h w : nat) (F : Z -> Z -> Z) :
  (forall p q, ~ (0 <= p < Z.of_nat h /\ 0 <= q < Z.of_nat w) ->
               F p q = 0) ->
  lo1 <= 0 -> Z.of_nat h <= lo1 + Z.of_nat n1 ->
  lo2 <= 0 -> Z.of_nat w <= lo2 + Z.of_nat n2 ->
  zsum2 lo1 n1 lo2 n2 F = zsum2 0 h 0 w F.
Proof.
  intros HF Hlo1 Hhi1 Hlo2 Hhi2. unfold zsum2.
  rewrite (zsum_ext lo1 n1 _ (fun p => zsum 0 w (F p))).
  - apply zsum_support; [| assumption | assumption].
    intros p Hp. apply zsum_all_zero. intros q Hq. apply HF. lia.
  - intros p Hp. apply zsum_support; [| assumption | assumption].
    intros q Hq. apply HF. lia.
Qed.

End IntervalSums.

(* ================================================================== *)
(** * The autocorrelation of a finite pattern peaks at lag zero *)
(* ================================================================== *)

Section Autocorrelation.

Local Open Scope Z_scope.

(** A pattern of [h] by [w] samples, extended by zero over the plane, with
    at least one nonzero sample. *)
Variable T : Z -> Z -> Z.
Variables h w : nat.

Hypothesis T_support :
  forall p q, ~ (0 <= p < Z.of_nat h /\ 0 <= q < Z.of_nat w) -> T p q = 0.

Hypothesis T_nonzero : exists u v, T u v <> 0.

Lemma autocorrelation_at_zero : autocorrelation T h w 0 0 = energy T h w.
Proof.
  unfold autocorrelation, energy. apply zsum2_ext. intros p q _ _.
  now rewrite !Z.add_0_r.
Qed.

Lemma nonzero_in_box (p q : Z) :
  T p q <> 0 -> 0 <= p < Z.of_nat h /\ 0 <= q < Z.of_nat w.
Proof.
  intros Hnz.
  destruct (Z_le_gt_dec 0 p), (Z_lt_ge_dec p (Z.of_nat h)),
    (Z_le_gt_dec 0 q), (Z_lt_ge_dec q (Z.of_nat w));
    try (split; lia); exfalso; apply Hnz; apply T_support; lia.
Qed.

(** Over a box that is large enough, the squared differences between the
    pattern and its shift add up to twice the gap between the energy and
    the autocorrelation. *)
Lemma squared_differences (a b : Z) (m : nat) :
  Z.of_nat h + Z.abs a <= Z.of_nat m ->
  Z.of_nat w + Z.abs b <= Z.of_nat m ->
  zsum2 (- Z.of_nat m) (m + m) (- Z.of_nat m) (m + m)
    (fun p q => (T (p + a) (q + b) - T p q) * (T (p + a) (q + b) - T p q))
  = 2 * energy T h w - 2 * autocorrelation T h w a b.
Proof.
  intros Hm1 Hm2.
  set (lo := - Z.of_nat m). set (n := (m + m)%nat).
  rewrite (zsum2_ext lo n lo n _
             (fun p q =>
                (fun p' q' => T p' q' * T p' q') (p + a) (q + b)
                + ((-2) * (T (p + a) (q + b) * T p q) + T p q * T p q)))
    by (intros; ring).
  rewrite zsum2_plus, zsum2_plus, zsum2_scale.
  rewrite (zsum2_shift lo n lo n a b (fun p' q' => T p' q' * T p' q')).
  rewrite (zsum2_support (lo + a) n (lo + b) n h w
             (fun p' q' => T p' q' * T p' q')).
  - rewrite (zsum2_support lo n lo n h w
               (fun p q => T (p + a) (q + b) * T p q)).
    + rewrite (zsum2_support lo n lo n h w (fun p q => T p q * T p q)).
      * fold (energy T h w). fold (autocorrelation T h w a b). ring.
      * intros p q Hout. rewrite (T_support p q Hout). ring.
      * unfold lo. lia.
      * unfold lo, n. lia.
      * unfold lo. lia.
      * unfold lo, n. lia.
    + intros p q Hout. rewrite (T_support p q Hout). ring.
    + unfold lo. lia.
    + unfold lo, n. lia.
    + unfold lo. lia.
    + unfold lo, n. lia.
  - intros p q Hout. rewrite (T_support p q Hout). ring.
  - unfold lo. lia.
  - unfold lo, n. lia.
  - unfold lo. lia.
  - unfold lo, n. lia.
Qed.

(** If a shift leaves the autocorrelation at the energy, the pattern is
    invariant under the shift wherever it is nonzero. *)
Lemma shift_invariant_where_nonzero (a b : Z) :
  autocorrelation T h w a b = energy T h w ->
  forall p q, T p q <> 0 -> T (p + a) (q + b) = T p q.
Proof.
  intros Heq p q Hnz.
  set (m := (h + w + Z.to_nat (Z.abs a) + Z.to_nat (Z.abs b))%nat).
  assert (Hsum := squared_differences a b m).
  rewrite Heq in Hsum.
  replace (2 * energy T h w - 2 * energy T h w) with 0 in Hsum by ring.
  assert (Hin := nonzero_in_box p q Hnz).
  assert (Hd : (T (p + a) (q + b) - T p q) * (T (p + a) (q + b) - T p q) = 0).
  { apply (zsum2_vanishes (- Z.of_nat m) (m + m) (- Z.of_nat m) (m + m)
             (fun p q =>
                (T (p + a) (q + b) - T p q) * (T (p + a) (q + b) - T p q))).
    - intros p' q'. apply Z.square_nonneg.
    - apply Hsum; unfold m; lia.
    - unfold m. lia.
    - unfold m. lia. }
  apply Z.mul_eq_0 in Hd. lia.
Qed.

(** The orbit of a nonzero sample under an invariant shift stays
    nonzero. *)
Lemma orbit_stays_nonzero (a b : Z) :
  autocorrelation T h w a b = energy T h w ->
  forall u v, T u v <> 0 ->
  forall n : nat, T (u + Z.of_nat n * a) (v + Z.of_nat n * b) <> 0.
Proof.
  intros Heq u v Hnz n. induction n as [| n IH].
  - now rewrite !Z.mul_0_l, !Z.add_0_r.
  - pose proof (shift_invariant_where_nonzero a b Heq _ _ IH) as Hstep.
    replace (u + Z.of_nat (S n) * a) with (u + Z.of_nat n * a + a) by lia.
    replace (v + Z.of_nat (S n) * b) with (v + Z.of_nat n * b + b) by lia.
    now rewrite Hstep.
Qed.

(** The autocorrelation never exceeds the energy. *)
Lemma autocorrelation_le_energy (a b : Z) :
  autocorrelation T h w a b <= energy T h w.
Proof.
  set (m := (h + w + Z.to_nat (Z.abs a) + Z.to_nat (Z.abs b))%nat).
  assert (Hsum := squared_differences a b m).
  assert (0 <= zsum2 (- Z.of_nat m) (m + m) (- Z.of_nat m) (m + m)
            (fun p q =>
               (T (p + a) (q + b) - T p q) * (T (p + a) (q + b) - T p q)))
    by (apply zsum2_nonneg; intros; apply Z.square_nonneg).
  rewrite Hsum in H by (unfold m; lia). lia.
Qed.

(** Away from lag zero the autocorrelation is strictly below the
    energy. *)
Lemma autocorrelation_strict_peak (a b : Z) :
  a <> 0 \/ b <> 0 -> autocorrelation T h w a b < energy T h w.
Proof.
  intros Hlag.
  assert (Hle := autocorrelation_le_energy a b).
  destruct (Z.eq_dec (autocorrelation T h w a b) (energy T h w)) as [Heq | Hne]; [| lia].
  exfalso.
  destruct T_nonzero as (u & v & Hnz).
  assert (Hin := nonzero_in_box u v Hnz).
  pose proof (orbit_stays_nonzero a b Heq u v Hnz (h + w)) as Horbit.
  apply nonzero_in_box in Horbit.
  rewrite Nat2Z.inj_add in Horbit.
  destruct Hlag as [Ha | Hb]; nia.
Qed.

End Autocorrelation.

(* ================================================================== *)
(** * The full-correlation estimator on an embedded template *)
(* ================================================================== *)

Section FullCorrelationEstimator.

Import Np Scipy Registration.

Lemma padded_in_range (a : ndarray Z) (u v : nat) :
  u < nrows a -> v < ncols a ->
  padded a (Z.of_nat u) (Z.of_nat v) = item a u v.
Proof.
  intros Hu Hv. unfold padded.
  destruct (Z.leb_spec 0 (Z.of_nat u)); [| lia].
  destruct (Z.ltb_spec (Z.of_nat u) (Z.of_nat (nrows a))); [| lia].
  destruct (Z.leb_spec 0 (Z.of_nat v)); [| lia].
  destruct (Z.ltb_spec (Z.of_nat v) (Z.of_nat (ncols a))); [| lia].
  cbn [andb]. now rewrite !Nat2Z.id.
Qed.

Lemma padded_outside (a : ndarray Z) (p q : Z) :
  ~ (0 <= p < Z.of_nat (nrows a) /\ 0 <= q < Z.of_nat (ncols a))%Z ->
  padded a p q = 0%Z.
Proof.
  intros Hout. unfold padded.
  destruct (Z.leb_spec 0 p); [| reflexivity].
  destruct (Z.ltb_spec p (Z.of_nat (nrows a))); [| reflexivity].
  destruct (Z.leb_spec 0 q); [| reflexivity].
  destruct (Z.ltb_spec q (Z.of_nat (ncols a))); [| reflexivity].
  exfalso. apply Hout. lia.
Qed.

(** The padded search image is the padded template, displaced. *)
Lemma padded_embed (H W : nat) (template : ndarray Z) (r0 c0 : nat)
    (r c : Z) :
  r0 + nrows template <= H -> c0 + ncols template <= W ->
  padded (embed H W template r0 c0) r c
  = padded template (r - Z.of_nat r0) (c - Z.of_nat c0).
Proof.
  intros Hr Hc.
  destruct (Z_le_gt_dec 0 r), (Z_lt_ge_dec r (Z.of_nat H)),
    (Z_le_gt_dec 0 c), (Z_lt_ge_dec c (Z.of_nat W));
    try (rewrite (padded_outside (embed H W template r0 c0))
           by (cbn [embed fromfunction nrows ncols]; lia);
         rewrite padded_outside by lia; reflexivity).
  replace r with (Z.of_nat (Z.to_nat r)) at 1 by lia.
  replace c with (Z.of_nat (Z.to_nat c)) at 1 by lia.
  rewrite padded_in_range by (cbn [embed fromfunction nrows ncols]; lia).
  unfold embed. rewrite item_fromfunction by lia.
  destruct (Nat.leb_spec r0 (Z.to_nat r)),
    (Nat.ltb_spec (Z.to_nat r) (r0 + nrows template)),
    (Nat.leb_spec c0 (Z.to_nat c)),
    (Nat.ltb_spec (Z.to_nat c) (c0 + ncols template));
    cbn [andb];
    try (rewrite padded_outside by lia; reflexivity).
  replace (r - Z.of_nat r0)%Z with (Z.of_nat (Z.to_nat r - r0)) by lia.
  replace (c - Z.of_nat c0)%Z with (Z.of_nat (Z.to_nat c - c0)) by lia.
  now rewrite padded_in_range by lia.
Qed.

(** Each sample of the correlation surface is an autocorrelation of the
    template. *)
Lemma correlate_full_embed (H W : nat) (template : ndarray Z)
    (r0 c0 i j : nat) :
  r0 + nrows template <= H -> c0 + ncols template <= W ->
  i < H + nrows template - 1 -> j < W + ncols template - 1 ->
  item (correlate_full (embed H W template r0 c0) template) i j
  = autocorrelation (padded template) (nrows template) (ncols template)
      (Z.of_nat i - (Z.of_nat (nrows template) - 1) - Z.of_nat r0)
      (Z.of_nat j - (Z.of_nat (ncols template) - 1) - Z.of_nat c0).
Proof.
  intros Hr Hc Hi Hj. unfold correlate_full.
  rewrite item_fromfunction
    by (cbn [embed fromfunction nrows ncols]; assumption).
  unfold autocorrelation, zsum2, zsum.
  apply sum_range_ext. intros u Hu.
  apply sum_range_ext. intros v Hv.
  rewrite padded_embed by assumption.
  rewrite <- (padded_in_range template u v) by assumption.
  cbn [d_mul int_dtype]. f_equal; f_equal; lia.
Qed.

Lemma correlate_full_nth (in1 in2 : ndarray Z) (m : nat) :
  m < (nrows in1 + nrows in2 - 1) * (ncols in1 + ncols in2 - 1) ->
  nth m (data (correlate_full in1 in2)) d_zero
  = item (correlate_full in1 in2)
      (m / (ncols in1 + ncols in2 - 1)) (m mod (ncols in1 + ncols in2 - 1)).
Proof.
  intros Hm. unfold correlate_full.
  rewrite nth_fromfunction by exact Hm.
  rewrite item_fromfunction; [reflexivity | |].
  - apply Nat.Div0.div_lt_upper_bound. lia.
  - apply Nat.mod_upper_bound. lia.
Qed.

(** In the arithmetic of integers: for every integer template with at
    least one nonzero sample, pasted into a canvas of zeros at the offset
    (dy, dx) from the centred placement, [compute_translation_vector]
    returns (dx, dy). *)
Lemma translation_vector_of_embedded_template
    (H W : nat) (template : ndarray Z) (dy dx : Z) :
  nrows template <= H -> ncols template <= W ->
  (exists u v, u < nrows template /\ v < ncols template
               /\ item template u v <> 0%Z) ->
  offset_fits H (nrows template) dy ->
  offset_fits W (ncols template) dx ->
  compute_translation_vector (embed_at_offset H W template dy dx) template
  = Ok (dx, dy).
Proof.
  intros HhH HwW (u0 & v0 & Hu0 & Hv0 & Hnz) Hdy Hdx.
  unfold offset_fits in Hdy, Hdx. unfold embed_at_offset.
  set (h := nrows template) in *. set (w := ncols template) in *.
  set (r0 := Z.to_nat (centered_corner H h + dy)).
  set (c0 := Z.to_nat (centered_corner W w + dx)).
  assert (Hr0 : r0 + h <= H) by (unfold r0; lia).
  assert (Hc0 : c0 + w <= W) by (unfold c0; lia).
  set (image := embed H W template r0 c0).
  unfold compute_translation_vector, correlate2d. cbn [rbind].
  set (correlation := correlate_full image template).
  set (nr := H + h - 1). set (nc := W + w - 1).
  assert (Hnr : nrows correlation = nr) by reflexivity.
  assert (Hnc : ncols correlation = nc) by reflexivity.
  assert (Hlen : length (data correlation) = nr * nc)
    by apply fromfunction_length.
  set (i0 := r0 + h - 1). set (j0 := c0 + w - 1).
  assert (Hi0 : i0 < nr) by (unfold i0, nr; lia).
  assert (Hj0 : j0 < nc) by (unfold j0, nc; lia).
  assert (Hsupport :
    forall p q, ~ (0 <= p < Z.of_nat h /\ 0 <= q < Z.of_nat w)%Z ->
                padded template p q = 0%Z)
    by (intros p q; apply padded_outside).
  assert (Hnonzero : exists p q, padded template p q <> 0%Z).
  { exists (Z.of_nat u0), (Z.of_nat v0).
    now rewrite padded_in_range by assumption. }
  assert (Hnth : forall m, m < nr * nc ->
            nth m (data correlation) d_zero
            = autocorrelation (padded template) h w
                (Z.of_nat (m / nc) - Z.of_nat i0)
                (Z.of_nat (m mod nc) - Z.of_nat j0)).
  { intros m Hm. unfold correlation, image.
    assert (Hrow : m / nc < nr)
      by (apply Nat.Div0.div_lt_upper_bound; lia).
    assert (Hcol : m mod nc < nc) by (apply Nat.mod_upper_bound; lia).
    rewrite correlate_full_nth by exact Hm.
    change (ncols (embed H W template r0 c0) + ncols template - 1) with nc.
    rewrite correlate_full_embed by assumption.
    f_equal; unfold i0, j0; lia. }
  rewrite (np_argmax_strict_max correlation (i0 * nc + j0)).
  - cbn [rbind]. rewrite Hnr, Hnc.
    destruct (np_unravel_index_in_shape (i0 * nc + j0) nr nc)
      as (E & _ & _); [now apply flat_index_lt |].
    rewrite E, flat_index_row, flat_index_col by exact Hj0.
    cbn [rbind fst snd]. f_equal.
    unfold centered_corner in *. unfold i0, j0, nr, nc, r0, c0.
    f_equal.
    + rewrite !Nat2Z.inj_sub, !Nat2Z.inj_add, Z2Nat.id by lia.
      change (Z.of_nat 1) with 1%Z.
      clear - HwW Hdx. Z.div_mod_to_equations. lia.
    + rewrite !Nat2Z.inj_sub, !Nat2Z.inj_add, Z2Nat.id by lia.
      change (Z.of_nat 1) with 1%Z.
      clear - HhH Hdy. Z.div_mod_to_equations. lia.
  - rewrite Hlen. now apply flat_index_lt.
  - rewrite Hlen. intros m Hm Hne.
    rewrite !Hnth by (exact Hm || now apply flat_index_lt).
    rewrite flat_index_row, flat_index_col by exact Hj0.
    rewrite !Z.sub_diag.
    rewrite (autocorrelation_at_zero (padded template) h w).
    assert (Hlag : (Z.of_nat (m / nc) - Z.of_nat i0 <> 0
                    \/ Z.of_nat (m mod nc) - Z.of_nat j0 <> 0)%Z).
    { destruct (Nat.eq_dec (m / nc) i0) as [Er | Nr]; [| left; lia].
      destruct (Nat.eq_dec (m mod nc) j0) as [Ec | Nc]; [| right; lia].
      exfalso. apply Hne.
      rewrite (Nat.div_mod_eq m nc), Er, Ec. lia. }
    pose proof (autocorrelation_strict_peak (padded template) h w
                  Hsupport Hnonzero _ _ Hlag) as Hlt.
    cbn [d_ltb int_dtype]. split.
    + now apply Z.ltb_lt.
    + apply Z.ltb_ge. lia.
Qed.

End FullCorrelationEstimator.

(* ================================================================== *)
(** * Correlations computed without rounding or wrapping *)
(* ================================================================== *)

(** When no partial sum of a correlation leaves the range in which the
    arithmetic of the samples is exact, the correlation computed on the
    samples is the image of the one computed on integers, and its argmax
    is the same. *)

Section ExactTransport.

Import Np Scipy Registration.

Context {A : Type} (DA : Dtype A).
Variables vin vout : Z -> A.
Variable B : Z.

Hypothesis vin_zero : vin 0%Z = d_zero.
Hypothesis vout_zero : vout 0%Z = d_zero.
Hypothesis mul_exact :
  forall x y, (Z.abs (x * y) <= B)%Z -> d_mul (vin x) (vin y) = vout (x * y)%Z.
Hypothesis add_exact :
  forall x y, (Z.abs x <= B)%Z -> (Z.abs y <= B)%Z -> (Z.abs (x + y) <= B)%Z ->
    d_add (vout x) (vout y) = vout (x + y)%Z.
Hypothesis ltb_exact :
  forall x y, (Z.abs x <= B)%Z -> (Z.abs y <= B)%Z ->
    d_ltb (vout x) (vout y) = (x <? y)%Z.

Lemma item_map_samples (a : ndarray Z) (r c : nat) :
  item (map_samples vin a) r c = vin (item a r c).
Proof.
  unfold item, map_samples. cbn [data ncols].
  rewrite <- vin_zero. apply map_nth.
Qed.

Lemma padded_map_samples (a : ndarray Z) (r c : Z) :
  padded (map_samples vin a) r c = vin (padded a r c).
Proof.
  unfold padded. cbn [map_samples nrows ncols].
  destruct (_ && _)%bool.
  - apply item_map_samples.
  - symmetry. exact vin_zero.
Qed.

Lemma fold_transport (l : list nat) (f : nat -> A) (g gb : nat -> Z) :
  (forall k, In k l -> f k = vout (g k) /\ (Z.abs (g k) <= gb k)%Z) ->
  (fold_right (fun k acc => gb k + acc) 0 l <= B)%Z ->
  fold_right (fun k acc => d_add (f k) acc) d_zero l
  = vout (fold_right (fun k acc => g k + acc) 0 l)%Z
  /\ (Z.abs (fold_right (fun k acc => g k + acc) 0 l)
      <= fold_right (fun k acc => gb k + acc) 0 l)%Z.
Proof.
  induction l as [| k l IH]; intros Hk Hb.
  - cbn [fold_right]. split; [now rewrite vout_zero | reflexivity].
  - cbn [fold_right] in *.
    destruct (Hk k (or_introl eq_refl)) as [Ek Bk].
    assert (Hl : forall k', In k' l ->
                 f k' = vout (g k') /\ (Z.abs (g k') <= gb k')%Z)
      by (intros k' Hin; apply Hk; now right).
    assert (T0 : (0 <= fold_right (fun k acc => gb k + acc) 0 l)%Z).
    { clear - Hl. induction l as [| k' l IH]; cbn [fold_right]; [lia |].
      destruct (Hl k' (or_introl eq_refl)) as [_ Bk'].
      assert (0 <= fold_right (fun k acc => gb k + acc) 0 l)%Z
        by (apply IH; intros k'' Hin; apply Hl; now right).
      lia. }
    destruct (IH Hl) as [E Bl]; [lia |].
    rewrite E, Ek. split.
    + apply add_exact; lia.
    + lia.
Qed.

Lemma sum_range_transport (n : nat) (f : nat -> A) (g gb : nat -> Z) :
  (forall k, k < n -> f k = vout (g k) /\ (Z.abs (g k) <= gb k)%Z) ->
  (sum_range n gb <= B)%Z ->
  sum_range n f = vout (sum_range n g)
  /\ (Z.abs (sum_range n g) <= sum_range n gb)%Z.
Proof.
  intros Hk Hb. unfold sum_range. apply fold_transport.
  - intros k Hin. apply Hk. apply in_seq in Hin. lia.
  - exact Hb.
Qed.

Lemma sum_range_term_le (n : nat) (gb : nat -> Z) (k : nat) :
  (forall m, m < n -> (0 <= gb m)%Z) -> k < n ->
  (gb k <= sum_range n gb)%Z.
Proof.
  induction n as [| n IH]; intros Hpos Hk; [lia |].
  rewrite sum_range_snoc.
  assert (P : (0 <= sum_range n gb)%Z)
    by (apply sum_range_nonneg_Z; intros; apply Hpos; lia).
  assert (Q : (0 <= gb n)%Z) by (apply Hpos; lia).
  destruct (Nat.eq_dec k n) as [-> | Hne]; [lia |].
  assert (gb k <= sum_range n gb)%Z
    by (apply IH; [intros; apply Hpos; lia | lia]).
  lia.
Qed.

(** One sample of the correlation. *)
Lemma correlation_sample_exact (in1 in2 : ndarray Z) (i j : nat) :
  (correlation_mass in1 in2 i j <= B)%Z ->
  sum_range (nrows in2) (fun u =>
    sum_range (ncols in2) (fun v =>
      d_mul
        (padded (map_samples vin in1)
           (Z.of_nat i + Z.of_nat u - (Z.of_nat (nrows in2) - 1))
           (Z.of_nat j + Z.of_nat v - (Z.of_nat (ncols in2) - 1)))
        (item (map_samples vin in2) u v)))
  = vout
      (sum_range (nrows in2) (fun u =>
         sum_range (ncols in2) (fun v =>
           (padded in1
              (Z.of_nat i + Z.of_nat u - (Z.of_nat (nrows in2) - 1))
              (Z.of_nat j + Z.of_nat v - (Z.of_nat (ncols in2) - 1))
            * item in2 u v)%Z)))
  /\ (Z.abs
        (sum_range (nrows in2) (fun u =>
           sum_range (ncols in2) (fun v =>
             (padded in1
                (Z.of_nat i + Z.of_nat u - (Z.of_nat (nrows in2) - 1))
                (Z.of_nat j + Z.of_nat v - (Z.of_nat (ncols in2) - 1))
              * item in2 u v)%Z)))
      <= correlation_mass in1 in2 i j)%Z.
Proof.
  intros Hb. unfold correlation_mass in *.
  set (h := nrows in2) in *. set (w := ncols in2) in *.
  set (x := fun u v =>
              (padded in1 (Z.of_nat i + Z.of_nat u - (Z.of_nat h - 1))
                          (Z.of_nat j + Z.of_nat v - (Z.of_nat w - 1))
               * item in2 u v)%Z) in *.
  set (inner := fun u => sum_range w (fun v => Z.abs (x u v))).
  assert (Hinner : forall u, u < h -> (inner u <= B)%Z).
  { intros u Hu. eapply Z.le_trans; [| exact Hb].
    apply (sum_range_term_le h inner u); [| exact Hu].
    intros m _. unfold inner. apply sum_range_nonneg_Z.
    intros; apply Z.abs_nonneg. }
  apply (sum_range_transport h _ (fun u => sum_range w (x u)) inner).
  - intros u Hu.
    apply (sum_range_transport w _ (x u) (fun v => Z.abs (x u v))).
    + intros v Hv. split; [| reflexivity].
      rewrite padded_map_samples, item_map_samples.
      apply mul_exact.
      eapply Z.le_trans; [| exact (Hinner u Hu)].
      apply (sum_range_term_le w (fun v => Z.abs (x u v)) v);
        [intros; apply Z.abs_nonneg | exact Hv].
    + exact (Hinner u Hu).
  - exact Hb.
Qed.

Lemma argmax_from_exact (l : list Z) :
  forall best_i b i,
    (Z.abs b <= B)%Z -> (forall z, In z l -> (Z.abs z <= B)%Z) ->
    argmax_from best_i (vout b) i (map vout l)
    = argmax_from best_i b i l.
Proof.
  induction l as [| z l IH]; intros best_i b i Hb Hl; [reflexivity |].
  cbn [map argmax_from].
  rewrite ltb_exact by (try exact Hb; apply Hl; now left).
  cbn [d_ltb int_dtype].
  destruct (b <? z)%Z; apply IH;
    try exact Hb; try (apply Hl; now left);
    intros z' Hin; apply Hl; now right.
Qed.

Lemma np_argmax_exact (a : ndarray Z) :
  (forall z, In z (data a) -> (Z.abs z <= B)%Z) ->
  np_argmax (map_samples vout a) = np_argmax a.
Proof.
  intros Ha. unfold np_argmax. cbn [map_samples data].
  destruct (data a) as [| z l]; [reflexivity |].
  cbn [map]. f_equal. apply argmax_from_exact.
  - apply Ha. now left.
  - intros z' Hin. apply Ha. now right.
Qed.

(** The correlation on the samples is the image of the correlation on
    integers. *)
Lemma correlate_full_exact (in1 in2 : ndarray Z) :
  (forall i j, i < nrows in1 + nrows in2 - 1 ->
               j < ncols in1 + ncols in2 - 1 ->
               (correlation_mass in1 in2 i j <= B)%Z) ->
  correlate_full (map_samples vin in1) (map_samples vin in2)
  = map_samples vout (correlate_full in1 in2)
  /\ forall z, In z (data (correlate_full in1 in2)) -> (Z.abs z <= B)%Z.
Proof.
  intros Hb.
  set (nr := nrows in1 + nrows in2 - 1).
  set (nc := ncols in1 + ncols in2 - 1).
  assert (Hk : forall k, k < nr * nc -> k / nc < nr /\ k mod nc < nc).
  { intros k Hlt. split.
    - apply Nat.Div0.div_lt_upper_bound. lia.
    - apply Nat.mod_upper_bound. lia. }
  split.
  - unfold correlate_full, fromfunction, map_samples.
    cbn [nrows ncols data]. fold nr nc. f_equal.
    rewrite map_map. apply map_ext_in. intros k Hin.
    apply in_seq in Hin.
    destruct (Hk k) as [Hi Hj]; [lia |].
    apply (correlation_sample_exact in1 in2 (k / nc) (k mod nc)).
    now apply Hb.
  - intros z Hin. unfold correlate_full, fromfunction in Hin.
    cbn [data] in Hin. fold nr nc in Hin.
    apply in_map_iff in Hin. destruct Hin as (k & <- & Hin).
    apply in_seq in Hin.
    destruct (Hk k) as [Hi Hj]; [lia |].
    destruct (correlation_sample_exact in1 in2 (k / nc) (k mod nc)
                (Hb _ _ Hi Hj)) as [_ Bz].
    eapply Z.le_trans; [exact Bz | now apply Hb].
Qed.

(** The estimator on the samples returns what it returns on integers. *)
Lemma compute_translation_vector_exact (in1 in2 : ndarray Z) :
  (forall i j, i < nrows in1 + nrows in2 - 1 ->
               j < ncols in1 + ncols in2 - 1 ->
               (correlation_mass in1 in2 i j <= B)%Z) ->
  compute_translation_vector (map_samples vin in1) (map_samples vin in2)
  = compute_translation_vector in1 in2.
Proof.
  intros Hb. destruct (correlate_full_exact in1 in2 Hb) as [E Bz].
  unfold compute_translation_vector, correlate2d. cbn [rbind].
  rewrite E, (np_argmax_exact _ Bz). reflexivity.
Qed.

End ExactTransport.

Section EmbeddedMass.

Import Np Scipy Registration.

(** Around an embedded template no partial sum of the correlation
    exceeds the sum of the squared samples of the template. *)
Lemma embedded_mass (H W : nat) (template : ndarray Z)
    (r0 c0 i j : nat) :
  r0 + nrows template <= H -> c0 + ncols template <= W ->
  (correlation_mass (embed H W template r0 c0) template i j
   <= energy (padded template) (nrows template) (ncols template))%Z.
Proof.
  intros Hr Hc.
  set (h := nrows template). set (w := ncols template).
  set (T' := fun p q => Z.abs (padded template p q)).
  assert (S' : forall p q,
             ~ (0 <= p < Z.of_nat h /\ 0 <= q < Z.of_nat w)%Z ->
             T' p q = 0%Z).
  { intros p q Hout. unfold T'. now rewrite padded_outside. }
  assert (E1 : correlation_mass (embed H W template r0 c0) template i j
               = autocorrelation T' h w
                   (Z.of_nat i - (Z.of_nat h - 1) - Z.of_nat r0)
                   (Z.of_nat j - (Z.of_nat w - 1) - Z.of_nat c0)).
  { unfold correlation_mass, autocorrelation, zsum2, zsum. fold h w.
    apply sum_range_ext. intros u Hu.
    apply sum_range_ext. intros v Hv.
    rewrite padded_embed by assumption.
    rewrite <- (padded_in_range template u v) by assumption.
    rewrite Z.abs_mul. unfold T'. f_equal; f_equal; f_equal; lia. }
  assert (E2 : energy T' h w = energy (padded template) h w).
  { unfold energy. apply zsum2_ext. intros p q _ _. unfold T'.
    apply Z.abs_square. }
  rewrite E1, <- E2. now apply autocorrelation_le_energy.
Qed.

End EmbeddedMass.

Section Int64Exact.

Import Np Scipy Registration Int64.
Local Open Scope Z_scope.

Lemma wrap64_in_range (z : Z) : Z.abs z <= 2 ^ 63 - 1 -> wrap64 z = z.
Proof.
  intros Hz. unfold wrap64.
  assert (P : 2 ^ 64 = 2 * 2 ^ 63) by reflexivity.
  assert (Q : 0 < 2 ^ 63) by reflexivity.
  rewrite Z.mod_small by lia. lia.
Qed.

Lemma map_samples_id {A : Type} (a : ndarray A) :
  map_samples (fun z => z) a = a.
Proof.
  destruct a as [nr nc l]. unfold map_samples. cbn [nrows ncols data].
  now rewrite map_id.
Qed.

(** int64 arithmetic is the arithmetic of integers while no partial sum
    leaves the int64 range. *)
Lemma compute_translation_vector_int64 (in1 in2 : ndarray Z) :
  (forall i j, (i < nrows in1 + nrows in2 - 1)%nat ->
               (j < ncols in1 + ncols in2 - 1)%nat ->
               correlation_mass in1 in2 i j <= 2 ^ 63 - 1) ->
  @compute_translation_vector Z int64_dtype in1 in2
  = compute_translation_vector in1 in2.
Proof.
  intros Hb.
  rewrite <- (compute_translation_vector_exact int64_dtype
                (fun z => z) (fun z => z) (2 ^ 63 - 1)) by
    (try reflexivity; try exact Hb;
     cbn [d_mul d_add d_ltb int64_dtype]; intros;
     try reflexivity; now apply wrap64_in_range).
  now rewrite !map_samples_id.
Qed.

End Int64Exact.

Section Float64Exact.

Import Float Binary64 Np Scipy Registration Binary64Arrays.

Context (rnd : R -> float64) `{Hrnd : Rounding rnd}.

Lemma grid_step_square (q : R) :
  grid_step q -> last_bit_weight (q * q) /\ (0 < q * q)%R.
Proof.
  intros (k & Hk & [-> | ->]).
  - assert (P := pow2_pos k). split; [| nra].
    exists (k + k). left. split; [symmetry; apply pow2_add | lia].
  - assert (P := pow2_pos k).
    assert (Pi : (0 < / 2 ^ k)%R) by now apply Rinv_0_lt_compat.
    split; [| nra].
    exists (k + k). right. split; [| lia].
    now rewrite pow2_add, Rinv_mult.
Qed.

(** float64 arithmetic on multiples of a grid step is the arithmetic of
    integers while no partial sum exceeds 2^53. *)
Lemma compute_translation_vector_float64 (q : R) (in1 in2 : ndarray Z) :
  grid_step q ->
  (forall i j, i < nrows in1 + nrows in2 - 1 ->
               j < ncols in1 + ncols in2 - 1 ->
               (correlation_mass in1 in2 i j <= 2 ^ 53)%Z) ->
  @compute_translation_vector float64 (float64_dtype rnd)
    (scaled q in1) (scaled q in2)
  = compute_translation_vector in1 in2.
Proof.
  intros Hq Hb. destruct (grid_step_square q Hq) as [Hqq Pqq].
  unfold scaled.
  apply (compute_translation_vector_exact (float64_dtype rnd)
           (fun z => Fin (IZR z * q)) (fun z => Fin (IZR z * (q * q)))
           (2 ^ 53)).
  - cbn [d_zero float64_dtype]. f_equal. ring.
  - cbn [d_zero float64_dtype]. f_equal. ring.
  - intros x y Hxy. cbn [d_mul float64_dtype fmul].
    replace (IZR x * q * (IZR y * q))%R with (IZR (x * y) * (q * q))%R
      by (rewrite mult_IZR; ring).
    now apply rnd_scaled_integer.
  - intros x y Hx Hy Hxy. cbn [d_add float64_dtype fadd].
    replace (IZR x * (q * q) + IZR y * (q * q))%R
      with (IZR (x + y) * (q * q))%R
      by (rewrite plus_IZR; ring).
    now apply rnd_scaled_integer.
  - intros x y Hx Hy. cbn [d_ltb float64_dtype argmax_lt flt].
    destruct (Rlt_dec (IZR x * (q * q)) (IZR y * (q * q))) as [L | N];
      symmetry.
    + apply Z.ltb_lt, lt_IZR. nra.
    + apply Z.ltb_ge, le_IZR. nra.
  - exact Hb.
Qed.

(** Pasting the scaled template is scaling the pasted template. *)
Lemma paste_scaled (q : R) (H W : nat) (template : ndarray Z)
    (r0 c0 : nat) :
  @paste float64 (float64_dtype rnd) H W (scaled q template) r0 c0
  = scaled q (embed H W template r0 c0).
Proof.
  unfold paste, embed, scaled, map_samples, fromfunction.
  cbn [nrows ncols data]. f_equal.
  rewrite map_map. apply map_ext. intros k.
  destruct (_ && _)%bool.
  - apply (item_map_samples (float64_dtype rnd) (fun z => Fin (IZR z * q))).
    cbn [d_zero float64_dtype]. f_equal. ring.
  - cbn [d_zero float64_dtype]. f_equal. ring.
Qed.

End Float64Exact.

Section EstimatorTheorem.

Import Float Binary64 Np Scipy Registration Int64 Binary64Arrays.

Context (rnd : R -> float64) `{Hrnd : Rounding rnd}.

Lemma embedded_mass_at_offset (H W : nat) (template : ndarray Z)
    (dy dx : Z) (i j : nat) :
  nrows template <= H -> ncols template <= W ->
  offset_fits H (nrows template) dy ->
  offset_fits W (ncols template) dx ->
  (correlation_mass (embed_at_offset H W template dy dx) template i j
   <= sum_of_squares template)%Z.
Proof.
  intros HhH HwW Hdy Hdx. unfold offset_fits in Hdy, Hdx.
  unfold embed_at_offset. apply embedded_mass; lia.
Qed.


End EstimatorTheorem.

Section EstimatorWitness.

Import Float Binary64 Np Scipy Registration Int64 Binary64Arrays.
Local Open Scope R_scope.

#[local] Existing Instance range_only_rounding.


Lemma range_only_tiny (u : R) :
  Rabs u < HALF_SUBNORMAL -> range_only u = Fin 0.
Proof.
  intros Hu.
  destruct (range_only_cases u)
    as [[C E] | [[C E] | [[C E] | [[C E] | [[C E] | [C E]]]]]];
    try exact E;
    assert (A1 := Rle_abs u);
    assert (A2 : - u <= Rabs u) by (rewrite <- Rabs_Ropp; apply Rle_abs);
    assert (M := MAX_FINITE_lt_OVERFLOW); assert (M1 := MAX_FINITE_ge_1);
    assert (H1 := HALF_SUBNORMAL_lt_1);
    lra.
Qed.

(** A sample of the canvas around a one-sample template is that sample
    or zero. *)
Lemma one_sample_canvas (t : R) (r c : Z) :
  @padded float64 (float64_dtype range_only)
    (@paste float64 (float64_dtype range_only) 3 3
       (mk_ndarray 1 1 [Fin t]) 2 2) r c = Fin t
  \/ @padded float64 (float64_dtype range_only)
       (@paste float64 (float64_dtype range_only) 3 3
          (mk_ndarray 1 1 [Fin t]) 2 2) r c = Fin 0.
Proof.
  unfold padded.
  destruct (_ && _)%bool eqn:Hin; [| now right].
  apply andb_prop in Hin. destruct Hin as [Hin Hc2].
  apply andb_prop in Hin. destruct Hin as [Hin Hc1].
  apply andb_prop in Hin. destruct Hin as [Hr1 Hr2].
  cbn [paste fromfunction nrows ncols] in *.
  apply Z.ltb_lt in Hr2, Hc2. apply Z.leb_le in Hr1, Hc1.
  unfold paste.
  rewrite (item_fromfunction (H := float64_dtype range_only)) by lia.
  destruct (_ && _)%bool; [| now right].
  unfold Np.item. cbn [ncols data].
  destruct (_ + _)%nat as [| n]; [now left | right].
  destruct n; reflexivity.
Qed.

(** A float64 template whose only sample is so small that its square
    underflows: the correlation is flat and the first index wins. *)
Lemma tiny_template_is_misplaced (t : R) :
  Rabs (t * t) < HALF_SUBNORMAL ->
  @compute_translation_vector float64 (float64_dtype range_only)
    (@paste_at_offset float64 (float64_dtype range_only) 3 3
       (mk_ndarray 1 1 [Fin t]) 1 1)
    (mk_ndarray 1 1 [Fin t])
  = Ok ((-1)%Z, (-1)%Z).
Proof.
  intros Ht.
  change (@paste_at_offset float64 (float64_dtype range_only) 3 3
            (mk_ndarray 1 1 [Fin t]) 1 1)
    with (@paste float64 (float64_dtype range_only) 3 3
            (mk_ndarray 1 1 [Fin t]) 2 2).
  set (canvas := @paste float64 (float64_dtype range_only) 3 3
                   (mk_ndarray 1 1 [Fin t]) 2 2).
  assert (Hflat : data (@correlate_full float64 (float64_dtype range_only)
                          canvas (mk_ndarray 1 1 [Fin t]))
                  = repeat (Fin 0) 9).
  { unfold correlate_full, fromfunction. cbn [data nrows ncols].
    change (nrows canvas + 1 - 1)%nat with 3%nat.
    change (ncols canvas + 1 - 1)%nat with 3%nat.
    rewrite (map_ext _ (fun _ => Fin 0)); [reflexivity |].
    intros k. unfold sum_range. cbn [seq fold_right].
    unfold Np.item at 1. cbn [ncols data nth Nat.mul Nat.add].
    cbn [d_add d_mul d_zero float64_dtype].
    destruct (one_sample_canvas t
                (Z.of_nat (k / 3) + Z.of_nat 0 - (Z.of_nat 1 - 1))
                (Z.of_nat (k mod 3) + Z.of_nat 0 - (Z.of_nat 1 - 1)))
      as [E | E]; fold canvas in E; rewrite E; cbn [fmul].
    - rewrite (range_only_tiny _ Ht). cbn [fadd].
      rewrite Rplus_0_l, range_only_zero. cbn [fadd].
      now rewrite Rplus_0_l, range_only_zero.
    - rewrite Rmult_0_l, range_only_zero. cbn [fadd].
      rewrite Rplus_0_l, range_only_zero. cbn [fadd].
      now rewrite Rplus_0_l, range_only_zero. }
  unfold compute_translation_vector, correlate2d. cbn [rbind].
  unfold np_argmax. rewrite Hflat. cbn [repeat].
  rewrite (argmax_from_keeps (H := float64_dtype range_only)).
  - reflexivity.
  - intros v Hv. cbn [d_ltb float64_dtype].
    assert (Ev : v = Fin 0).
    { repeat (destruct Hv as [<- | Hv]; [reflexivity |]). destruct Hv. }
    rewrite Ev. cbn [argmax_lt flt].
    destruct (Rlt_dec 0 0) as [L | _]; [lra | reflexivity].
Qed.


End EstimatorWitness.

(* ================================================================== *)
(** * Further properties of the plane geometry *)
(* ================================================================== *)

Section RotationFacts.

Import Float Geometry.
Local Open Scope R_scope.

Lemma np_dot_self_positive (v : vec2) : v <> (0, 0) -> 0 < np_dot v v.
Proof.
  intros Hv. assert (H := np_dot_self_nonneg v).
  destruct (Req_dec (np_dot v v) 0) as [E | N]; [| lra].
  exfalso. apply Hv. apply norm_zero_iff.
  unfold np_linalg_norm. rewrite E. apply sqrt_0.
Qed.

Lemma norm_positive (v : vec2) : v <> (0, 0) -> 0 < np_linalg_norm v.
Proof.
  intros Hv. unfold np_linalg_norm. apply sqrt_lt_R0.
  now apply np_dot_self_positive.
Qed.

Lemma clamped_cosine_in_range (vec1 vec2 : vec2) (c : R) :
  np_dot vec1 vec2 / (np_linalg_norm vec1 * np_linalg_norm vec2) = c ->
  -1 <= c <= 1 ->
  clamped_cosine vec1 vec2 = c.
Proof.
  intros E Hc. unfold clamped_cosine. rewrite E.
  unfold Rmin, Rmax.
  destruct (Rle_dec c (-1)); destruct (Rle_dec _ 1); lra.
Qed.

End RotationFacts.

Section TransformFacts.

Import Float Geometry.
Local Open Scope R_scope.

(** X7.  With a pixel size of 0 the inverse transform raises nothing and
    returns no finite component: each one is not-a-number or an
    infinity. *)
Theorem beam_to_image_shift_zero_pixel_size (beam_shift : Point)
    (angle_deg : R) :
  forall r : R,
    fst (beam_to_image_shift beam_shift 0 angle_deg) <> Fin r
    /\ snd (beam_to_image_shift beam_shift 0 angle_deg) <> Fin r.
Proof.
  intros r. unfold beam_to_image_shift, np_true_divide. simpl.
  destruct (Req_dec_T 0 0) as [_ | N]; [| now elim N].
  split.
  - destruct (Req_dec_T _ 0); [discriminate |].
    destruct (Rlt_dec 0 _); discriminate.
  - destruct (Req_dec_T _ 0); [discriminate |].
    destruct (Rlt_dec 0 _); discriminate.
Qed.

End TransformFacts.

(* ================================================================== *)
(** * Further properties of the estimators *)
(* ================================================================== *)

Section TranslationVectorRange.

Import Np Scipy Registration.

Context {A : Type} `{Dtype A}.

(** The translation vector read off a peak at the flat index [k] of the
    full correlation surface. *)
Lemma compute_translation_vector_of_peak (current_im template : ndarray A)
    (k : nat) :
  np_argmax (correlate_full current_im template) = Ok k ->
  k < (nrows current_im + nrows template - 1)
      * (ncols current_im + ncols template - 1) ->
  compute_translation_vector current_im template
  = Ok ((Z.of_nat (k mod (ncols current_im + ncols template - 1))
         - Z.of_nat (ncols current_im + ncols template - 1) / 2)%Z,
        (Z.of_nat (k / (ncols current_im + ncols template - 1))
         - Z.of_nat (nrows current_im + nrows template - 1) / 2)%Z).
Proof.
  intros Hk Hlt. unfold compute_translation_vector. cbn [correlate2d rbind].
  rewrite Hk. cbn [rbind].
  change (nrows (correlate_full current_im template))
    with (nrows current_im + nrows template - 1).
  change (ncols (correlate_full current_im template))
    with (ncols current_im + ncols template - 1).
  destruct (np_unravel_index_in_shape k _ _ Hlt) as (E & _ & _).
  rewrite E. reflexivity.
Qed.

(** X8.  On non-empty inputs [compute_translation_vector] always returns,
    and neither component of the vector exceeds, in absolute value, half
    the extent of the full correlation surface along its axis. *)
Theorem compute_translation_vector_in_range
    (current_im template : ndarray A) :
  1 <= nrows current_im -> 1 <= ncols current_im ->
  1 <= nrows template -> 1 <= ncols template ->
  exists tx ty : Z,
    compute_translation_vector current_im template = Ok (tx, ty)
    /\ (Z.abs tx
        <= Z.of_nat (ncols current_im + ncols template - 1) / 2)%Z
    /\ (Z.abs ty
        <= Z.of_nat (nrows current_im + nrows template - 1) / 2)%Z.
Proof.
  intros Hr1 Hc1 Hr2 Hc2.
  assert (Hlen : length (data (correlate_full current_im template))
                 = (nrows current_im + nrows template - 1)
                   * (ncols current_im + ncols template - 1))
    by apply fromfunction_length.
  destruct (np_argmax_nonempty (correlate_full current_im template))
    as [k Hk]; [rewrite Hlen; nia |].
  assert (Hlt := np_argmax_bound _ _ Hk). rewrite Hlen in Hlt.
  rewrite (compute_translation_vector_of_peak _ _ k Hk Hlt).
  do 2 eexists. split; [reflexivity |].
  destruct (np_unravel_index_in_shape k _ _ Hlt) as (_ & Br & Bc).
  revert Br Bc.
  generalize (k / (ncols current_im + ncols template - 1)).
  generalize (k mod (ncols current_im + ncols template - 1)).
  generalize (ncols current_im + ncols template - 1).
  generalize (nrows current_im + nrows template - 1).
  intros h w c r Br Bc. clear - Br Bc.
  split; Z.div_mod_to_equations; lia.
Qed.

End TranslationVectorRange.

Section TranslationVectorRangeWitness.

Import Np Scipy Registration.

Lemma compute_translation_vector_in_range_witness :
  exists tx ty : Z,
    compute_translation_vector
      (mk_ndarray 3 3 [0; 0; 0; 0; 1; 2; 0; 3; 4]%Z)
      (mk_ndarray 2 2 [1; 2; 3; 4]%Z) = Ok (tx, ty)
    /\ (Z.abs tx <= Z.of_nat (3 + 2 - 1) / 2)%Z
    /\ (Z.abs ty <= Z.of_nat (3 + 2 - 1) / 2)%Z.
Proof.
  apply (compute_translation_vector_in_range
           (mk_ndarray 3 3 [0; 0; 0; 0; 1; 2; 0; 3; 4]%Z)
           (mk_ndarray 2 2 [1; 2; 3; 4]%Z)); simpl; lia.
Defined.

End TranslationVectorRangeWitness.

Section BlankInputs.

Import Np Scipy Registration.

Lemma padded_zero (a : ndarray Z) :
  (forall r c, r < nrows a -> c < ncols a -> item a r c = 0%Z) ->
  forall p q : Z, padded a p q = 0%Z.
Proof.
  intros Hz p q. unfold padded.
  destruct ((0 <=? p)%Z && (p <? Z.of_nat (nrows a))%Z
            && (0 <=? q)%Z && (q <? Z.of_nat (ncols a))%Z)%bool eqn:E;
    [| reflexivity].
  apply andb_prop in E. destruct E as [E E4].
  apply andb_prop in E. destruct E as [E E3].
  apply andb_prop in E. destruct E as [E1 E2].
  apply Z.leb_le in E1, E3. apply Z.ltb_lt in E2, E4.
  apply Hz; lia.
Qed.

Lemma correlate_full_of_blank (current_im template : ndarray Z) :
  (forall u v, u < nrows template -> v < ncols template ->
               item template u v = 0%Z)
  \/ (forall r c, r < nrows current_im -> c < ncols current_im ->
                  item current_im r c = 0%Z) ->
  forall v, In v (data (correlate_full current_im template)) -> v = 0%Z.
Proof.
  intros Hz v Hin. unfold correlate_full, fromfunction in Hin.
  cbn [data] in Hin. apply in_map_iff in Hin.
  destruct Hin as (k & <- & _).
  apply sum_range_all_zero_Z. intros u Hu.
  apply sum_range_all_zero_Z. intros w Hw.
  cbn [d_mul int_dtype].
  destruct Hz as [Hz | Hz].
  - rewrite (Hz u w Hu Hw). apply Z.mul_0_r.
  - rewrite (padded_zero current_im Hz). apply Z.mul_0_l.
Qed.

(** X9.  When the template, or the search image, is zero everywhere, the
    correlation surface is flat, its first sample is taken as the peak,
    and [compute_translation_vector] returns minus the centre of the
    surface, whatever the other input holds. *)
Theorem compute_translation_vector_of_blank
    (current_im template : ndarray Z) :
  1 <= nrows current_im -> 1 <= ncols current_im ->
  1 <= nrows template -> 1 <= ncols template ->
  (forall u v, u < nrows template -> v < ncols template ->
               item template u v = 0%Z)
  \/ (forall r c, r < nrows current_im -> c < ncols current_im ->
                  item current_im r c = 0%Z) ->
  compute_translation_vector current_im template
  = Ok ((- (Z.of_nat (ncols current_im + ncols template - 1) / 2))%Z,
        (- (Z.of_nat (nrows current_im + nrows template - 1) / 2))%Z).
Proof.
  intros Hr1 Hc1 Hr2 Hc2 Hz.
  assert (Hlen : length (data (correlate_full current_im template))
                 = (nrows current_im + nrows template - 1)
                   * (ncols current_im + ncols template - 1))
    by apply fromfunction_length.
  assert (Hall := correlate_full_of_blank current_im template Hz).
  assert (Hk : np_argmax (correlate_full current_im template) = Ok 0).
  { unfold np_argmax.
    destruct (data (correlate_full current_im template)) as [| v l].
    - simpl in Hlen. nia.
    - f_equal. apply argmax_from_keeps. intros v' Hv'.
      rewrite (Hall v) by now left.
      rewrite (Hall v') by now right.
      reflexivity. }
  rewrite (compute_translation_vector_of_peak _ _ 0 Hk) by nia.
  rewrite Nat.Div0.mod_0_l, Nat.Div0.div_0_l. reflexivity.
Qed.

Lemma compute_translation_vector_of_blank_witness :
  compute_translation_vector
    (mk_ndarray 2 3 [5; 1; 4; 2; 0; 7]%Z) (mk_ndarray 1 2 [0; 0]%Z)
  = Ok ((- (Z.of_nat (3 + 2 - 1) / 2))%Z, (- (Z.of_nat (2 + 1 - 1) / 2))%Z).
Proof.
  apply (compute_translation_vector_of_blank
           (mk_ndarray 2 3 [5; 1; 4; 2; 0; 7]%Z) (mk_ndarray 1 2 [0; 0]%Z));
    simpl; try lia.
  left. intros u v Hu Hv.
  assert (u = 0) as -> by lia.
  assert (v = 0 \/ v = 1) as [-> | ->] by lia; reflexivity.
Defined.

End BlankInputs.

Section CrossedShapes.

Import Np Scipy Tiling.

Context {A : Type} `{Dtype A}.

(** X11.  When neither input contains the other, the image being taller
    and narrower than the template or shorter and wider, the valid
    correlation is undefined and [cross_correlate] raises ValueError. *)
Theorem cross_correlate_rejects_crossed_shapes (image template : ndarray A) :
  (nrows image < nrows template /\ ncols template < ncols image)
  \/ (nrows template < nrows image /\ ncols image < ncols template) ->
  cross_correlate image template = Raise ValueError.
Proof.
  intros Hshape. unfold cross_correlate, correlate2d.
  destruct (Nat.leb_spec (nrows template) (nrows image));
    destruct (Nat.leb_spec (ncols template) (ncols image));
    destruct (Nat.leb_spec (nrows image) (nrows template));
    destruct (Nat.leb_spec (ncols image) (ncols template));
    cbn [andb rbind]; try reflexivity; lia.
Qed.

End CrossedShapes.

Section CrossedShapesWitness.

Import Np Scipy Tiling.

Lemma cross_correlate_rejects_crossed_shapes_witness :
  cross_correlate (mk_ndarray 1 3 [1; 2; 3]%Z) (mk_ndarray 2 1 [1; 2]%Z)
  = Raise ValueError.
Proof.
  apply (cross_correlate_rejects_crossed_shapes
           (mk_ndarray 1 3 [1; 2; 3]%Z) (mk_ndarray 2 1 [1; 2]%Z)).
  left. simpl. lia.
Defined.

End CrossedShapesWitness.

Section SeamEstimate.

Import Np Scipy Registration Tiling.

(** The template cut from a binned frame: its last 77 columns. *)
Lemma generate_template_of_binned (B : ndarray Q) :
  ncols B = 256 ->
  generate_template B OVERLAP_FACTOR
  = fromfunction (nrows B) 77 (fun r c => item B r (179 + c)).
Proof.
  intros Hc.
  unfold generate_template, Registration.generate_template.
  rewrite Hc.
  replace (slice_start
             (py_int (inject_Z (Z.of_nat 256) * (1 - OVERLAP_FACTOR))%Q) 256)
    with 179 by (vm_compute; reflexivity).
  reflexivity.
Qed.

Lemma bin_image_rejects (frame : ndarray Q) (f : nat) :
  nrows frame * ncols frame <> 256 * f * 256 * f ->
  bin_image frame f = Raise ValueError.
Proof.
  intros N. unfold bin_image, Registration.bin_image, np_reshape4.
  apply Nat.eqb_neq in N. rewrite N. reflexivity.
Qed.

Lemma frame_size_binnable (n : nat) :
  n = 1024 * 1024 -> n = 256 * 4 * 256 * 4.
Proof. intros ->. change (1024 * 1024 = 256 * 4 * 256 * 4). lia. Qed.

Lemma frame_size_not_binnable (n : nat) :
  n <> 1024 * 1024 -> n <> 256 * 4 * 256 * 4.
Proof.
  intros N E. apply N. rewrite E.
  change (256 * 4 * 256 * 4 = 1024 * 1024). lia.
Qed.

(** The valid correlation of a binned frame with the template cut from
    another leaves one row of 180 positions. *)
Lemma seam_of_binned (P C : ndarray Q) :
  nrows P = 256 -> ncols P = 256 -> nrows C = 256 -> ncols C = 256 ->
  exists c : nat,
    cross_correlate C (generate_template P OVERLAP_FACTOR)
    = Ok (0%Z, Z.of_nat c)
    /\ c <= 179.
Proof.
  intros HrP HcP HrC HcC.
  rewrite (generate_template_of_binned P HcP).
  destruct (cross_correlate_in_window C
              (fromfunction (nrows P) 77 (fun r c => item P r (179 + c))))
    as (r & c & E & Br & Bc).
  - cbn [nrows fromfunction]. lia.
  - cbn [ncols fromfunction]. lia.
  - cbn [nrows ncols fromfunction] in Br, Bc.
    exists c. split; [| lia].
    rewrite E. assert (r = 0) as -> by lia. reflexivity.
Qed.

(** The seam estimate of two frames that can be binned. *)
Lemma estimate_seam_of_binnable (full_template_img current_img : ndarray Q) :
  nrows full_template_img * ncols full_template_img = 1024 * 1024 ->
  nrows current_img * ncols current_img = 1024 * 1024 ->
  exists c : nat,
    estimate_seam full_template_img current_img = Ok (0%Z, Z.of_nat c)
    /\ c <= 179.
Proof.
  intros Hp Hc.
  apply (frame_size_binnable _) in Hp. apply (frame_size_binnable _) in Hc.
  unfold estimate_seam, bin_image.
  rewrite (bin_image_value _ 4 Hp), (bin_image_value _ 4 Hc).
  cbn [rbind].
  apply seam_of_binned; reflexivity.
Qed.

(** The seam estimate never has a vertical component. *)
Lemma estimate_seam_row (full_template_img current_img : ndarray Q)
    (peak_index : Z * Z) :
  estimate_seam full_template_img current_img = Ok peak_index ->
  fst peak_index = 0%Z /\ (0 <= snd peak_index <= 179)%Z.
Proof.
  intros E.
  destruct (Nat.eq_dec (nrows full_template_img * ncols full_template_img)
                       (1024 * 1024)) as [Hp | Hp].
  - destruct (Nat.eq_dec (nrows current_img * ncols current_img)
                         (1024 * 1024)) as [Hc | Hc].
    + destruct (estimate_seam_of_binnable _ _ Hp Hc) as (c & E' & B).
      rewrite E' in E. injection E as <-. simpl. lia.
    + exfalso. apply (frame_size_binnable _) in Hp.
      apply (frame_size_not_binnable _) in Hc.
      unfold estimate_seam in E.
      unfold bin_image at 1 in E. rewrite (bin_image_value _ 4 Hp) in E.
      cbn [rbind] in E. rewrite (bin_image_rejects _ 4 Hc) in E.
      discriminate E.
  - exfalso. apply (frame_size_not_binnable _) in Hp.
    unfold estimate_seam in E. rewrite (bin_image_rejects _ 4 Hp) in E.
    discriminate E.
Qed.

(** X12.  On two frames of 1024 * 1024 samples the seam estimate always
    exists, its row component is 0 and its column component lies between
    0 and 179: the estimate has no vertical part and never points left. *)
Theorem estimate_seam_is_horizontal
    (full_template_img current_img : ndarray Q) :
  nrows full_template_img * ncols full_template_img = 1024 * 1024 ->
  nrows current_img * ncols current_img = 1024 * 1024 ->
  exists c : Z,
    estimate_seam full_template_img current_img = Ok (0%Z, c)
    /\ (0 <= c <= 179)%Z.
Proof.
  intros Hp Hc.
  destruct (estimate_seam_of_binnable _ _ Hp Hc) as (c & E & B).
  exists (Z.of_nat c). split; [exact E | lia].
Qed.

Lemma estimate_seam_is_horizontal_witness :
  exists c : Z,
    estimate_seam (frame_of stuck_image) (frame_of stuck_image) = Ok (0%Z, c)
    /\ (0 <= c <= 179)%Z.
Proof.
  apply (estimate_seam_is_horizontal
           (frame_of stuck_image) (frame_of stuck_image)); reflexivity.
Defined.

(** X13.  A frame that does not hold 1024 * 1024 samples, as the previous
    or as the current tile, makes the seam estimate raise ValueError. *)
Theorem estimate_seam_rejects_other_sizes
    (full_template_img current_img : ndarray Q) :
  nrows full_template_img * ncols full_template_img <> 1024 * 1024
  \/ nrows current_img * ncols current_img <> 1024 * 1024 ->
  estimate_seam full_template_img current_img = Raise ValueError.
Proof.
  intros Hsize. unfold estimate_seam.
  destruct (Nat.eq_dec (nrows full_template_img * ncols full_template_img)
                       (1024 * 1024)) as [Hp | Hp].
  - destruct Hsize as [N | Hc]; [contradiction |].
    apply (frame_size_binnable _) in Hp.
    apply (frame_size_not_binnable _) in Hc.
    unfold bin_image at 1. rewrite (bin_image_value _ 4 Hp).
    cbn [rbind]. now rewrite (bin_image_rejects _ 4 Hc).
  - apply (frame_size_not_binnable _) in Hp.
    now rewrite (bin_image_rejects _ 4 Hp).
Qed.

Lemma estimate_seam_rejects_other_sizes_witness :
  estimate_seam (full 512 512 1%Q) (frame_of stuck_image) = Raise ValueError.
Proof.
  apply (estimate_seam_rejects_other_sizes
           (full 512 512 1%Q) (frame_of stuck_image)).
  left. change (512 * 512 <> 1024 * 1024). lia.
Defined.

End SeamEstimate.

(* ================================================================== *)
(** * Further properties of the tile loop *)
(* ================================================================== *)

Section ListAccess.

Import Tiling.

Context {A : Type}.

Lemma py_last_nonempty (l : list A) :
  l <> [] -> exists (l' : list A) (v : A), l = l' ++ [v] /\ py_last l = Ok v.
Proof.
  intros N. destruct (exists_last N) as (l' & v & ->).
  exists l', v. split; [reflexivity | apply py_last_snoc].
Qed.

Lemma py_last_ok (l : list A) (v : A) :
  py_last l = Ok v -> exists l' : list A, l = l' ++ [v].
Proof.
  intros E. destruct l as [| u l0]; [discriminate E |].
  destruct (exists_last (l := u :: l0)) as (l' & v' & E'); [discriminate |].
  rewrite E' in *. rewrite py_last_snoc in E. injection E as ->.
  now exists l'.
Qed.

Lemma py_second_last_ok (l : list A) (u : A) :
  py_second_last l = Ok u ->
  exists (l' : list A) (v : A), l = l' ++ [u; v].
Proof.
  unfold py_second_last. intros E.
  destruct (rev l) as [| v [| u' r]] eqn:R; try discriminate E.
  injection E as ->. exists (rev r), v.
  rewrite <- (rev_involutive l), R. cbn [rev].
  now rewrite <- app_assoc.
Qed.

Lemma py_second_last_two (l : list A) :
  2 <= length l ->
  exists (l' : list A) (u v : A), l = l' ++ [u; v].
Proof.
  intros L. destruct l as [| a l0]; [simpl in L; lia |].
  destruct (exists_last (l := a :: l0)) as (l1 & v & E1); [discriminate |].
  rewrite E1 in *. rewrite length_app in L. simpl in L.
  destruct l1 as [| b l2]; [simpl in L; lia |].
  destruct (exists_last (l := b :: l2)) as (l3 & u & E2); [discriminate |].
  rewrite E2. exists l3, u, v. now rewrite <- app_assoc.
Qed.

End ListAccess.

Section TileLoopEffects.

Import Np Scipy Registration Tiling.

Variable M : Microscope.
Variable original_stage_pos : StagePosition.
Variable PIXEL_SIZE : Q.

Lemma piezo_moves_app (evs1 evs2 : list event) :
  piezo_moves (evs1 ++ evs2) = piezo_moves evs1 ++ piezo_moves evs2.
Proof.
  induction evs1 as [| [p | | | p | m] evs1 IH]; simpl;
    now rewrite ?IH.
Qed.

(** What a pass of the correction body does to the script's variables and
    to the trace, whatever the instrument returns. *)
Lemma correction_step_effects (st : state M) :
  exists evs : list event,
    log (step_state (correction_step M PIXEL_SIZE st)) = log st ++ evs
    /\ acquisitions evs <= 1
    /\ correction_attempts (step_state (correction_step M PIXEL_SIZE st))
       = correction_attempts st + acquisitions evs
    /\ Forall horizontal (piezo_moves evs)
    /\ length (images_list (step_state (correction_step M PIXEL_SIZE st)))
       = length (images_list st)
    /\ length
         (adornedImage_list (step_state (correction_step M PIXEL_SIZE st)))
       = length (adornedImage_list st)
    /\ desired_abs_stage_pos (step_state (correction_step M PIXEL_SIZE st))
       = desired_abs_stage_pos st
    /\ var_j (step_state (correction_step M PIXEL_SIZE st)) = var_j st.
Proof.
  destruct st as [w0 ads0 imgs0 des0 j0 n0 lg0].
  unfold correction_step. cbn [images_list].
  destruct (py_second_last imgs0) as [prev | e] eqn:Hprev;
    [| exists []; cbn; rewrite app_nil_r, Nat.add_0_r;
       repeat split; auto ].
  destruct (py_last imgs0) as [cur | e];
    [| exists []; cbn; rewrite app_nil_r, Nat.add_0_r;
       repeat split; auto ].
  destruct (estimate_seam prev cur) as [peak | e] eqn:Hpeak;
    [| exists []; cbn; rewrite app_nil_r, Nat.add_0_r;
       repeat split; auto ].
  destruct (estimate_seam_row _ _ _ Hpeak) as [Hrow _].
  destruct (within_tolerance peak).
  { eexists. cbn. split; [reflexivity |]. cbn.
    rewrite Nat.add_0_r. repeat split; auto. }
  cbn [emit adornedImage_list desired_abs_stage_pos].
  destruct (py_last ads0) as [a | e] eqn:Hlast;
    [| eexists; cbn [step_state emit log]; rewrite <- app_assoc;
       split; [reflexivity |]; cbn; rewrite Nat.add_0_r;
       repeat split; auto ].
  destruct des0 as [d |];
    [| eexists; cbn [step_state emit log]; rewrite <- app_assoc;
       split; [reflexivity |]; cbn; rewrite Nat.add_0_r;
       repeat split; auto ].
  apply py_second_last_ok in Hprev. destruct Hprev as (imgs & cur' & ->).
  apply py_last_ok in Hlast. destruct Hlast as (ads & ->).
  destruct (negb (Qle_bool (x (stage_position a)) (x d)));
    destruct (negb (Qle_bool (y (stage_position a)) (y d))).
  all: unfold piezo_move, acquire; simpl.
  all: match goal with
       | |- context [acquire_stem_image M ?w] =>
           destruct (acquire_stem_image M w) as [a' w'] eqn:E
       end.
  all: simpl; rewrite py_set_last_snoc, py_set_last_snoc2.
  all: destruct (Nat.eqb_spec (n0 + 1) MAX_CORRECTION_ATTEMPTS) as [Hn | Hn].
  all: cbv [step_state emit set_world set_lists set_attempts world
            adornedImage_list images_list desired_abs_stage_pos var_j
            correction_attempts log].
  all: rewrite <- !(app_assoc lg0); cbn [app].
  all: eexists; split; [reflexivity |].
  all: cbn [acquisitions piezo_moves].
  all: split; [lia |]; split; [reflexivity |].
  all: split;
    [ repeat constructor; unfold horizontal; cbn [y]; rewrite ?Hrow;
      unfold inject_Z; ring
    | rewrite !length_app; cbn [length]; repeat split; reflexivity ].
Qed.

(** The sub-loop, when it ends: what it leaves behind. *)
Lemma correction_loop_effects (fuel : nat) :
  forall (st : state M) (out : outcome M),
    correction_loop M PIXEL_SIZE fuel st = Some out ->
    exists evs : list event,
      log (final_state out) = log st ++ evs
      /\ correction_attempts (final_state out)
         = correction_attempts st + acquisitions evs
      /\ (correction_attempts st < MAX_CORRECTION_ATTEMPTS ->
          correction_attempts (final_state out) <= MAX_CORRECTION_ATTEMPTS)
      /\ Forall horizontal (piezo_moves evs)
      /\ length (images_list (final_state out)) = length (images_list st)
      /\ length (adornedImage_list (final_state out))
         = length (adornedImage_list st).
Proof.
  induction fuel as [| fuel IH]; intros st out Hloop; [discriminate |].
  cbn [correction_loop] in Hloop.
  destruct (correction_step_effects st)
    as (evs & Hlog & Hacq & Hatt & Hhor & Himgs & Hads & _).
  destruct (correction_step_trace M PIXEL_SIZE st) as [_ Hcont].
  destruct (correction_step M PIXEL_SIZE st) as [st1 | st1 | e st1];
    cbn [step_state] in *.
  - destruct (Hcont st1 eq_refl) as [Hn Hne].
    destruct (IH st1 out Hloop)
      as (evs' & Hlog' & Hatt' & Hmax' & Hhor' & Himgs' & Hads').
    exists (evs ++ evs').
    rewrite acquisitions_app, piezo_moves_app.
    split; [now rewrite Hlog', Hlog, <- app_assoc |].
    split; [lia |]. split; [intros Hlt; apply Hmax'; lia |].
    split; [now apply Forall_app |].
    split; congruence.
  - injection Hloop as <-. exists evs. cbn [final_state].
    repeat split; try assumption. unfold MAX_CORRECTION_ATTEMPTS in *. lia.
  - injection Hloop as <-. exists evs. cbn [final_state].
    repeat split; try assumption. unfold MAX_CORRECTION_ATTEMPTS in *. lia.
Qed.

(** X15.  Entered with its counter at 0, the correction sub-loop ends
    within ten passes whatever the instrument returns, and re-acquires the
    tile at most ten times. *)
Theorem correction_loop_is_bounded (st : state M) (extra : nat) :
  exists (out : outcome M) (evs : list event),
    correction_loop M PIXEL_SIZE (10 + extra) (set_attempts M 0 st)
    = Some out
    /\ log (final_state out) = log st ++ evs
    /\ acquisitions evs <= 10
    /\ correction_attempts (final_state out) = acquisitions evs.
Proof.
  destruct (correction_loop_terminates M PIXEL_SIZE 9
              (set_attempts M 0 st) extra eq_refl) as [out Hout].
  destruct (correction_loop_effects _ _ _ Hout)
    as (evs & Hlog & Hatt & Hmax & _).
  exists out, evs. split; [exact Hout |].
  cbn [set_attempts correction_attempts log] in Hlog, Hatt, Hmax.
  split; [exact Hlog |].
  unfold MAX_CORRECTION_ATTEMPTS in Hmax. split; lia.
Qed.

(** X16.  The correction sub-loop never moves the stage vertically: every
    piezo move it commands, in every pass, has a zero y component. *)
Theorem correction_loop_never_moves_vertically (st : state M) (extra : nat) :
  exists (out : outcome M) (evs : list event),
    correction_loop M PIXEL_SIZE (10 + extra) (set_attempts M 0 st)
    = Some out
    /\ log (final_state out) = log st ++ evs
    /\ Forall horizontal (piezo_moves evs).
Proof.
  destruct (correction_loop_terminates M PIXEL_SIZE 9
              (set_attempts M 0 st) extra eq_refl) as [out Hout].
  destruct (correction_loop_effects _ _ _ Hout)
    as (evs & Hlog & _ & _ & Hhor & _).
  exists out, evs. split; [exact Hout |].
  split; [exact Hlog | exact Hhor].
Qed.

End TileLoopEffects.

Section GridEffects.

Import Np Scipy Registration Tiling.

Variable M : Microscope.
Variable original_stage_pos : StagePosition.
Variable PIXEL_SIZE : Q.

Lemma desired_position_ok (i j : nat) (st : state M) :
  (i = 0 /\ j = 0) \/ adornedImage_list st <> [] ->
  exists (branch : nat) (p : StagePosition),
    desired_position M original_stage_pos PIXEL_SIZE i j st
    = Ok (branch, p).
Proof.
  intros Hfirst. unfold desired_position.
  destruct ((i =? 0) && (j =? 0))%bool eqn:E; [do 2 eexists; reflexivity |].
  destruct Hfirst as [[-> ->] | N]; [discriminate E |].
  destruct (py_last_nonempty _ N) as (l' & v & _ & ->).
  destruct (j =? 0); cbn [rbind]; do 2 eexists; reflexivity.
Qed.

(** One tile: a move, an acquisition, a blanking, and the image appended
    to both lists. *)
Lemma tile_body_effects (i j : nat) (st : state M) :
  (i = 0 /\ j = 0) \/ adornedImage_list st <> [] ->
  exists (st' : state M) (branch : nat) (p : StagePosition) (w : World M),
    tile_body M original_stage_pos PIXEL_SIZE i j st = Done st'
    /\ log st'
       = log st ++ [EvPrint (msg_desired_abs_stage_pos branch p);
                    EvAbsoluteMove p; EvAcquire; EvBlank]
    /\ images_list st'
       = images_list st ++ [frame_of (fst (acquire_stem_image M w))]
    /\ adornedImage_list st'
       = adornedImage_list st ++ [fst (acquire_stem_image M w)]
    /\ var_j st' = Some j
    /\ desired_abs_stage_pos st' = Some p.
Proof.
  intros Hfirst. unfold tile_body.
  destruct (desired_position_ok i j (set_j M j st)) as (branch & p & E);
    [destruct st; exact Hfirst |].
  rewrite E. destruct st as [w0 ads0 imgs0 des0 j0 n0 lg0].
  unfold acquire. simpl.
  match goal with
  | |- context [acquire_stem_image M ?w] =>
      destruct (acquire_stem_image M w) as [a' w'] eqn:Ea;
      simpl; eexists; exists branch, p, w; rewrite Ea
  end.
  cbv [set_lists emit set_world set_desired set_j world adornedImage_list
       images_list desired_abs_stage_pos var_j correction_attempts log
       frame_of fst].
  rewrite <- !(app_assoc lg0). cbn [app].
  repeat split; reflexivity.
Qed.

(** The column loop of one row: [k] tiles from column [a] on. *)
Lemma columns_effects (i : nat) :
  forall (k a : nat) (st : state M),
    (i = 0 /\ a = 0) \/ adornedImage_list st <> [] ->
    exists (st' : state M) (evs : list event),
      for_each M (seq a k) (tile_body M original_stage_pos PIXEL_SIZE i) st
      = Done st'
      /\ log st' = log st ++ evs
      /\ acquisitions evs = k
      /\ piezo_moves evs = []
      /\ seams_entered evs = []
      /\ length (images_list st') = length (images_list st) + k
      /\ length (adornedImage_list st')
         = length (adornedImage_list st) + k
      /\ (reliable M -> Forall good_frame (images_list st) ->
          Forall good_frame (images_list st'))
      /\ (1 <= k ->
          var_j st' = Some (a + k - 1)
          /\ desired_abs_stage_pos st' <> None)
      /\ (k = 0 -> st' = st).
Proof.
  induction k as [| k IH]; intros a st Hfirst; cbn [seq for_each].
  - exists st, []. rewrite app_nil_r, !Nat.add_0_r.
    repeat split; auto; lia.
  - destruct (tile_body_effects i a st Hfirst)
      as (st1 & branch & p & w & Ht & Hlog & Himg & Had & Hj & Hd).
    rewrite Ht.
    destruct (IH (S a) st1)
      as (st' & evs & Hfor & Hlog' & Hacq & Hpz & Hseam & Hli & Hla
          & Hgood & Hlast & Hnone).
    { right. rewrite Had. intros C. apply app_eq_nil in C.
      destruct C as [_ C]. discriminate C. }
    exists st'.
    exists ([EvPrint (msg_desired_abs_stage_pos branch p);
             EvAbsoluteMove p; EvAcquire; EvBlank] ++ evs).
    split; [exact Hfor |].
    split; [now rewrite Hlog', Hlog, <- app_assoc |].
    rewrite acquisitions_app, piezo_moves_app, seams_entered_app.
    cbn [acquisitions piezo_moves seams_entered app].
    split; [lia |]. split; [exact Hpz |]. split; [exact Hseam |].
    split; [rewrite Hli, Himg, length_app; cbn [length]; lia |].
    split; [rewrite Hla, Had, length_app; cbn [length]; lia |].
    split.
    { intros Hrel Hall. apply Hgood; [exact Hrel |].
      rewrite Himg. apply Forall_app. split; [exact Hall |].
      constructor; [apply Hrel | constructor]. }
    split; [| discriminate].
    intros _. destruct k as [| k'].
    + rewrite (Hnone eq_refl), Hj, Hd.
      split; [f_equal; lia | discriminate].
    + destruct Hlast as [Hv Hdes]; [lia |].
      split; [rewrite Hv; f_equal; lia | exact Hdes].
Qed.

(** A pass of the correction body on frames the estimator accepts goes
    round or breaks, and leaves such frames. *)
Lemma correction_step_reliable (st : state M) :
  reliable M ->
  Forall good_frame (images_list st) ->
  2 <= length (images_list st) ->
  1 <= length (adornedImage_list st) ->
  desired_abs_stage_pos st <> None ->
  exists st' : state M,
    (correction_step M PIXEL_SIZE st = Continue M st'
     \/ correction_step M PIXEL_SIZE st = Break M st')
    /\ Forall good_frame (images_list st').
Proof.
  intros Hrel Hall Hlen Hads Hdes.
  destruct st as [w0 ads0 imgs0 des0 j0 n0 lg0]. simpl in *.
  destruct (py_second_last_two imgs0 Hlen) as (imgs & prev & cur & ->).
  assert (Hnon : ads0 <> []) by (intros ->; simpl in Hads; lia).
  destruct (py_last_nonempty ads0 Hnon) as (ads & a & -> & _).
  destruct des0 as [d |]; [| now elim Hdes].
  apply Forall_app in Hall. destruct Hall as [Hinit Htail].
  inversion Htail as [| ? ? Hprev Htail']. subst.
  inversion Htail' as [| ? ? Hcur _]. subst.
  destruct (estimate_seam_of_binnable prev cur Hprev Hcur) as (c & Hpeak & _).
  unfold correction_step. cbn [images_list].
  rewrite py_second_last_snoc, py_last_snoc2, Hpeak.
  destruct (within_tolerance (0%Z, Z.of_nat c)).
  { eexists. split; [right; reflexivity |]. cbn [emit images_list].
    apply Forall_app. split; [exact Hinit | exact Htail]. }
  cbn [emit adornedImage_list desired_abs_stage_pos log world images_list
       var_j correction_attempts].
  rewrite py_last_snoc.
  destruct (negb (Qle_bool (x (stage_position a)) (x d)));
    destruct (negb (Qle_bool (y (stage_position a)) (y d))).
  all: unfold piezo_move, acquire; simpl.
  all: match goal with
       | |- context [acquire_stem_image M ?w] =>
           pose proof (Hrel w) as Hnew;
           destruct (acquire_stem_image M w) as [a' w'] eqn:E
       end.
  all: simpl; rewrite py_set_last_snoc, py_set_last_snoc2.
  all: destruct (Nat.eqb_spec (n0 + 1) MAX_CORRECTION_ATTEMPTS) as [Hn | Hn].
  all: eexists; split; [(left; reflexivity) || (right; reflexivity) |].
  all: cbv [emit set_world set_lists set_attempts world
            adornedImage_list images_list desired_abs_stage_pos var_j
            correction_attempts log].
  all: apply Forall_app; split; [exact Hinit |].
  all: constructor; [exact Hprev |]; constructor; [exact Hnew | constructor].
Qed.

(** On an instrument whose frames the estimator accepts, the sub-loop ends
    normally. *)
Lemma correction_loop_reliable (fuel : nat) :
  forall (st : state M) (out : outcome M),
    reliable M ->
    Forall good_frame (images_list st) ->
    2 <= length (images_list st) ->
    1 <= length (adornedImage_list st) ->
    desired_abs_stage_pos st <> None ->
    correction_loop M PIXEL_SIZE fuel st = Some out ->
    exists st' : state M,
      out = Done st' /\ Forall good_frame (images_list st').
Proof.
  induction fuel as [| fuel IH];
    intros st out Hrel Hall Hlen Hads Hdes Hloop; [discriminate |].
  cbn [correction_loop] in Hloop.
  destruct (correction_step_reliable st Hrel Hall Hlen Hads Hdes)
    as (st1 & Hstep & Hall1).
  destruct (correction_step_effects M PIXEL_SIZE st)
    as (evs & _ & _ & _ & _ & Himgs & Hadl & Hd & _).
  destruct Hstep as [Hstep | Hstep]; rewrite Hstep in *;
    cbn [step_state] in *.
  - apply (IH st1 out Hrel Hall1); try congruence; lia.
  - injection Hloop as <-. now exists st1.
Qed.

(** One row of the grid on such an instrument. *)
Lemma row_effects (cols i extra : nat) (st : state M) :
  reliable M -> 1 <= cols ->
  Forall good_frame (images_list st) ->
  i = 0 \/ adornedImage_list st <> [] ->
  exists (st' : state M) (evs : list event),
    row_body M original_stage_pos PIXEL_SIZE (10 + extra) cols i st
    = Some (Done st')
    /\ log st' = log st ++ evs
    /\ cols <= acquisitions evs <= cols + 10
    /\ Forall horizontal (piezo_moves evs)
    /\ Forall good_frame (images_list st')
    /\ length (images_list st') = length (images_list st) + cols
    /\ length (adornedImage_list st')
       = length (adornedImage_list st) + cols.
Proof.
  intros Hrel Hcols Hall Hfirst. unfold row_body.
  destruct (columns_effects i cols 0 st)
    as (st1 & evs1 & Hfor & Hlog1 & Hacq1 & Hpz1 & _ & Hli1 & Hla1
        & Hgood1 & Hlast1 & _).
  { destruct Hfirst as [-> | N]; [left; split; reflexivity | right; exact N]. }
  rewrite Hfor.
  destruct (Hlast1 Hcols) as [Hj Hdes]. rewrite Hj.
  specialize (Hgood1 Hrel Hall).
  destruct (Nat.ltb_spec 0 (0 + cols - 1)) as [Hmany | Hone].
  - match goal with
    | |- context [correction_loop M PIXEL_SIZE _ ?st2] =>
        destruct (correction_loop_terminates M PIXEL_SIZE 9 st2 extra eq_refl)
          as [out Hout];
        rewrite Hout;
        destruct (correction_loop_effects M PIXEL_SIZE _ st2 out Hout)
          as (evs2 & Hlog2 & Hatt2 & Hmax2 & Hhor2 & Hli2 & Hla2);
        destruct (correction_loop_reliable (10 + extra) st2 out)
          as (st' & -> & Hall')
    end; cbn [emit set_attempts images_list adornedImage_list
              desired_abs_stage_pos]; try assumption; try lia.
    cbn [final_state emit set_attempts images_list adornedImage_list
         correction_attempts log] in *.
    exists st', (evs1 ++ [EvPrint (msg_image i (0 + cols - 1))] ++ evs2).
    split; [reflexivity |].
    split; [rewrite Hlog2, Hlog1, <- !app_assoc; reflexivity |].
    rewrite !acquisitions_app, !piezo_moves_app.
    cbn [acquisitions piezo_moves app].
    rewrite Hpz1. cbn [app].
    unfold MAX_CORRECTION_ATTEMPTS in Hmax2.
    repeat split; try assumption; lia.
  - exists st1, evs1. rewrite Hpz1.
    repeat split; try assumption; try lia. constructor.
Qed.

(** The rows of the grid on such an instrument: [k] rows from row [a]
    on. *)
Lemma rows_effects (cols extra : nat) :
  reliable M -> 1 <= cols ->
  forall (k a : nat) (st : state M),
    Forall good_frame (images_list st) ->
    a = 0 \/ adornedImage_list st <> [] ->
    exists (st' : state M) (evs : list event),
      for_rows M original_stage_pos PIXEL_SIZE (10 + extra) cols (seq a k) st
      = Some (Done st')
      /\ log st' = log st ++ evs
      /\ k * cols <= acquisitions evs <= k * (cols + 10)
      /\ Forall horizontal (piezo_moves evs)
      /\ length (images_list st') = length (images_list st) + k * cols
      /\ length (adornedImage_list st')
         = length (adornedImage_list st) + k * cols.
Proof.
  intros Hrel Hcols. induction k as [| k IH]; intros a st Hall Hfirst.
  - exists st, []. cbn [seq for_rows]. rewrite app_nil_r.
    repeat split; simpl; try lia. constructor.
  - remember (10 + extra) as fuel eqn:Hfuel.
    cbn [seq for_rows]. subst fuel.
    destruct (row_effects cols a extra st Hrel Hcols Hall Hfirst)
      as (st1 & evs1 & Hrow & Hlog1 & Hacq1 & Hhor1 & Hall1 & Hli1 & Hla1).
    rewrite Hrow.
    destruct (IH (S a) st1 Hall1)
      as (st' & evs2 & Hrows & Hlog2 & Hacq2 & Hhor2 & Hli2 & Hla2).
    { right. intros C. rewrite C in Hla1. simpl in Hla1. lia. }
    exists st', (evs1 ++ evs2).
    split; [exact Hrows |].
    split; [now rewrite Hlog2, Hlog1, <- app_assoc |].
    rewrite acquisitions_app, piezo_moves_app.
    split; [nia |]. split; [now apply Forall_app |].
    split; nia.
Qed.

(** X17.  A grid of at least one row and of zero columns stops at once
    with NameError, before any command to the instrument: the test after
    the column loop reads the column index, which was never bound. *)
Theorem tiling_loop_zero_columns (fuel rows : nat) (w : World M) :
  tiling_loop M original_stage_pos PIXEL_SIZE fuel (S rows) 0 w
  = Some (Failed NameError (initial_state M w)).
Proof.
  unfold tiling_loop. cbn [seq for_rows].
  unfold row_body. cbn [seq for_each].
  unfold initial_state. cbn [var_j]. reflexivity.
Qed.

(** X18.  On an instrument whose every frame holds 1024 * 1024 samples,
    any grid of at least one column is tiled to the end without an
    exception; the two lists then hold one entry per tile, the number of
    acquisitions is at least the number of tiles and exceeds it by at
    most ten per row, and no piezo move has a vertical component. *)
Theorem tiling_loop_completes (rows cols extra : nat) (w : World M) :
  reliable M -> 1 <= cols ->
  exists st : state M,
    tiling_loop M original_stage_pos PIXEL_SIZE (10 + extra) rows cols w
    = Some (Done st)
    /\ length (images_list st) = rows * cols
    /\ length (adornedImage_list st) = rows * cols
    /\ rows * cols <= acquisitions (log st) <= rows * (cols + 10)
    /\ Forall horizontal (piezo_moves (log st)).
Proof.
  intros Hrel Hcols. unfold tiling_loop.
  destruct (rows_effects cols extra Hrel Hcols rows 0 (initial_state M w))
    as (st & evs & Hrows & Hlog & Hacq & Hhor & Hli & Hla).
  - constructor.
  - now left.
  - exists st. cbn [initial_state log images_list adornedImage_list app length]
      in Hlog, Hli, Hla.
    rewrite Hlog. repeat split; try assumption; lia.
Qed.

(** The rows of a grid of one column: [k] rows from row [a] on. *)
Lemma single_column_effects (fuel : nat) :
  forall (k a : nat) (st : state M),
    a = 0 \/ adornedImage_list st <> [] ->
    exists (st' : state M) (evs : list event),
      for_rows M original_stage_pos PIXEL_SIZE fuel 1 (seq a k) st
      = Some (Done st')
      /\ log st' = log st ++ evs
      /\ acquisitions evs = k
      /\ piezo_moves evs = []
      /\ seams_entered evs = []
      /\ length (images_list st') = length (images_list st) + k
      /\ length (adornedImage_list st')
         = length (adornedImage_list st) + k.
Proof.
  induction k as [| k IH]; intros a st Hfirst; cbn [seq for_rows].
  - exists st, []. rewrite app_nil_r, !Nat.add_0_r. repeat split.
  - unfold row_body.
    destruct (columns_effects a 1 0 st)
      as (st1 & evs1 & Hfor & Hlog1 & Hacq1 & Hpz1 & Hseam1 & Hli1 & Hla1
          & _ & Hlast1 & _).
    { destruct Hfirst as [-> | N]; [left; split; reflexivity | right; exact N]. }
    rewrite Hfor. destruct Hlast1 as [Hj _]; [lia |].
    rewrite Hj. cbn [Nat.add Nat.sub Nat.ltb Nat.leb].
    destruct (IH (S a) st1)
      as (st' & evs2 & Hrows & Hlog2 & Hacq2 & Hpz2 & Hseam2 & Hli2 & Hla2).
    { right. intros C. rewrite C in Hla1. simpl in Hla1. lia. }
    exists st', (evs1 ++ evs2).
    split; [exact Hrows |].
    split; [now rewrite Hlog2, Hlog1, <- app_assoc |].
    rewrite acquisitions_app, piezo_moves_app, seams_entered_app,
      Hpz1, Hpz2, Hseam1, Hseam2.
    repeat split; lia.
Qed.

(** X19.  A grid of a single column is tiled to the end on any instrument
    and with any number of rows: one acquisition per tile, no correction
    sub-loop entered, no piezo move; the seams between rows are never
    estimated. *)
Theorem tiling_loop_single_column (fuel rows : nat) (w : World M) :
  exists st : state M,
    tiling_loop M original_stage_pos PIXEL_SIZE fuel rows 1 w
    = Some (Done st)
    /\ acquisitions (log st) = rows
    /\ seams_entered (log st) = []
    /\ piezo_moves (log st) = []
    /\ length (images_list st) = rows.
Proof.
  unfold tiling_loop.
  destruct (single_column_effects fuel rows 0 (initial_state M w))
    as (st & evs & Hrows & Hlog & Hacq & Hpz & Hseam & Hli & _);
    [now left |].
  exists st. cbn [initial_state log images_list app length] in Hlog, Hli.
  rewrite Hlog. repeat split; assumption.
Qed.

End GridEffects.

Section GridEffectsWitness.

Import Np Scipy Registration Tiling.

Lemma stuck_microscope_reliable : reliable stuck_microscope.
Proof. intros w. reflexivity. Qed.

Lemma tiling_loop_completes_witness :
  exists st : state stuck_microscope,
    tiling_loop stuck_microscope (mkStagePosition 0 0) 1 (10 + 0) 1 2 tt
    = Some (Done st)
    /\ length (images_list st) = 1 * 2
    /\ length (adornedImage_list st) = 1 * 2
    /\ 1 * 2 <= acquisitions (log st) <= 1 * (2 + 10)
    /\ Forall horizontal (piezo_moves (log st)).
Proof.
  apply (tiling_loop_completes stuck_microscope (mkStagePosition 0 0) 1
           1 2 0 tt).
  - exact stuck_microscope_reliable.
  - lia.
Defined.

End GridEffectsWitness.

(* ================================================================== *)
(** * The sign of the signed angle *)
(* ================================================================== *)

Section SignRule.

Import Float Geometry.
Local Open Scope R_scope.

Lemma lagrange_identity (vec1 vec2 : vec2) :
  np_dot vec1 vec1 * np_dot vec2 vec2
  = np_dot vec1 vec2 * np_dot vec1 vec2
    + np_cross vec1 vec2 * np_cross vec1 vec2.
Proof. unfold np_dot, np_cross. ring. Qed.

Lemma norms_product_square (vec1 vec2 : vec2) :
  (np_linalg_norm vec1 * np_linalg_norm vec2)
  * (np_linalg_norm vec1 * np_linalg_norm vec2)
  = np_dot vec1 vec2 * np_dot vec1 vec2
    + np_cross vec1 vec2 * np_cross vec1 vec2.
Proof.
  rewrite <- lagrange_identity, <- !norm_square. ring.
Qed.

Lemma cross_nonzero_vectors (vec1 vec2 : vec2) :
  np_cross vec1 vec2 <> 0 -> vec1 <> (0, 0) /\ vec2 <> (0, 0).
Proof.
  intros Hc. split; intros ->; apply Hc; unfold np_cross; simpl; ring.
Qed.

(** The cosine of the angle between two vectors that are not parallel is
    strictly inside (-1, 1), so the clamp leaves it alone. *)
Lemma clamped_cosine_strict (vec1 vec2 : vec2) :
  np_cross vec1 vec2 <> 0 -> -1 < clamped_cosine vec1 vec2 < 1.
Proof.
  intros Hc. destruct (cross_nonzero_vectors _ _ Hc) as [H1 H2].
  assert (P1 := norm_positive vec1 H1). assert (P2 := norm_positive vec2 H2).
  assert (S := norms_product_square vec1 vec2).
  set (m := np_linalg_norm vec1 * np_linalg_norm vec2) in *.
  set (d := np_dot vec1 vec2) in *. set (c := np_cross vec1 vec2) in *.
  assert (Hm : 0 < m) by (unfold m; nra).
  assert (Hc2 : 0 < c * c) by nra.
  assert (Hd : - m < d < m) by (split; nra).
  assert (Hq : -1 < d / m < 1).
  { split.
    - apply (Rmult_lt_reg_r m); [exact Hm |].
      replace (d / m * m) with d by (field; lra). lra.
    - apply (Rmult_lt_reg_r m); [exact Hm |].
      replace (d / m * m) with d by (field; lra). lra. }
  unfold clamped_cosine. fold d m.
  unfold Rmin, Rmax.
  destruct (Rle_dec (d / m) (-1)); destruct (Rle_dec _ 1); lra.
Qed.

(** The angle before the sign is applied, for vectors that are not
    parallel. *)
Lemma signed_angle_value_not_parallel (vec1 vec2 : vec2) :
  np_cross vec1 vec2 <> 0 ->
  0 < acos (clamped_cosine vec1 vec2) * 180 / PI < 180.
Proof.
  intros Hc.
  assert (B := acos_bound_lt _ (clamped_cosine_strict _ _ Hc)).
  assert (P := PI_RGT_0).
  set (t := acos (clamped_cosine vec1 vec2)) in *.
  split.
  - apply Rdiv_lt_0_compat; nra.
  - apply (Rmult_lt_reg_r PI); [exact P |].
    replace (t * 180 / PI * PI) with (t * 180) by (field; lra). nra.
Qed.

(** The same for nonzero parallel vectors. *)
Lemma signed_angle_value_parallel (vec1 vec2 : vec2) :
  vec1 <> (0, 0) -> vec2 <> (0, 0) -> np_cross vec1 vec2 = 0 ->
  acos (clamped_cosine vec1 vec2) * 180 / PI
  = if Rlt_dec (np_dot vec1 vec2) 0 then 180 else 0.
Proof.
  intros H1 H2 Hc.
  assert (P1 := norm_positive vec1 H1). assert (P2 := norm_positive vec2 H2).
  assert (S := norms_product_square vec1 vec2). rewrite Hc in S.
  assert (P := PI_RGT_0).
  set (m := np_linalg_norm vec1 * np_linalg_norm vec2) in *.
  set (d := np_dot vec1 vec2) in *.
  assert (Hm : 0 < m) by (unfold m; nra).
  destruct (Rlt_dec d 0) as [Hneg | Hpos].
  - assert (E : d = - m) by nra.
    rewrite (clamped_cosine_in_range vec1 vec2 (-1)).
    + replace (-1) with (Ropp 1) by lra.
      rewrite acos_opp, acos_1. field. lra.
    + fold d m. rewrite E. field. lra.
    + lra.
  - assert (E : d = m) by nra.
    rewrite (clamped_cosine_in_range vec1 vec2 1).
    + rewrite acos_1. field. lra.
    + fold d m. rewrite E. field. lra.
    + lra.
Qed.

End SignRule.

(* ================================================================== *)
(** * The calibration script *)
(* ================================================================== *)

Section RoundGeometry.

Import Float Geometry Np Calibration.
Local Open Scope R_scope.

Lemma desired_vector_value :
  vector_from_center_im1_starting_coord_to_center_im_2_desired_coord
  = (179, 0).
Proof.
  unfold vector_from_center_im1_starting_coord_to_center_im_2_desired_coord,
    center_im_1_starting_coord, center_im_2_desired_coord, vec_sub.
  change DESIRED_SHIFT_PX with 716%Z.
  unfold IMAGE_SIZE, BIN_FACTOR. cbn [fst snd].
  f_equal; field.
Qed.

Lemma actual_vector_value (v : Z * Z) :
  vector_from_center_im1_starting_coord_to_im_2_actual_coord v
  = (IZR (fst v) + 537 / 2, IZR (snd v)).
Proof.
  unfold vector_from_center_im1_starting_coord_to_im_2_actual_coord,
    center_im_2_actual_coord, template_match_coord,
    center_im_1_starting_coord, center_im_2_desired_coord, vec_sub, vec_add.
  change DESIRED_SHIFT_PX with 716%Z.
  change (py_int (inject_Z IMAGE_SIZE * (1 - OVERLAP_FACTOR))%Q) with 716%Z.
  unfold IMAGE_SIZE, BIN_FACTOR. cbn [fst snd].
  f_equal; field.
Qed.

(** The x component of the actual vector is an integer plus a half: it is
    never 0. *)
Lemma actual_vector_x_nonzero (tx : Z) : IZR tx + 537 / 2 <> 0.
Proof.
  intros E.
  assert (E2 : IZR (2 * tx + 537) = 0).
  { rewrite plus_IZR, mult_IZR. lra. }
  apply eq_IZR in E2. lia.
Qed.

Lemma desired_vector_nonzero : ((179, 0) : vec2) <> (0, 0).
Proof. intros E. apply (f_equal fst) in E. simpl in E. lra. Qed.

Lemma actual_vector_nonzero (tx ty : Z) :
  ((IZR tx + 537 / 2, IZR ty) : vec2) <> (0, 0).
Proof.
  intros E. apply (f_equal fst) in E. simpl in E.
  now apply (actual_vector_x_nonzero tx).
Qed.

(** The correction angle of a round is a finite number. *)
Lemma correction_angle_finite (v : Z * Z) :
  exists a : R, correction_angle_of v = Ok (Fin a).
Proof.
  destruct v as [tx ty]. unfold correction_angle_of.
  rewrite desired_vector_value, actual_vector_value. cbn [fst snd].
  rewrite signed_angle_of_nonzero
    by (apply desired_vector_nonzero || apply actual_vector_nonzero).
  eexists. reflexivity.
Qed.



End RoundGeometry.

Section CalibrationLoop.

Import Float Geometry Np Scipy Registration Calibration.

Lemma calibration_acquisitions_app (evs1 evs2 : list event) :
  acquisitions (evs1 ++ evs2) = acquisitions evs1 + acquisitions evs2.
Proof.
  induction evs1 as [| [p | b | | | | | m] evs1 IH]; simpl;
    now rewrite ?IH.
Qed.

Lemma py_sum_snoc (l : list float64) (a : float64) :
  py_sum (l ++ [a]) = py_float_add (py_sum l) a.
Proof. unfold py_sum. now rewrite fold_left_app. Qed.

Variable M : Instrument.
Variable gaussian : ndarray Q -> Q -> ndarray Q.
Variable threshold_yen : ndarray Q -> Q.
Variable original_stage_pos : Tiling.StagePosition.
Variable PIXEL_SIZE : R.

(** A pass of the main loop, when the wait for the stage ends, keeps the
    books and counts itself. *)
Lemma round_keeps_books (wait_fuel : nat) (st : state M) :
  stage_settles M wait_fuel -> bookkept st ->
  exists s : step M,
    round M gaussian threshold_yen original_stage_pos PIXEL_SIZE wait_fuel st
    = Some s
    /\ bookkept (round_state s)
    /\ (forall st', s = Continue st' ->
          guard_counter st' = guard_counter st + 1).
Proof.
  intros Hsettle (Hsum & (a & Hfin) & Hacq & Hguard).
  destruct st as [w0 ads0 imgs0 cal0 ang0 g0 lg0].
  cbn [image_to_beam_shift_angle correction_angle_list guard_counter log]
    in *.
  unfold round. cbn [guard_counter world adorned_image_list images_list
                     correction_angle_list image_to_beam_shift_angle log].
  destruct (Nat.leb_spec MAX_ROUNDS g0) as [Hstop | Hgo].
  { eexists. split; [reflexivity |]. split; [| discriminate].
    repeat split; try assumption. now exists a. }
  match goal with
  | |- context [wait_while_moving M wait_fuel ?w] =>
      destruct (wait_while_moving M wait_fuel w) as [w1 |] eqn:Hwait;
      [| now elim (Hsettle w)]
  end.
  destruct (acquire_stem_image M w1) as [a1 w2].
  destruct (acquire_stem_image M _) as [a2 w3].
  rewrite <- !app_assoc. cbn [app].
  rewrite py_second_last_snoc, py_last_snoc2.
  assert (Hbooks : forall evs ads imgs w,
            acquisitions evs = 2 ->
            bookkept (mkState M w ads imgs cal0 ang0 (g0 + 1) (lg0 ++ evs))).
  { intros evs ads imgs w Hevs. unfold bookkept.
    cbn [image_to_beam_shift_angle correction_angle_list guard_counter log].
    rewrite calibration_acquisitions_app, Hevs.
    split; [exact Hsum |]. split; [now exists a |].
    unfold MAX_ROUNDS in *. lia. }
  destruct (bin_image _ _) as [full_template_img | e];
    [| eexists; split; [reflexivity |]; split; [| discriminate];
       apply Hbooks; reflexivity ].
  destruct (bin_image _ _) as [current_img | e];
    [| eexists; split; [reflexivity |]; split; [| discriminate];
       apply Hbooks; reflexivity ].
  destruct (compute_translation_vector _ _) as [v | e];
    [| eexists; split; [reflexivity |]; split; [| discriminate];
       apply Hbooks; reflexivity ].
  destruct (correction_angle_finite v) as (c & Hc).
  rewrite Hc.
  destruct (py_abs_lt (Fin c) (1 / 2)).
  - eexists. split; [reflexivity |]. split; [| discriminate].
    apply Hbooks. reflexivity.
  - eexists. split; [reflexivity |]. split.
    + unfold round_state, bookkept.
      cbn [image_to_beam_shift_angle correction_angle_list guard_counter log].
      rewrite py_sum_snoc, <- Hsum, Hfin.
      split; [reflexivity |]. split; [eexists; reflexivity |].
      rewrite calibration_acquisitions_app.
      cbn [acquisitions app]. unfold MAX_ROUNDS in *. lia.
    + intros st' E. injection E as <-. reflexivity.
Qed.

(** The main loop ends within the rounds its guard leaves. *)
Lemma main_loop_keeps_books (wait_fuel : nat) :
  stage_settles M wait_fuel ->
  forall (n : nat) (st : state M) (extra : nat),
    bookkept st -> guard_counter st + n = MAX_ROUNDS ->
    exists out : outcome M,
      main_loop M gaussian threshold_yen original_stage_pos PIXEL_SIZE
        (S n + extra) wait_fuel st = Some out
      /\ bookkept (loop_state out).
Proof.
  intros Hsettle. induction n as [| n IH]; intros st extra Hbooks Hleft;
    cbn [main_loop Nat.add];
    destruct (round_keeps_books wait_fuel st Hsettle Hbooks)
      as (s & Hround & Hbooks' & Hcont);
    rewrite Hround; destruct s as [st1 | st1 | e st1];
    cbn [round_state] in Hbooks';
    try (eexists; split; [reflexivity | exact Hbooks']).
  - exfalso. specialize (Hcont st1 eq_refl).
    destruct Hbooks' as (_ & _ & _ & Hmax). lia.
  - apply (IH st1 extra Hbooks'). rewrite (Hcont st1 eq_refl). lia.
Qed.

Lemma initial_state_bookkept (w : World M) : bookkept (initial_state M w).
Proof.
  unfold bookkept, initial_state.
  cbn [image_to_beam_shift_angle correction_angle_list guard_counter log].
  unfold py_sum. cbn [fold_left py_float_add].
  split; [now rewrite Rplus_0_l |]. split; [eexists; reflexivity |].
  unfold MAX_ROUNDS. simpl. lia.
Qed.

(** What the script leaves behind, when every wait for the stage ends. *)
Lemma calibrate_effects (wait_fuel extra : nat) (w : World M) :
  stage_settles M wait_fuel ->
  exists (st : state M) (evs : list event),
    calibrate M gaussian threshold_yen original_stage_pos PIXEL_SIZE
      (6 + extra) wait_fuel w = Some st
    /\ bookkept st
    /\ log st
       = evs ++ [EvBeamShift (Fin 0%R, Fin 0%R);
                 EvPrint (msg_final_angle (image_to_beam_shift_angle st))]
    /\ acquisitions evs = acquisitions (log st).
Proof.
  intros Hsettle. unfold calibrate.
  destruct (main_loop_keeps_books wait_fuel Hsettle 5 (initial_state M w)
              extra (initial_state_bookkept w) eq_refl)
    as (out & Hloop & Hbooks).
  change (S 5 + extra) with (6 + extra) in Hloop. rewrite Hloop.
  destruct out as [st | e st]; cbn [loop_state] in Hbooks;
    destruct st as [w1 ads1 imgs1 cal1 ang1 g1 lg1];
    unfold bookkept in Hbooks;
    cbn [image_to_beam_shift_angle correction_angle_list guard_counter log]
      in Hbooks;
    destruct Hbooks as (Hsum & Hfin & Hacq & Hguard);
    unfold finally, handler, bookkept;
    cbn [world adorned_image_list images_list correction_angle_list
         image_to_beam_shift_angle guard_counter log].
  - eexists. exists lg1. split; [reflexivity |].
    cbn [image_to_beam_shift_angle correction_angle_list guard_counter log].
    rewrite calibration_acquisitions_app. cbn [acquisitions].
    rewrite Nat.add_0_r. repeat split; assumption.
  - eexists.
    exists (lg1 ++ [EvCloseValves; EvPrint msg_encountered_exception]).
    split; [reflexivity |].
    cbn [image_to_beam_shift_angle correction_angle_list guard_counter log].
    rewrite !calibration_acquisitions_app. cbn [acquisitions].
    rewrite !Nat.add_0_r. repeat split; assumption.
Qed.

End CalibrationLoop.

Section CalibrationScript.

Import Float Geometry Np Scipy Registration Calibration.

Variable M : Instrument.
Variable gaussian : ndarray Q -> Q -> ndarray Q.
Variable threshold_yen : ndarray Q -> Q.
Variable original_stage_pos : Tiling.StagePosition.
Variable PIXEL_SIZE : R.

(** X23.  When every wait for the stage ends, the calibration script
    ends: the main loop makes at most five rounds, so at most ten
    acquisitions, whatever the instrument and the filters return. *)
Theorem calibrate_is_bounded (wait_fuel extra : nat) (w : World M) :
  stage_settles M wait_fuel ->
  exists st : state M,
    calibrate M gaussian threshold_yen original_stage_pos PIXEL_SIZE
      (6 + extra) wait_fuel w = Some st
    /\ guard_counter st <= 5
    /\ acquisitions (log st) <= 10.
Proof.
  intros Hsettle.
  destruct (calibrate_effects M gaussian threshold_yen original_stage_pos
              PIXEL_SIZE wait_fuel extra w Hsettle)
    as (st & evs & Hrun & (_ & _ & Hacq & Hguard) & _).
  exists st. split; [exact Hrun |].
  unfold MAX_ROUNDS in Hguard. split; lia.
Qed.

(** X24.  However the main loop ends, by convergence, by the guard or by
    an exception, the last command to the instrument sets the beam shift
    back to (0, 0), and the last line printed is the final angle. *)
Theorem calibrate_resets_beam_shift (wait_fuel extra : nat) (w : World M) :
  stage_settles M wait_fuel ->
  exists (st : state M) (evs : list event),
    calibrate M gaussian threshold_yen original_stage_pos PIXEL_SIZE
      (6 + extra) wait_fuel w = Some st
    /\ log st
       = evs ++ [EvBeamShift (Fin 0%R, Fin 0%R);
                 EvPrint (msg_final_angle (image_to_beam_shift_angle st))].
Proof.
  intros Hsettle.
  destruct (calibrate_effects M gaussian threshold_yen original_stage_pos
              PIXEL_SIZE wait_fuel extra w Hsettle)
    as (st & evs & Hrun & _ & Hlog & _).
  now exists st, evs.
Qed.

(** X25.  The angle the script ends with is a finite number, and it is
    the sum of the list of correction angles: the total printed at
    convergence and the final angle printed at the end agree. *)
Theorem calibrate_angle_is_sum_of_corrections
    (wait_fuel extra : nat) (w : World M) :
  stage_settles M wait_fuel ->
  exists (st : state M) (a : R),
    calibrate M gaussian threshold_yen original_stage_pos PIXEL_SIZE
      (6 + extra) wait_fuel w = Some st
    /\ image_to_beam_shift_angle st = Fin a
    /\ py_sum (correction_angle_list st) = Fin a.
Proof.
  intros Hsettle.
  destruct (calibrate_effects M gaussian threshold_yen original_stage_pos
              PIXEL_SIZE wait_fuel extra w Hsettle)
    as (st & evs & Hrun & (Hsum & (a & Hfin) & _) & _).
  exists st, a. split; [exact Hrun |]. split; [exact Hfin |].
  now rewrite <- Hsum.
Qed.

Lemma wait_while_moving_forever (fuel : nat) :
  (forall w : World M, fst (is_moving M w) = true) ->
  forall w : World M, wait_while_moving M fuel w = None.
Proof.
  intros Hmoving. induction fuel as [| fuel IH]; intros w; [reflexivity |].
  cbn [wait_while_moving]. specialize (Hmoving w).
  destruct (is_moving M w) as [moving w']. cbn [fst] in Hmoving.
  rewrite Hmoving. apply IH.
Qed.

(** X26.  The wait for the stage has no timeout: on an instrument whose
    stage is found moving at every poll the script does not end, however
    many passes and polls it is given. *)
Theorem calibrate_waits_forever (fuel wait_fuel : nat) (w : World M) :
  (forall w : World M, fst (is_moving M w) = true) ->
  calibrate M gaussian threshold_yen original_stage_pos PIXEL_SIZE
    fuel wait_fuel w = None.
Proof.
  intros Hmoving. unfold calibrate.
  destruct fuel as [| fuel]; [reflexivity |].
  cbn [main_loop]. unfold round.
  cbn [initial_state guard_counter world Nat.leb MAX_ROUNDS].
  now rewrite (wait_while_moving_forever wait_fuel Hmoving).
Qed.

End CalibrationScript.

Section CalibrationScriptWitness.

Import Float Geometry Np Scipy Registration Calibration.

Lemma still_instrument_settles : stage_settles still_instrument 1.
Proof. intros w. discriminate. Qed.

Lemma calibrate_is_bounded_witness :
  exists st : state still_instrument,
    calibrate still_instrument no_blur fixed_threshold
      (Tiling.mkStagePosition 0 0) 1%R (6 + 0) 1 tt = Some st
    /\ guard_counter st <= 5
    /\ acquisitions (log st) <= 10.
Proof.
  apply (calibrate_is_bounded still_instrument no_blur fixed_threshold
           (Tiling.mkStagePosition 0 0) 1%R 1 0 tt).
  exact still_instrument_settles.
Defined.

Lemma calibrate_resets_beam_shift_witness :
  exists (st : state still_instrument) (evs : list event),
    calibrate still_instrument no_blur fixed_threshold
      (Tiling.mkStagePosition 0 0) 1%R (6 + 0) 1 tt = Some st
    /\ log st
       = evs ++ [EvBeamShift (Fin 0%R, Fin 0%R);
                 EvPrint (msg_final_angle (image_to_beam_shift_angle st))].
Proof.
  apply (calibrate_resets_beam_shift still_instrument no_blur fixed_threshold
           (Tiling.mkStagePosition 0 0) 1%R 1 0 tt).
  exact still_instrument_settles.
Defined.

Lemma calibrate_angle_is_sum_of_corrections_witness :
  exists (st : state still_instrument) (a : R),
    calibrate still_instrument no_blur fixed_threshold
      (Tiling.mkStagePosition 0 0) 1%R (6 + 0) 1 tt = Some st
    /\ image_to_beam_shift_angle st = Fin a
    /\ py_sum (correction_angle_list st) = Fin a.
Proof.
  apply (calibrate_angle_is_sum_of_corrections still_instrument no_blur
           fixed_threshold (Tiling.mkStagePosition 0 0) 1%R 1 0 tt).
  exact still_instrument_settles.
Defined.

Lemma calibrate_waits_forever_witness :
  calibrate restless_instrument no_blur fixed_threshold
    (Tiling.mkStagePosition 0 0) 1%R 6 100 tt = None.
Proof.
  apply (calibrate_waits_forever restless_instrument no_blur fixed_threshold
           (Tiling.mkStagePosition 0 0) 1%R 6 100 tt).
  intros w. reflexivity.
Defined.

End CalibrationScriptWitness.

Section Preprocessing.

Import Np Calibration.

Variable gaussian : ndarray Q -> Q -> ndarray Q.
Variable threshold_yen : ndarray Q -> Q.

(** X27.  [preprocess_image] returns a binary frame of the shape of the
    blurred frame: every sample is 0 or 1, and a well-formed blurred frame
    gives a well-formed result. *)
Theorem preprocess_image_is_binary (image : ndarray Q) :
  nrows (preprocess_image gaussian threshold_yen image)
  = nrows (gaussian image (1 # 10))
  /\ ncols (preprocess_image gaussian threshold_yen image)
     = ncols (gaussian image (1 # 10))
  /\ length (data (preprocess_image gaussian threshold_yen image))
     = length (data (gaussian image (1 # 10)))
  /\ forall r c,
       item (preprocess_image gaussian threshold_yen image) r c = 0%Z
       \/ item (preprocess_image gaussian threshold_yen image) r c = 1%Z.
Proof.
  unfold preprocess_image. cbn [nrows ncols data].
  split; [reflexivity |]. split; [reflexivity |].
  split; [apply length_map |].
  intros r c. unfold item. cbn [ncols data d_zero int_dtype].
  set (k := r * ncols (gaussian image (1 # 10)) + c).
  set (f := fun v : Q =>
              if Qle_bool (threshold_yen (gaussian image (1 # 10))) v
              then 1%Z else 0%Z).
  destruct (Nat.lt_ge_cases k (length (data (gaussian image (1 # 10)))))
    as [L | G].
  - rewrite (nth_indep _ 0%Z (f 0%Q)) by now rewrite length_map.
    rewrite (map_nth f). unfold f.
    destruct (Qle_bool _ _); [now right | now left].
  - left. apply nth_overflow. now rewrite length_map.
Qed.

End Preprocessing.
